(** * The system-list cache and search ranker of ui/selgame.cpp

    A shallow embedding of [menu_select_game::persistent_data] (the staged
    cache built by a background thread), of the title overlay loader
    [load_titles], of the sort comparator of [do_cache_data] and of
    [menu_select_game::populate_search], followed by the properties the
    specification states about them; then of the rest of the path from the
    driver table to the menu ([populate], [load_available_machines],
    [build_available_list], [change_info_pane], the filter keys of [handle]
    and the constructor's reading of the last used filter) with further
    properties of the code. *)

From Stdlib Require Import ZArith QArith String Ascii Bool Lia Permutation Sorted OrderedTypeEx.
From stdpp Require Import base list.

Close Scope Q_scope.
Open Scope string_scope.
Open Scope list_scope.

(** ** Services the file calls but does not define *)

(** [std::wstring] and [std::u32string], as sequences of code units. *)
Definition wstring := list Z.
Definition u32string := list Z.

(** The functions of unicode.h, corestr.h, <locale> and emu_file used by
    selgame.cpp.  They are taken as they are called:
    [normalize_unicode s] is [normalize_unicode(s, unicode_normalization_form::D, true)],
    [coll_compare] is [std::collate<wchar_t>::compare] of [std::locale()],
    [edit_distance] returns a [double] that the ranker only compares (with
    zero, with [<] and through [std::min]); it is modelled as an exact
    rational, which leaves NaN out.  [open_titles datpath titles] is
    [emu_file(datpath, OPEN_FLAG_READ).open(titles)] followed by
    [gets(readbuf, 1024)] until it fails: [None] when the file cannot be
    opened, otherwise the successive buffer contents. *)
Class Externals := {
  wstring_from_utf8 : string -> wstring;
  ustr_from_utf8 : string -> u32string;
  normalize_unicode : string -> string;
  strtrimspace : string -> string;
  edit_distance : u32string -> u32string -> Q;
  coll_compare : wstring -> wstring -> Z;
  IS_BIOS_ROOT : Z;
  open_titles : string -> string -> option (list string)
}.

(** ** The catalog *)

Module drv.
(** Modelled from the spec: [game_driver] is declared in gamedrv.h, which
    is not part of this excerpt; these are the members selgame.cpp reads
    ([fullname] is [type.fullname()]). *)
Record game_driver := {
  name : string;
  parent : string;
  fullname : string;
  manufacturer : string;
  year : string;
  flags : Z
}.
End drv.
Abbreviation game_driver := drv.game_driver.

(** The sorted driver table.  [empty_index] is the position of the object
    [GAME_NAME(___empty)]: the code recognises the placeholder by address,
    and every entry of the table is a distinct object. *)
Record catalog := {
  s_drivers_sorted : list game_driver;
  empty_index : nat
}.

Definition null_driver : game_driver :=
  {| drv.name := ""; drv.parent := ""; drv.fullname := ""; drv.manufacturer := "";
     drv.year := ""; drv.flags := 0 |}.

Module driver_list.
Definition total (cat : catalog) : nat := length (s_drivers_sorted cat).

Definition driver (cat : catalog) (index : Z) : game_driver :=
  nth (Z.to_nat index) (s_drivers_sorted cat) null_driver.

Fixpoint find_from (name : string) (l : list game_driver) (i : Z) : Z :=
  match l with
  | [] => -1
  | d :: l' => if (drv.name d =? name)%string then i else find_from name l' (i + 1)
  end.

(** Modelled from the spec: [driver_list::find] lives in drivenum.cpp,
    outside this excerpt; "find_by_shortname(name) -> index | not-found",
    with -1 for not-found as its callers test [0 <= parentindex]. *)
Definition find (cat : catalog) (name : string) : Z :=
  find_from name (s_drivers_sorted cat) 0.
End driver_list.

(** The address of the placeholder and its lookup by name, as
    [driver_list::find(GAME_NAME(___empty))] does. *)
Definition GAME_NAME____empty (cat : catalog) : game_driver :=
  driver_list.driver cat (Z.of_nat (empty_index cat)).

(** ** Strings as C sees them *)

Definition NUL : ascii := "000"%char.
Definition TAB : ascii := "009"%char.
Definition LF : ascii := "010"%char.
Definition CR : ascii := "013"%char.

(** [s[i]] of a NUL-terminated string: the terminator is read at its end. *)
Definition char_at (s : string) (i : nat) : ascii :=
  match String.get i s with Some c => c | None => NUL end.

Definition str_empty (s : string) : bool :=
  match s with EmptyString => true | _ => false end.

Definition vec_empty {A} (l : list A) : bool :=
  match l with [] => true | _ => false end.

(** [(driver.parent[0] != '0') || driver.parent[1]] *)
Definition has_parent (d : game_driver) : bool :=
  negb (char_at (drv.parent d) 0 =? "0")%char || negb (char_at (drv.parent d) 1 =? NUL)%char.

Definition is_bios_root `{E : Externals} (d : game_driver) : bool :=
  negb (Z.land (drv.flags d) IS_BIOS_ROOT =? 0)%Z.

(** ** ui_system_info *)

(** Modelled from the spec: [ui_system_info] is declared in ui/utils.h,
    outside this excerpt; the members are those selgame.cpp reads and
    writes, with the defaults of the three-argument constructor
    [ui_system_info(driver, index, available)]. *)
Record ui_system_info := {
  driver : game_driver;
  index : Z;
  is_clone : bool;
  available : bool;
  description : string;
  parent : string;
  reading_description : wstring;
  reading_parent : wstring;
  ucs_shortname : u32string;
  ucs_description : u32string;
  ucs_reading_description : u32string;
  ucs_manufacturer_description : u32string;
  ucs_manufacturer_reading_description : u32string;
  ucs_default_description : u32string;
  ucs_manufacturer_default_description : u32string
}.

Definition emplace (d : game_driver) (i : Z) (a : bool) : ui_system_info :=
  {| driver := d; index := i; is_clone := false; available := a;
     description := ""; parent := "";
     reading_description := []; reading_parent := [];
     ucs_shortname := []; ucs_description := []; ucs_reading_description := [];
     ucs_manufacturer_description := []; ucs_manufacturer_reading_description := [];
     ucs_default_description := []; ucs_manufacturer_default_description := [] |}.

Definition set_is_clone (v : bool) (i : ui_system_info) : ui_system_info :=
  {| driver := driver i; index := index i; is_clone := v; available := available i;
     description := description i; parent := parent i;
     reading_description := reading_description i; reading_parent := reading_parent i;
     ucs_shortname := ucs_shortname i; ucs_description := ucs_description i;
     ucs_reading_description := ucs_reading_description i;
     ucs_manufacturer_description := ucs_manufacturer_description i;
     ucs_manufacturer_reading_description := ucs_manufacturer_reading_description i;
     ucs_default_description := ucs_default_description i;
     ucs_manufacturer_default_description := ucs_manufacturer_default_description i |}.

Definition set_description (v : string) (i : ui_system_info) : ui_system_info :=
  {| driver := driver i; index := index i; is_clone := is_clone i; available := available i;
     description := v; parent := parent i;
     reading_description := reading_description i; reading_parent := reading_parent i;
     ucs_shortname := ucs_shortname i; ucs_description := ucs_description i;
     ucs_reading_description := ucs_reading_description i;
     ucs_manufacturer_description := ucs_manufacturer_description i;
     ucs_manufacturer_reading_description := ucs_manufacturer_reading_description i;
     ucs_default_description := ucs_default_description i;
     ucs_manufacturer_default_description := ucs_manufacturer_default_description i |}.

Definition set_parent (v : string) (i : ui_system_info) : ui_system_info :=
  {| driver := driver i; index := index i; is_clone := is_clone i; available := available i;
     description := description i; parent := v;
     reading_description := reading_description i; reading_parent := reading_parent i;
     ucs_shortname := ucs_shortname i; ucs_description := ucs_description i;
     ucs_reading_description := ucs_reading_description i;
     ucs_manufacturer_description := ucs_manufacturer_description i;
     ucs_manufacturer_reading_description := ucs_manufacturer_reading_description i;
     ucs_default_description := ucs_default_description i;
     ucs_manufacturer_default_description := ucs_manufacturer_default_description i |}.

Definition set_reading_description (v : wstring) (i : ui_system_info) : ui_system_info :=
  {| driver := driver i; index := index i; is_clone := is_clone i; available := available i;
     description := description i; parent := parent i;
     reading_description := v; reading_parent := reading_parent i;
     ucs_shortname := ucs_shortname i; ucs_description := ucs_description i;
     ucs_reading_description := ucs_reading_description i;
     ucs_manufacturer_description := ucs_manufacturer_description i;
     ucs_manufacturer_reading_description := ucs_manufacturer_reading_description i;
     ucs_default_description := ucs_default_description i;
     ucs_manufacturer_default_description := ucs_manufacturer_default_description i |}.

Definition set_reading_parent (v : wstring) (i : ui_system_info) : ui_system_info :=
  {| driver := driver i; index := index i; is_clone := is_clone i; available := available i;
     description := description i; parent := parent i;
     reading_description := reading_description i; reading_parent := v;
     ucs_shortname := ucs_shortname i; ucs_description := ucs_description i;
     ucs_reading_description := ucs_reading_description i;
     ucs_manufacturer_description := ucs_manufacturer_description i;
     ucs_manufacturer_reading_description := ucs_manufacturer_reading_description i;
     ucs_default_description := ucs_default_description i;
     ucs_manufacturer_default_description := ucs_manufacturer_default_description i |}.

Definition set_ucs_shortname (v : u32string) (i : ui_system_info) : ui_system_info :=
  {| driver := driver i; index := index i; is_clone := is_clone i; available := available i;
     description := description i; parent := parent i;
     reading_description := reading_description i; reading_parent := reading_parent i;
     ucs_shortname := v; ucs_description := ucs_description i;
     ucs_reading_description := ucs_reading_description i;
     ucs_manufacturer_description := ucs_manufacturer_description i;
     ucs_manufacturer_reading_description := ucs_manufacturer_reading_description i;
     ucs_default_description := ucs_default_description i;
     ucs_manufacturer_default_description := ucs_manufacturer_default_description i |}.

Definition set_ucs_description (v : u32string) (i : ui_system_info) : ui_system_info :=
  {| driver := driver i; index := index i; is_clone := is_clone i; available := available i;
     description := description i; parent := parent i;
     reading_description := reading_description i; reading_parent := reading_parent i;
     ucs_shortname := ucs_shortname i; ucs_description := v;
     ucs_reading_description := ucs_reading_description i;
     ucs_manufacturer_description := ucs_manufacturer_description i;
     ucs_manufacturer_reading_description := ucs_manufacturer_reading_description i;
     ucs_default_description := ucs_default_description i;
     ucs_manufacturer_default_description := ucs_manufacturer_default_description i |}.

Definition set_ucs_reading_description (v : u32string) (i : ui_system_info) : ui_system_info :=
  {| driver := driver i; index := index i; is_clone := is_clone i; available := available i;
     description := description i; parent := parent i;
     reading_description := reading_description i; reading_parent := reading_parent i;
     ucs_shortname := ucs_shortname i; ucs_description := ucs_description i;
     ucs_reading_description := v;
     ucs_manufacturer_description := ucs_manufacturer_description i;
     ucs_manufacturer_reading_description := ucs_manufacturer_reading_description i;
     ucs_default_description := ucs_default_description i;
     ucs_manufacturer_default_description := ucs_manufacturer_default_description i |}.

Definition set_ucs_manufacturer_description (v : u32string) (i : ui_system_info) : ui_system_info :=
  {| driver := driver i; index := index i; is_clone := is_clone i; available := available i;
     description := description i; parent := parent i;
     reading_description := reading_description i; reading_parent := reading_parent i;
     ucs_shortname := ucs_shortname i; ucs_description := ucs_description i;
     ucs_reading_description := ucs_reading_description i;
     ucs_manufacturer_description := v;
     ucs_manufacturer_reading_description := ucs_manufacturer_reading_description i;
     ucs_default_description := ucs_default_description i;
     ucs_manufacturer_default_description := ucs_manufacturer_default_description i |}.

Definition set_ucs_manufacturer_reading_description (v : u32string) (i : ui_system_info) : ui_system_info :=
  {| driver := driver i; index := index i; is_clone := is_clone i; available := available i;
     description := description i; parent := parent i;
     reading_description := reading_description i; reading_parent := reading_parent i;
     ucs_shortname := ucs_shortname i; ucs_description := ucs_description i;
     ucs_reading_description := ucs_reading_description i;
     ucs_manufacturer_description := ucs_manufacturer_description i;
     ucs_manufacturer_reading_description := v;
     ucs_default_description := ucs_default_description i;
     ucs_manufacturer_default_description := ucs_manufacturer_default_description i |}.

Definition set_ucs_default_description (v : u32string) (i : ui_system_info) : ui_system_info :=
  {| driver := driver i; index := index i; is_clone := is_clone i; available := available i;
     description := description i; parent := parent i;
     reading_description := reading_description i; reading_parent := reading_parent i;
     ucs_shortname := ucs_shortname i; ucs_description := ucs_description i;
     ucs_reading_description := ucs_reading_description i;
     ucs_manufacturer_description := ucs_manufacturer_description i;
     ucs_manufacturer_reading_description := ucs_manufacturer_reading_description i;
     ucs_default_description := v;
     ucs_manufacturer_default_description := ucs_manufacturer_default_description i |}.

Definition set_ucs_manufacturer_default_description (v : u32string) (i : ui_system_info) : ui_system_info :=
  {| driver := driver i; index := index i; is_clone := is_clone i; available := available i;
     description := description i; parent := parent i;
     reading_description := reading_description i; reading_parent := reading_parent i;
     ucs_shortname := ucs_shortname i; ucs_description := ucs_description i;
     ucs_reading_description := ucs_reading_description i;
     ucs_manufacturer_description := ucs_manufacturer_description i;
     ucs_manufacturer_reading_description := ucs_manufacturer_reading_description i;
     ucs_default_description := ucs_default_description i;
     ucs_manufacturer_default_description := v |}.

(** [ustr_from_utf8(normalize_unicode(s, unicode_normalization_form::D, true))] *)
Definition ucs_normalize `{E : Externals} (s : string) : u32string :=
  ustr_from_utf8 (normalize_unicode s).

(** ** Standard algorithms *)

(** [std::find_if(first, last, p)] over the characters of a buffer: the
    first position in [first, last) whose character satisfies [p], or
    [last]. *)
Fixpoint find_loop (p : ascii -> bool) (buf : string) (first count : nat) : nat :=
  match count with
  | O => first
  | S n => if p (char_at buf first) then first else find_loop p buf (S first) n
  end.

Definition std_find_if (p : ascii -> bool) (buf : string) (first last : nat) : nat :=
  find_loop p buf first (last - first).

Definition std_find (buf : string) (first last : nat) (ch : ascii) : nat :=
  std_find_if (fun c => (c =? ch)%char) buf first last.

(** [std::lower_bound(first, last, value, comp)]: the halving loop of the
    library, on positions.  [fuel] bounds the number of iterations; the
    length of the range is always enough. *)
Fixpoint lower_bound_loop {A B} (comp : A -> B -> bool) (l : list A) (value : B)
    (fuel first len : nat) : nat :=
  match fuel with
  | O => first
  | S fuel' =>
      if (len =? 0)%nat then first
      else
        let half := Nat.div2 len in
        let middle := (first + half)%nat in
        match l !! middle with
        | Some m =>
            if comp m value
            then lower_bound_loop comp l value fuel' (S middle) (len - half - 1)
            else lower_bound_loop comp l value fuel' first half
        | None => first
        end
  end.

Definition lower_bound {A B} (comp : A -> B -> bool) (l : list A) (value : B) : nat :=
  lower_bound_loop comp l value (length l) 0 (length l).

(** [std::stable_sort(first, last, comp)]: the result is sorted by [comp]
    and elements that [comp] does not order keep their relative order.
    Each element is inserted behind the elements that [comp] puts before
    it; for a strict weak ordering this is the one result the library
    allows. *)
Fixpoint stable_insert {A} (comp : A -> A -> bool) (x : A) (l : list A) : list A :=
  match l with
  | [] => [x]
  | y :: l' => if comp y x then y :: stable_insert comp x l' else x :: l
  end.

Definition stable_sort {A} (comp : A -> A -> bool) (l : list A) : list A :=
  fold_right (stable_insert comp) [] l.

(** [vector::erase(begin() + pos)]; a position outside the vector is
    undefined in the source and erases nothing here. *)
Definition erase_at {A} (l : list A) (pos : Z) : list A :=
  if (0 <=? pos)%Z then delete (Z.to_nat pos) l else l.

(** ** machine_filter_data *)

(** Modelled from the spec: [machine_filter_data] is defined in ui/utils.cpp,
    outside this excerpt; "aggregated sets of distinct manufacturer strings
    and year strings plus a finalize step that sorts/dedups them". *)
Record machine_filter_data := {
  m_manufacturers : list string;
  m_years : list string
}.

Definition machine_filter_data_new : machine_filter_data :=
  {| m_manufacturers := []; m_years := [] |}.

Definition add_manufacturer (s : string) (fd : machine_filter_data) : machine_filter_data :=
  {| m_manufacturers := s :: m_manufacturers fd; m_years := m_years fd |}.

Definition add_year (s : string) (fd : machine_filter_data) : machine_filter_data :=
  {| m_manufacturers := m_manufacturers fd; m_years := s :: m_years fd |}.

Fixpoint insert_distinct (s : string) (l : list string) : list string :=
  match l with
  | [] => [s]
  | x :: l' =>
      match String.compare s x with
      | Lt => s :: l
      | Eq => l
      | Gt => x :: insert_distinct s l'
      end
  end.

Definition finalise (fd : machine_filter_data) : machine_filter_data :=
  {| m_manufacturers := fold_right insert_distinct [] (m_manufacturers fd);
     m_years := fold_right insert_distinct [] (m_years fd) |}.

(** ** persistent_data *)

Definition AVAIL_NONE : Z := 0.
Definition AVAIL_SORTED_LIST : Z := Z.shiftl 1 0.
Definition AVAIL_BIOS_COUNT : Z := Z.shiftl 1 1.
Definition AVAIL_UCS_SHORTNAME : Z := Z.shiftl 1 2.
Definition AVAIL_UCS_DESCRIPTION : Z := Z.shiftl 1 3.
Definition AVAIL_UCS_MANUF_DESC : Z := Z.shiftl 1 4.
Definition AVAIL_UCS_DFLT_DESC : Z := Z.shiftl 1 5.
Definition AVAIL_UCS_MANUF_DFLT_DESC : Z := Z.shiftl 1 6.
Definition AVAIL_FILTER_DATA : Z := Z.shiftl 1 7.

(** The thread object held by [m_thread]: the strings its lambda captured
    and how many of the notifications of [do_cache_data] it has reached. *)
Record thread := {
  datpath : string;
  titles : string;
  progress : nat
}.

Record persistent_data := {
  m_thread : option thread;
  m_started : bool;
  m_available : Z;
  m_sorted_list : list ui_system_info;
  m_filter_data : machine_filter_data;
  m_bios_count : Z
}.

(** The private constructor. *)
Definition persistent_data_new : persistent_data :=
  {| m_thread := None; m_started := false; m_available := AVAIL_NONE;
     m_sorted_list := []; m_filter_data := machine_filter_data_new; m_bios_count := 0 |}.

Definition with_thread (t : option thread) (s : persistent_data) : persistent_data :=
  {| m_thread := t; m_started := m_started s; m_available := m_available s;
     m_sorted_list := m_sorted_list s; m_filter_data := m_filter_data s;
     m_bios_count := m_bios_count s |}.

Definition with_available (v : Z) (s : persistent_data) : persistent_data :=
  {| m_thread := m_thread s; m_started := m_started s; m_available := v;
     m_sorted_list := m_sorted_list s; m_filter_data := m_filter_data s;
     m_bios_count := m_bios_count s |}.

Definition with_sorted_list (l : list ui_system_info) (s : persistent_data) : persistent_data :=
  {| m_thread := m_thread s; m_started := m_started s; m_available := m_available s;
     m_sorted_list := l; m_filter_data := m_filter_data s;
     m_bios_count := m_bios_count s |}.

Definition with_filter_data (fd : machine_filter_data) (s : persistent_data) : persistent_data :=
  {| m_thread := m_thread s; m_started := m_started s; m_available := m_available s;
     m_sorted_list := m_sorted_list s; m_filter_data := fd;
     m_bios_count := m_bios_count s |}.

Definition with_bios_count (n : Z) (s : persistent_data) : persistent_data :=
  {| m_thread := m_thread s; m_started := m_started s; m_available := m_available s;
     m_sorted_list := m_sorted_list s; m_filter_data := m_filter_data s;
     m_bios_count := n |}.

(** [(m_available.load(std::memory_order_acquire) & desired) == desired] *)
Definition is_available (desired : Z) (s : persistent_data) : bool :=
  (Z.land (m_available s) desired =? desired)%Z.

(** [m_available.fetch_or(value, std::memory_order_release)], under the
    mutex; the mask is an [unsigned] whose bits above 7 are never set. *)
Definition notify_available (value : Z) (s : persistent_data) : persistent_data :=
  with_available (Z.lor (m_available s) value) s.

(** The accessors wait for their stage: [None] stands for a caller that is
    still blocked in [wait_available]. *)
Definition sorted_list (s : persistent_data) : option (list ui_system_info) :=
  if is_available AVAIL_SORTED_LIST s then Some (m_sorted_list s) else None.

Definition bios_count (s : persistent_data) : option Z :=
  if is_available AVAIL_BIOS_COUNT s then Some (m_bios_count s) else None.

Definition filter_data (s : persistent_data) : option machine_filter_data :=
  if is_available AVAIL_FILTER_DATA s then Some (m_filter_data s) else None.

(** ** Building the list *)

Inductive warning :=
| Empty_translated_description (shortname : string)
| Multiple_translated_descriptions (shortname found_description description : string)
| Empty_translated_reading (shortname : string).

Section Build.
Context `{E : Externals} (cat : catalog).

(** One iteration of the loop of [populate_list]; [ins] is the element
    [emplace_back] returned, written through the reference. *)
Definition populate_list_step (copydesc : bool) (s : persistent_data) (x : nat) : persistent_data :=
  let driver := driver_list.driver cat (Z.of_nat x) in
  let ins := emplace driver (Z.of_nat x) false in
  if negb (x =? empty_index cat)%nat then
    let s := if is_bios_root driver then with_bios_count (m_bios_count s + 1) s else s in
    let ins :=
      if has_parent driver then
        let parentindex := driver_list.find cat (drv.parent driver) in
        if copydesc then
          if (0 <=? parentindex)%Z then
            let parentdriver := driver_list.driver cat parentindex in
            set_parent (drv.fullname parentdriver)
              (set_is_clone (negb (is_bios_root parentdriver)) ins)
          else
            set_parent (drv.parent driver) (set_is_clone false ins)
        else
          set_is_clone
            ((0 <=? parentindex)%Z
             && negb (is_bios_root (driver_list.driver cat parentindex))) ins
      else ins in
    let ins := if copydesc then set_description (drv.fullname driver) ins else ins in
    with_filter_data
      (add_year (drv.year driver) (add_manufacturer (drv.manufacturer driver) (m_filter_data s)))
      (with_sorted_list (m_sorted_list s ++ [ins]) s)
  else
    with_sorted_list (m_sorted_list s ++ [ins]) s.

Definition populate_list (copydesc : bool) (s : persistent_data) : persistent_data :=
  fold_left (populate_list_step copydesc) (seq 0 (driver_list.total cat)) s.

(** [a.driver->name < b] *)
Definition name_less (a : ui_system_info) (b : string) : bool :=
  String.ltb (drv.name (driver a)) b.

Definition is_eoln (ch : ascii) : bool :=
  (ch =? NUL)%char || (ch =? LF)%char || (ch =? CR)%char.

(** The body of the [while (file.gets(readbuf, std::size(readbuf)))] loop
    of [load_titles] for one buffer; the pair is the list and the warnings
    printed so far. *)
Definition load_titles_line (st : list ui_system_info * list warning) (readbuf : string)
    : list ui_system_info * list warning :=
  let '(l, w) := st in
  let eoln := std_find_if is_eoln readbuf 0 1024 in
  let split := std_find readbuf 0 eoln TAB in
  if (eoln =? split)%nat then st
  else
    let shortname := substring 0 split readbuf in
    let found := lower_bound name_less l shortname in
    match l !! found with
    | None => st
    | Some f =>
        if negb (shortname =? drv.name (driver f))%string then st
        else
          let descstart := S split in
          let descend := std_find readbuf descstart eoln TAB in
          let description' := strtrimspace (substring descstart (descend - descstart) readbuf) in
          let '(f, w) :=
            if str_empty description' then
              (f, w ++ [Empty_translated_description shortname])
            else if negb (str_empty (description f)) then
              (f, w ++ [Multiple_translated_descriptions shortname (description f) description'])
            else
              (set_description description' f, w) in
          if (eoln =? descend)%nat then (<[found := f]> l, w)
          else
            let readstart := S descend in
            let readend := std_find readbuf readstart eoln TAB in
            let reading := strtrimspace (substring readstart (readend - readstart) readbuf) in
            if str_empty reading then
              (<[found := f]> l, w ++ [Empty_translated_reading shortname])
            else
              let convbuf := (drv.manufacturer (driver f) ++ " " ++ reading)%string in
              (<[found :=
                   set_ucs_manufacturer_reading_description (ucs_normalize convbuf)
                     (set_ucs_reading_description (ucs_normalize reading)
                        (set_reading_description (wstring_from_utf8 reading) f))]> l, w)
    end.

(** [if (info.description.empty()) info.description = info.driver->type.fullname();] *)
Definition fill_untranslated (info : ui_system_info) : ui_system_info :=
  if str_empty (description info) then set_description (drv.fullname (driver info)) info
  else info.

Definition load_titles (file : list string) (l : list ui_system_info)
    : list ui_system_info * list warning :=
  let '(l, w) := fold_left load_titles_line file (l, []) in
  (map fill_untranslated l, w).

(** One iteration of the loop of [populate_parents] on the element at
    position [i]; the vector is read and written in place. *)
Definition populate_parents_step (l : list ui_system_info) (i : nat) : list ui_system_info :=
  match l !! i with
  | None => l
  | Some info =>
      if has_parent (driver info) then
        let found := lower_bound name_less l (drv.parent (driver info)) in
        match l !! found with
        | Some f =>
            <[i := set_reading_parent (reading_description f) (set_parent (description f) info)]> l
        | None =>
            <[i := set_parent (drv.parent (driver info)) info]> l
        end
      else l
  end.

Definition populate_parents (l : list ui_system_info) : list ui_system_info :=
  fold_left populate_parents_step (seq 0 (length l)) l.

(** [0 > coll.compare(wx.data(), wx.data() + wx.size(), wy.data(), wy.data() + wy.size())] *)
Definition compare_names (wx wy : wstring) : bool :=
  (0 >? coll_compare wx wy)%Z.

(** The comparator handed to [std::stable_sort] in [do_cache_data]. *)
Definition compare_systems (lhs rhs : ui_system_info) : bool :=
  let x := driver lhs in
  let y := driver rhs in
  if negb (is_clone lhs) && negb (is_clone rhs) then
    compare_names
      (if vec_empty (reading_description lhs) then wstring_from_utf8 (description lhs)
       else reading_description lhs)
      (if vec_empty (reading_description rhs) then wstring_from_utf8 (description rhs)
       else reading_description rhs)
  else if is_clone lhs && is_clone rhs then
    if (drv.parent x =? drv.parent y)%string then
      compare_names
        (if vec_empty (reading_description lhs) then wstring_from_utf8 (description lhs)
         else reading_description lhs)
        (if vec_empty (reading_description rhs) then wstring_from_utf8 (description rhs)
         else reading_description rhs)
    else
      compare_names
        (if vec_empty (reading_parent lhs) then wstring_from_utf8 (parent lhs)
         else reading_parent lhs)
        (if vec_empty (reading_parent rhs) then wstring_from_utf8 (parent rhs)
         else reading_parent rhs)
  else if negb (is_clone lhs) && is_clone rhs then
    if (drv.name x =? drv.parent y)%string then true
    else
      compare_names
        (if vec_empty (reading_description lhs) then wstring_from_utf8 (description lhs)
         else reading_description lhs)
        (if vec_empty (reading_parent rhs) then wstring_from_utf8 (parent rhs)
         else reading_parent rhs)
  else
    if (drv.parent x =? drv.name y)%string then false
    else
      compare_names
        (if vec_empty (reading_parent lhs) then wstring_from_utf8 (parent lhs)
         else reading_parent lhs)
        (if vec_empty (reading_description rhs) then wstring_from_utf8 (description rhs)
         else reading_description rhs).



(** [bool const try_titles(!titles.empty() && !titles_file.open(titles))] *)
Definition try_titles (datpath titles : string) : bool :=
  negb (str_empty titles)
  && match open_titles datpath titles with Some _ => true | None => false end.

Definition titles_file (datpath titles : string) : list string :=
  match open_titles datpath titles with Some lines => lines | None => [] end.

Definition default_description_differs (info : ui_system_info) : bool :=
  negb (description info =? drv.fullname (driver info))%string.

(** [do_cache_data] runs from one [notify_available] to the next; [stage n]
    is the code up to and including its [n]-th notification (from 0). *)
Definition stage (datpath titles : string) (n : nat) (s : persistent_data) : persistent_data :=
  match n with
  | 0%nat =>
      let s := populate_list (negb (try_titles datpath titles)) s in
      notify_available AVAIL_BIOS_COUNT s
  | 1%nat =>
      let s :=
        if try_titles datpath titles then
          let s := with_sorted_list
                     (fst (load_titles (titles_file datpath titles) (m_sorted_list s))) s in
          with_sorted_list (populate_parents (m_sorted_list s)) s
        else s in
      let s := with_sorted_list
                 (erase_at (m_sorted_list s)
                    (driver_list.find cat (drv.name (GAME_NAME____empty cat)))) s in
      let s := with_sorted_list (stable_sort compare_systems (m_sorted_list s)) s in
      notify_available AVAIL_SORTED_LIST s
  | 2%nat =>
      let s := with_filter_data (finalise (m_filter_data s)) s in
      notify_available AVAIL_FILTER_DATA s
  | 3%nat =>
      let s := with_sorted_list
                 (map (fun info => set_ucs_shortname (ucs_normalize (drv.name (driver info))) info)
                    (m_sorted_list s)) s in
      notify_available AVAIL_UCS_SHORTNAME s
  | 4%nat =>
      let s := with_sorted_list
                 (map (fun info => set_ucs_description (ucs_normalize (description info)) info)
                    (m_sorted_list s)) s in
      notify_available AVAIL_UCS_DESCRIPTION s
  | 5%nat =>
      let s := with_sorted_list
                 (map (fun info =>
                         let buf := (drv.manufacturer (driver info) ++ " " ++ description info)%string in
                         set_ucs_manufacturer_description (ucs_normalize buf) info)
                    (m_sorted_list s)) s in
      notify_available AVAIL_UCS_MANUF_DESC s
  | 6%nat =>
      let s :=
        if try_titles datpath titles then
          with_sorted_list
            (map (fun info =>
                    if default_description_differs info then
                      set_ucs_default_description (ucs_normalize (drv.fullname (driver info))) info
                    else info)
               (m_sorted_list s)) s
        else s in
      notify_available AVAIL_UCS_DFLT_DESC s
  | 7%nat =>
      let s :=
        if try_titles datpath titles then
          with_sorted_list
            (map (fun info =>
                    if default_description_differs info then
                      let buf := (drv.manufacturer (driver info) ++ " "
                                 ++ drv.fullname (driver info))%string in
                      set_ucs_manufacturer_default_description (ucs_normalize buf) info
                    else info)
               (m_sorted_list s)) s
        else s in
      notify_available AVAIL_UCS_MANUF_DFLT_DESC s
  | _ => s
  end.

Definition stages : nat := 8.

(** The whole of [do_cache_data]: its stages in order. *)
Definition do_cache_data (datpath titles : string) (s : persistent_data) : persistent_data :=
  fold_left (fun s n => stage datpath titles n s) (seq 0 stages) s.

End Build.

(** ** Starting and resetting the build *)

(** Modelled from the spec: [ui_options] is declared in ui/moptions.h,
    outside this excerpt; the two strings [cache_data] copies. *)
Record ui_options := {
  history_path : string;
  system_names : string
}.

Definition with_started (b : bool) (s : persistent_data) : persistent_data :=
  {| m_thread := m_thread s; m_started := b; m_available := m_available s;
     m_sorted_list := m_sorted_list s; m_filter_data := m_filter_data s;
     m_bios_count := m_bios_count s |}.

(** [cache_data], whose body runs with [m_mutex] held: the thread is
    created with the two strings its lambda captures and has not run yet. *)
Definition cache_data (options : ui_options) (s : persistent_data) : persistent_data :=
  if negb (m_started s) then
    let s := with_started true s in
    with_thread
      (Some {| datpath := history_path options; titles := system_names options;
               progress := 0 |}) s
  else s.

(** Whether a call of [cache_data] in state [s] constructs a [std::thread]. *)
Definition creates_thread (s : persistent_data) : bool := negb (m_started s).

(** [m_thread->join()] returns once the thread has left [do_cache_data]. *)
Definition joinable_now (s : persistent_data) : bool :=
  match m_thread s with
  | Some t => (stages <=? progress t)%nat
  | None => true
  end.

(** [reset_cache]; [None] stands for a caller still blocked in [join]. *)
Definition reset_cache (s : persistent_data) : option persistent_data :=
  if joinable_now s then
    let s := with_thread None s in
    let s := with_started false s in
    let s := with_available AVAIL_NONE s in
    let s := with_sorted_list [] s in
    let s := with_filter_data machine_filter_data_new s in
    let s := with_bios_count 0 s in
    Some s
  else None.

Definition set_available (v : bool) (i : ui_system_info) : ui_system_info :=
  {| driver := driver i; index := index i; is_clone := is_clone i; available := v;
     description := description i; parent := parent i;
     reading_description := reading_description i; reading_parent := reading_parent i;
     ucs_shortname := ucs_shortname i; ucs_description := ucs_description i;
     ucs_reading_description := ucs_reading_description i;
     ucs_manufacturer_description := ucs_manufacturer_description i;
     ucs_manufacturer_reading_description := ucs_manufacturer_reading_description i;
     ucs_default_description := ucs_default_description i;
     ucs_manufacturer_default_description := ucs_manufacturer_default_description i |}.

(** What can happen to the cache: the calls of its public interface, the
    background thread reaching its next notification, and the menu marking
    systems available through the reference [sorted_list()] returned
    ([info.available = included[info.index]]). *)
Inductive event :=
| Call_cache_data (options : ui_options)
| Call_reset_cache
| Call_is_available (desired : Z)
| Call_mark_available (included : Z -> bool)
| Thread_runs.

Section Session.
Context `{E : Externals} (cat : catalog).

(** The thread executes the code up to its next [notify_available]. *)
Definition thread_runs (s : persistent_data) : persistent_data :=
  match m_thread s with
  | Some t =>
      if (progress t <? stages)%nat then
        let s := stage cat (datpath t) (titles t) (progress t) s in
        with_thread
          (Some {| datpath := datpath t; titles := titles t; progress := S (progress t) |}) s
      else s
  | None => s
  end.

(** A call that cannot return yet (a [join] or a [wait_available] that is
    still blocked) leaves the cache as it is. *)
Definition step (s : persistent_data) (e : event) : persistent_data :=
  match e with
  | Call_cache_data options => cache_data options s
  | Call_reset_cache =>
      match reset_cache s with Some s' => s' | None => s end
  | Call_is_available _ => s
  | Call_mark_available included =>
      match sorted_list s with
      | Some l =>
          with_sorted_list (map (fun info => set_available (included (index info)) info) l) s
      | None => s
      end
  | Thread_runs => thread_runs s
  end.

Definition run (events : list event) (s : persistent_data) : persistent_data :=
  fold_left step events s.

(** The number of threads the calls of [cache_data] in [events] create. *)
Fixpoint threads_created (events : list event) (s : persistent_data) : nat :=
  match events with
  | [] => 0
  | e :: events' =>
      (match e with
       | Call_cache_data _ => if creates_thread s then 1 else 0
       | _ => 0
       end + threads_created events' (step s e))%nat
  end.

Definition is_reset (e : event) : bool :=
  match e with Call_reset_cache => true | _ => false end.

End Session.

(** The stages in the order [do_cache_data] publishes them. *)
Definition pipeline_order : list Z :=
  [AVAIL_BIOS_COUNT; AVAIL_SORTED_LIST; AVAIL_FILTER_DATA; AVAIL_UCS_SHORTNAME;
   AVAIL_UCS_DESCRIPTION; AVAIL_UCS_MANUF_DESC; AVAIL_UCS_DFLT_DESC;
   AVAIL_UCS_MANUF_DFLT_DESC].

(** ** The search ranker *)

(** The members of [menu_select_game] that [populate_search] uses.  An
    entry of [m_searchlist] holds a reference to an element of the cache's
    sorted list: its position there. *)
Record menu_select_game := {
  m_search : string;
  m_searchlist : list (Q * nat);
  m_searched_fields : Z
}.

Definition Qltb (x y : Q) : bool := negb (Qle_bool y x).

(** [(std::min)(a, b)] is [b < a ? b : a]. *)
Definition std_min (a b : Q) : Q := if Qltb b a then b else a.

(** A [double] used as a condition. *)
Definition nonzero (x : Q) : bool := negb (Qeq_bool x 0).

(** [m_searched_fields & flag] used as a condition. *)
Definition searched (fields flag : Z) : bool := negb (Z.land fields flag =? 0)%Z.

Inductive field :=
| Shortname
| Reading
| Manufacturer_reading
| Description
| Manufacturer_description
| Default_description
| Manufacturer_default_description.

Definition field_text (f : field) (sys : ui_system_info) : u32string :=
  match f with
  | Shortname => ucs_shortname sys
  | Reading => ucs_reading_description sys
  | Manufacturer_reading => ucs_manufacturer_reading_description sys
  | Description => ucs_description sys
  | Manufacturer_description => ucs_manufacturer_description sys
  | Default_description => ucs_default_description sys
  | Manufacturer_default_description => ucs_manufacturer_default_description sys
  end.

Section Search.
Context `{E : Externals}.

(** The body of the loop over [m_searchlist]: the value left in
    [info.first]. *)
Definition score (fields : Z) (ucs_search : u32string) (sys : ui_system_info) : Q :=
  let first := 1%Q in
  let first :=
    if searched fields AVAIL_UCS_SHORTNAME then edit_distance ucs_search (ucs_shortname sys)
    else first in
  let first :=
    if nonzero first && negb (vec_empty (ucs_reading_description sys)) then
      let first := std_min (edit_distance ucs_search (ucs_reading_description sys)) first in
      if nonzero first then
        std_min (edit_distance ucs_search (ucs_manufacturer_reading_description sys)) first
      else first
    else first in
  let first :=
    if nonzero first && searched fields AVAIL_UCS_DESCRIPTION then
      std_min (edit_distance ucs_search (ucs_description sys)) first
    else first in
  let first :=
    if nonzero first && searched fields AVAIL_UCS_MANUF_DESC then
      std_min (edit_distance ucs_search (ucs_manufacturer_description sys)) first
    else first in
  let first :=
    if nonzero first && searched fields AVAIL_UCS_DFLT_DESC
       && negb (vec_empty (ucs_default_description sys)) then
      let first := std_min (edit_distance ucs_search (ucs_default_description sys)) first in
      if nonzero first && searched fields AVAIL_UCS_MANUF_DFLT_DESC then
        std_min (edit_distance ucs_search (ucs_manufacturer_default_description sys)) first
      else first
    else first in
  first.

(** The same loop body, recording every call of [util::edit_distance]:
    the field compared, the score before and the score after. *)
Definition compared := (field * Q * Q)%type.

Definition assign (ucs_search : u32string) (sys : ui_system_info) (f : field)
    (st : Q * list compared) : Q * list compared :=
  let first := edit_distance ucs_search (field_text f sys) in
  (first, snd st ++ [(f, fst st, first)]).

Definition improve (ucs_search : u32string) (sys : ui_system_info) (f : field)
    (st : Q * list compared) : Q * list compared :=
  let first := std_min (edit_distance ucs_search (field_text f sys)) (fst st) in
  (first, snd st ++ [(f, fst st, first)]).

Definition score_trace (fields : Z) (ucs_search : u32string) (sys : ui_system_info)
    : Q * list compared :=
  let st := (1%Q, []) in
  let st :=
    if searched fields AVAIL_UCS_SHORTNAME then assign ucs_search sys Shortname st else st in
  let st :=
    if nonzero (fst st) && negb (vec_empty (ucs_reading_description sys)) then
      let st := improve ucs_search sys Reading st in
      if nonzero (fst st) then improve ucs_search sys Manufacturer_reading st else st
    else st in
  let st :=
    if nonzero (fst st) && searched fields AVAIL_UCS_DESCRIPTION then
      improve ucs_search sys Description st
    else st in
  let st :=
    if nonzero (fst st) && searched fields AVAIL_UCS_MANUF_DESC then
      improve ucs_search sys Manufacturer_description st
    else st in
  let st :=
    if nonzero (fst st) && searched fields AVAIL_UCS_DFLT_DESC
       && negb (vec_empty (ucs_default_description sys)) then
      let st := improve ucs_search sys Default_description st in
      if nonzero (fst st) && searched fields AVAIL_UCS_MANUF_DFLT_DESC then
        improve ucs_search sys Manufacturer_default_description st
      else st
    else st in
  st.

(** [m_searched_fields |= flag] for every published flag. *)
Definition check_available (pd : persistent_data) (fields : Z) : Z :=
  let fields :=
    if is_available AVAIL_UCS_SHORTNAME pd then Z.lor fields AVAIL_UCS_SHORTNAME else fields in
  let fields :=
    if is_available AVAIL_UCS_DESCRIPTION pd then Z.lor fields AVAIL_UCS_DESCRIPTION else fields in
  let fields :=
    if is_available AVAIL_UCS_MANUF_DESC pd then Z.lor fields AVAIL_UCS_MANUF_DESC else fields in
  let fields :=
    if is_available AVAIL_UCS_DFLT_DESC pd then Z.lor fields AVAIL_UCS_DFLT_DESC else fields in
  let fields :=
    if is_available AVAIL_UCS_MANUF_DFLT_DESC pd
    then Z.lor fields AVAIL_UCS_MANUF_DFLT_DESC else fields in
  fields.

(** The score of the entry a reference points at; a reference into a
    vector that no longer has the element is not given a meaning by the
    source and scores 1.0 here. *)
Definition score_ref (pd : persistent_data) (fields : Z) (ucs_search : u32string) (ref : nat) : Q :=
  match m_sorted_list pd !! ref with
  | Some sys => score fields ucs_search sys
  | None => 1%Q
  end.

(** The list [populate_search] ranks: filled from [sorted_list()] when it
    is empty ([None] while that call is blocked), else as the previous call
    left it. *)
Definition ensure_populated (pd : persistent_data) (m : menu_select_game)
    : option (list (Q * nat)) :=
  if vec_empty (m_searchlist m) then
    match sorted_list pd with
    | Some sorted => Some (map (fun ref => (1%Q, ref)) (seq 0 (length sorted)))
    | None => None
    end
  else Some (m_searchlist m).

Definition by_score (lhs rhs : Q * nat) : bool := Qltb (fst lhs) (fst rhs).

Definition populate_search (pd : persistent_data) (m : menu_select_game)
    : option menu_select_game :=
  match ensure_populated pd m with
  | None => None
  | Some searchlist =>
      let ucs_search := ucs_normalize (m_search m) in
      let fields := check_available pd (m_searched_fields m) in
      let searchlist :=
        map (fun info => (score_ref pd fields ucs_search (snd info), snd info)) searchlist in
      Some {| m_search := m_search m;
              m_searchlist := stable_sort by_score searchlist;
              m_searched_fields := fields |}
  end.

End Search.

(** ** A plain-text environment and small catalogs to run the model on *)

Definition code_points (s : string) : list Z :=
  map (fun c => Z.of_N (N_of_ascii c)) (list_ascii_of_string s).

Definition lower_case (c : ascii) : ascii :=
  let n := N_of_ascii c in
  if ((65 <=? n) && (n <=? 90))%N then ascii_of_N (n + 32) else c.

Fixpoint fold_case (s : string) : string :=
  match s with
  | EmptyString => EmptyString
  | String c s' => String (lower_case c) (fold_case s')
  end.

Definition is_space (c : ascii) : bool :=
  let n := N_of_ascii c in
  ((n =? 32) || ((9 <=? n) && (n <=? 13)))%N.

Fixpoint trim_left (s : string) : string :=
  match s with
  | EmptyString => EmptyString
  | String c s' => if is_space c then trim_left s' else s
  end.

Fixpoint trim_right (s : string) : string :=
  match s with
  | EmptyString => EmptyString
  | String c s' =>
      match trim_right s' with
      | EmptyString => if is_space c then EmptyString else String c EmptyString
      | t => String c t
      end
  end.

(** Code units compared one by one, as the classic locale collates. *)
Fixpoint lexicographic (x y : list Z) : Z :=
  match x, y with
  | [], [] => 0
  | [], _ :: _ => -1
  | _ :: _, [] => 1
  | a :: x', b :: y' =>
      if (a <? b)%Z then -1 else if (b <? a)%Z then 1 else lexicographic x' y'
  end.

Fixpoint mismatches (x y : list Z) : nat :=
  match x, y with
  | [], _ => length y
  | _, [] => length x
  | a :: x', b :: y' => ((if (a =? b)%Z then 0 else 1) + mismatches x' y')%nat
  end.

(** A stand-in for [util::edit_distance]: the share of positions at which
    the two strings differ, 0 for equal strings and at most 1. *)
Definition mismatch_ratio (x y : list Z) : Q :=
  match Nat.max (length x) (length y) with
  | O => 0%Q
  | S n => Qmake (Z.of_nat (mismatches x y)) (Pos.of_succ_nat n)
  end.

Definition plain_text : Externals :=
  {| wstring_from_utf8 := code_points;
     ustr_from_utf8 := code_points;
     normalize_unicode := fold_case;
     strtrimspace := fun s => trim_right (trim_left s);
     edit_distance := mismatch_ratio;
     coll_compare := lexicographic;
     IS_BIOS_ROOT := Z.shiftl 1 9;
     open_titles := fun _ _ => None |}.

Definition plain_driver (name parent fullname : string) : game_driver :=
  {| drv.name := name; drv.parent := parent; drv.fullname := fullname;
     drv.manufacturer := "Acme"; drv.year := "1997"; drv.flags := 0 |}.

(** The catalog of the clone-ordering example: the placeholder, non-clone
    "Alpha", its clone "Alpha Two" and the independent "Beta". *)
Definition alpha_catalog : catalog :=
  {| s_drivers_sorted :=
       [plain_driver "___empty" "0" "No Driver Loaded";
        plain_driver "alpha" "0" "Alpha";
        plain_driver "alpha2" "alpha" "Alpha Two";
        plain_driver "beta" "0" "Beta"];
     empty_index := 0 |}.

Definition no_titles : ui_options := {| history_path := "dats"; system_names := "" |}.

(** The cache once the thread started by [cache_data] has finished. *)
Definition alpha_cache : persistent_data :=
  do_cache_data (E := plain_text) alpha_catalog "dats" "" persistent_data_new.

(** The list [load_titles] works on in a build of [alpha_catalog] that
    reads an overlay: [populate_list(false)] has run. *)
Definition alpha_unsorted : list ui_system_info :=
  m_sorted_list (populate_list (E := plain_text) alpha_catalog false persistent_data_new).

(** A catalog with a system whose full name is the empty string. *)
Definition nameless_catalog : catalog :=
  {| s_drivers_sorted :=
       [plain_driver "___empty" "0" "No Driver Loaded";
        plain_driver "anon" "0" ""];
     empty_index := 0 |}.

Definition nameless_unsorted : list ui_system_info :=
  m_sorted_list (populate_list (E := plain_text) nameless_catalog false persistent_data_new).

(** A catalog in which "gamma" names a parent that is not in the table. *)
Definition orphan_catalog : catalog :=
  {| s_drivers_sorted :=
       [plain_driver "___empty" "0" "No Driver Loaded";
        plain_driver "alpha" "0" "Alpha";
        plain_driver "gamma" "delta" "Gamma";
        plain_driver "omega" "zeta" "Omega";
        plain_driver "zed" "alpha" "Zed"];
     empty_index := 0 |}.

Definition orphan_unsorted : list ui_system_info :=
  map fill_untranslated
    (m_sorted_list (populate_list (E := plain_text) orphan_catalog false persistent_data_new)).

Definition new_menu (search : string) : menu_select_game :=
  {| m_search := search; m_searchlist := []; m_searched_fields := AVAIL_NONE |}.

Definition with_search (search : string) (m : menu_select_game) : menu_select_game :=
  {| m_search := search; m_searchlist := m_searchlist m;
     m_searched_fields := m_searched_fields m |}.

(** ** Predicates used by the statements *)

(** The list as [populate_list] leaves it and [load_titles] and
    [populate_parents] expect it: ascending by short name. *)
Definition sorted_by_shortname (l : list ui_system_info) : Prop :=
  StronglySorted
    (fun a b => String.ltb (drv.name (driver a)) (drv.name (driver b)) = true) l.

(** What [populate_parents] leaves in one element when the searches of its
    loop run over [l]. *)
Definition populate_parents_entry (l : list ui_system_info) (info : ui_system_info)
    : ui_system_info :=
  if has_parent (driver info) then
    match l !! lower_bound name_less l (drv.parent (driver info)) with
    | Some f => set_reading_parent (reading_description f) (set_parent (description f) info)
    | None => set_parent (drv.parent (driver info)) info
    end
  else info.

(** The fields [load_titles] reads from one buffer: the short name (none
    when no tab precedes the end of the line), the trimmed description and
    the trimmed reading (none when no second tab precedes the end of the
    line). *)
Definition line_shortname (readbuf : string) : option string :=
  let eoln := std_find_if is_eoln readbuf 0 1024 in
  let split := std_find readbuf 0 eoln TAB in
  if (eoln =? split)%nat then None else Some (substring 0 split readbuf).

Definition line_description `{E : Externals} (readbuf : string) : string :=
  let eoln := std_find_if is_eoln readbuf 0 1024 in
  let split := std_find readbuf 0 eoln TAB in
  let descstart := S split in
  let descend := std_find readbuf descstart eoln TAB in
  strtrimspace (substring descstart (descend - descstart) readbuf).

Definition line_reading `{E : Externals} (readbuf : string) : option string :=
  let eoln := std_find_if is_eoln readbuf 0 1024 in
  let split := std_find readbuf 0 eoln TAB in
  let descend := std_find readbuf (S split) eoln TAB in
  if (eoln =? descend)%nat then None
  else
    let readstart := S descend in
    let readend := std_find readbuf readstart eoln TAB in
    Some (strtrimspace (substring readstart (readend - readstart) readbuf)).

(** What the reading of a line stores in the record it names. *)
Definition with_reading `{E : Externals} (reading : string) (f : ui_system_info) : ui_system_info :=
  set_ucs_manufacturer_reading_description
    (ucs_normalize (drv.manufacturer (driver f) ++ " " ++ reading)%string)
    (set_ucs_reading_description (ucs_normalize reading)
       (set_reading_description (wstring_from_utf8 reading) f)).


(** An overlay line: its fields joined by tabs and ended by a line feed. *)
Fixpoint overlay_line (fields : list string) : string :=
  match fields with
  | [] => String LF EmptyString
  | [f] => (f ++ String LF EmptyString)%string
  | f :: fields' => (f ++ String TAB (overlay_line fields'))%string
  end.

Definition yomi_line : string := overlay_line ["alpha"; ""; "Yomi"].

(** The table [driver_list] promises: the placeholder is in it and no two
    drivers share a short name. *)
Definition catalog_wf (cat : catalog) : Prop :=
  (empty_index cat < driver_list.total cat)%nat
  /\ NoDup (map drv.name (s_drivers_sorted cat)).

(** The members of an entry that [compare_systems] reads. *)
Definition sort_key (info : ui_system_info)
    : game_driver * bool * string * string * wstring * wstring :=
  (driver info, is_clone info, description info, parent info,
   reading_description info, reading_parent info).

(** The members the build leaves alone once an entry is in the list. *)
Definition same_system (a b : ui_system_info) : Prop :=
  sort_key a = sort_key b /\ index a = index b.

(** The mask once [do_cache_data] has made its first [k] notifications. *)
Definition published (k : nat) : Z :=
  fold_left Z.lor (take k pipeline_order) AVAIL_NONE.

(** A whole build as the session sees it: the call of [cache_data] and the
    thread running through every stage. *)
Definition build_events (options : ui_options) : list event :=
  Call_cache_data options :: repeat Thread_runs stages.

(** What ties the members of the cache together while it is in use. *)
Definition consistent (s : persistent_data) : Prop :=
  match m_thread s with
  | Some t =>
      m_started s = true /\ (progress t <= stages)%nat
      /\ m_available s = published (progress t)
  | None => m_started s = false /\ m_available s = AVAIL_NONE
  end.

(** A recorded comparison is well made: it was made on a non-zero score,
    and it left the distance to the short name, or for any later field the
    lower of that field's distance and the score before. *)
Definition comparison_ok `{E : Externals} (ucs_search : u32string) (sys : ui_system_info)
    (c : compared) : Prop :=
  let '(f, before, after) := c in
  nonzero before = true
  /\ after = match f with
             | Shortname => edit_distance ucs_search (ucs_shortname sys)
             | _ => std_min (edit_distance ucs_search (field_text f sys)) before
             end.

(** The comparisons follow one another: each starts from the score the
    previous one left, the first from [start], and the last leaves [final]. *)
Fixpoint chained (start : Q) (trace : list compared) (final : Q) : Prop :=
  match trace with
  | [] => final = start
  | (_, before, after) :: trace' => before = start /\ chained after trace' final
  end.

(** The entries of a search list with their scores recomputed, in the
    order they are in. *)
Definition rescored `{E : Externals} (pd : persistent_data) (m : menu_select_game)
    (searchlist : list (Q * nat)) : list (Q * nat) :=
  map (fun info =>
         (score_ref pd (check_available pd (m_searched_fields m))
            (ucs_normalize (m_search m)) (snd info), snd info))
    searchlist.

(** What holds of the score and the record of comparisons at every point
    of the loop body. *)
Definition traced `{E : Externals} (ucs_search : u32string) (sys : ui_system_info)
    (st : Q * list compared) : Prop :=
  chained 1%Q (snd st) (fst st) /\ Forall (comparison_ok ucs_search sys) (snd st).

(** ** Vocabulary of the further properties *)

(** The element [populate_list] leaves for position [x] of the table, member
    by member. *)
Definition populated_entry `{E : Externals} (cat : catalog) (copydesc : bool) (x : nat)
    : ui_system_info :=
  let d := driver_list.driver cat (Z.of_nat x) in
  let listed := negb (x =? empty_index cat)%nat in
  let parentindex := driver_list.find cat (drv.parent d) in
  {| driver := d; index := Z.of_nat x;
     is_clone :=
       listed && has_parent d && (0 <=? parentindex)%Z
       && negb (is_bios_root (driver_list.driver cat parentindex));
     available := false;
     description := if listed && copydesc then drv.fullname d else "";
     parent :=
       if listed && has_parent d && copydesc then
         if (0 <=? parentindex)%Z then drv.fullname (driver_list.driver cat parentindex)
         else drv.parent d
       else "";
     reading_description := []; reading_parent := [];
     ucs_shortname := []; ucs_description := []; ucs_reading_description := [];
     ucs_manufacturer_description := []; ucs_manufacturer_reading_description := [];
     ucs_default_description := []; ucs_manufacturer_default_description := [] |}.

(** The systems of the table that are BIOS roots, the placeholder left out. *)
Definition bios_roots `{E : Externals} (cat : catalog) : list nat :=
  List.filter
    (fun x => negb (x =? empty_index cat)%nat
              && is_bios_root (driver_list.driver cat (Z.of_nat x)))
    (seq 0 (driver_list.total cat)).

(** The table is in ascending order of short names. *)
Definition catalog_sorted (cat : catalog) : Prop :=
  StronglySorted (fun a b => String.ltb (drv.name a) (drv.name b) = true)
    (s_drivers_sorted cat).

(** The clone status [get_icon_texture] computes for a driver (and
    [populate] for a favourite that starts empty):
    [bool cloneof = strcmp(driver->parent, "0");] cleared when the parent is
    found and is a BIOS root. *)
Definition cloneof `{E : Externals} (cat : catalog) (d : game_driver) : bool :=
  let cloneof := negb (drv.parent d =? "0")%string in
  if cloneof then
    let cx := driver_list.find cat (drv.parent d) in
    if (cx >=? 0)%Z && is_bios_root (driver_list.driver cat cx) then false else cloneof
  else cloneof.

(** A string C can hold: no character of it is the terminator. *)
Fixpoint c_string (s : string) : Prop :=
  match s with
  | EmptyString => True
  | String c s' => c <> NUL /\ c_string s'
  end.

(** The record a line leaves when it names [record]: the description is
    taken only if the record has none and the line has one, the reading
    whenever the line has one. *)
Definition titled `{E : Externals} (record : ui_system_info) (readbuf : string)
    : ui_system_info :=
  let f :=
    if str_empty (line_description readbuf) then record
    else if negb (str_empty (description record)) then record
    else set_description (line_description readbuf) record in
  match line_reading readbuf with
  | None => f
  | Some reading => if str_empty reading then f else with_reading reading f
  end.

(** [b] is what the title loader may turn [a] into: only the description
    and the three members holding the reading may differ, and a description
    that is not empty stays. *)
Definition title_update (a b : ui_system_info) : Prop :=
  driver b = driver a /\ index b = index a /\ is_clone b = is_clone a
  /\ available b = available a /\ parent b = parent a
  /\ reading_parent b = reading_parent a
  /\ ucs_shortname b = ucs_shortname a /\ ucs_description b = ucs_description a
  /\ ucs_manufacturer_description b = ucs_manufacturer_description a
  /\ ucs_default_description b = ucs_default_description a
  /\ ucs_manufacturer_default_description b = ucs_manufacturer_default_description a
  /\ (str_empty (description a) = false -> description b = description a).

(** Whether a line gives the system called [name] a description, and the
    description the first such line of a file gives. *)
Definition describes `{E : Externals} (name : string) (readbuf : string) : bool :=
  match line_shortname readbuf with
  | Some shortname => (shortname =? name)%string && negb (str_empty (line_description readbuf))
  | None => false
  end.

Definition overlay_description `{E : Externals} (name : string) (file : list string)
    : option string :=
  option_map line_description (List.find (describes name) file).

(** Whether a line gives the system called [name] a reading, and the
    reading the last such line of a file gives. *)
Definition reads `{E : Externals} (name : string) (readbuf : string) : bool :=
  match line_shortname readbuf, line_reading readbuf with
  | Some shortname, Some reading => (shortname =? name)%string && negb (str_empty reading)
  | _, _ => false
  end.

Definition overlay_reading `{E : Externals} (name : string) (file : list string)
    : option string :=
  match List.find (reads name) (rev file) with
  | Some readbuf => line_reading readbuf
  | None => None
  end.

(** Whether a line names the system called [name]. *)
Definition names (name : string) (readbuf : string) : bool :=
  match line_shortname readbuf with
  | Some shortname => (shortname =? name)%string
  | None => false
  end.

(** An overlay file that names "alpha" twice and a system the table does
    not have. *)
Definition deluxe_file : list string :=
  [overlay_line ["alpha"; "Alpha Deluxe"; "Arufa"];
   overlay_line ["alpha"; "Alpha Again"; "Yomi"];
   overlay_line ["nosuch"; "Nothing"]].

(** What allows a field to be compared: its stage among the searched
    fields, and for the optional texts that the entry has one. *)
Definition comparison_allowed (fields : Z) (sys : ui_system_info) (c : compared) : Prop :=
  match fst (fst c) with
  | Shortname => searched fields AVAIL_UCS_SHORTNAME = true
  | Reading | Manufacturer_reading => vec_empty (ucs_reading_description sys) = false
  | Description => searched fields AVAIL_UCS_DESCRIPTION = true
  | Manufacturer_description => searched fields AVAIL_UCS_MANUF_DESC = true
  | Default_description =>
      searched fields AVAIL_UCS_DFLT_DESC = true
      /\ vec_empty (ucs_default_description sys) = false
  | Manufacturer_default_description =>
      searched fields AVAIL_UCS_DFLT_DESC = true
      /\ searched fields AVAIL_UCS_MANUF_DFLT_DESC = true
      /\ vec_empty (ucs_default_description sys) = false
  end.

(** The score is the least of the distances compared so far: not above any
    of them, equal to one of them unless it is still the initial 1.0, and
    not above 1.0 unless the short name was compared. *)
Definition least_distance `{E : Externals} (fields : Z) (ucs_search : u32string)
    (sys : ui_system_info) (st : Q * list compared) : Prop :=
  Forall (fun c => (fst st <= edit_distance ucs_search (field_text (fst (fst c)) sys))%Q)
    (snd st)
  /\ ((fst st == 1)%Q
      \/ Exists (fun c => (fst st == edit_distance ucs_search (field_text (fst (fst c)) sys))%Q)
           (snd st))
  /\ (searched fields AVAIL_UCS_SHORTNAME = false -> (fst st <= 1)%Q).

(** ** change_info_pane *)

(** Conversions of C++ integers: [unsigned(x)], [int(u)] and the store into
    a [uint8_t]. *)
Definition to_unsigned (x : Z) : Z := x mod 2 ^ 32.
Definition to_int (u : Z) : Z := if (u <? 2 ^ 31)%Z then u else (u - 2 ^ 32)%Z.
Definition to_uint8 (x : Z) : Z := x mod 2 ^ 8.

(** The lambda [cap_delta] of [change_info_pane]: [delta] is the captured
    [int], [current] and [total] the two [uint8_t] it is called on; the
    result is the new [delta], the new [current] and [m_topline_datsview].
    [-delta] is computed as an [int] (the source negates [INT_MIN] only by
    undefined behaviour), [current + unsigned(delta)] as an [unsigned] and
    [total - current - 1] as an [int]. *)
Definition cap_delta (delta current total topline : Z) : Z * Z * Z :=
  let delta :=
    if (0 >? delta)%Z && (- delta >? current)%Z then
      (- to_int (to_unsigned current))%Z
    else if (0 <? delta)%Z
            && (to_unsigned (to_unsigned current + to_unsigned delta)
                >=? to_unsigned total)%Z then
      to_int (to_unsigned (total - current - 1))
    else delta in
  if negb (delta =? 0)%Z then (delta, to_uint8 (current + delta), 0%Z)
  else (delta, current, topline).

(** The globals and the member [change_info_pane] works on. *)
Record info_pane := {
  curdats_view : Z;
  curdats_total : Z;
  cur_sw_dats_view : Z;
  cur_sw_dats_total : Z;
  m_topline_datsview : Z
}.

(** [change_info_pane(delta)]: [selected] is the value of the selected
    item's reference as a [uintptr_t], [startempty] the member of the
    favourite it points at when the favourites are shown. *)
Definition change_info_pane (delta : Z) (m_populated_favorites : bool) (selected : Z)
    (skip_main_items : Z) (startempty : Z) (p : info_pane) : info_pane :=
  if negb m_populated_favorites then
    if (selected >? skip_main_items)%Z then
      let '(_, current, topline) :=
        cap_delta delta (curdats_view p) (curdats_total p) (m_topline_datsview p) in
      {| curdats_view := current; curdats_total := curdats_total p;
         cur_sw_dats_view := cur_sw_dats_view p; cur_sw_dats_total := cur_sw_dats_total p;
         m_topline_datsview := topline |}
    else p
  else if (selected >? skip_main_items)%Z then
    if negb (startempty =? 0)%Z then
      let '(_, current, topline) :=
        cap_delta delta (curdats_view p) (curdats_total p) (m_topline_datsview p) in
      {| curdats_view := current; curdats_total := curdats_total p;
         cur_sw_dats_view := cur_sw_dats_view p; cur_sw_dats_total := cur_sw_dats_total p;
         m_topline_datsview := topline |}
    else
      let '(_, current, topline) :=
        cap_delta delta (cur_sw_dats_view p) (cur_sw_dats_total p) (m_topline_datsview p) in
      {| curdats_view := curdats_view p; curdats_total := curdats_total p;
         cur_sw_dats_view := current; cur_sw_dats_total := cur_sw_dats_total p;
         m_topline_datsview := topline |}
  else p.

(** Both views are inside their ranges. *)
Definition views_in_range (p : info_pane) : Prop :=
  (0 <= curdats_view p < curdats_total p)%Z /\ (curdats_total p <= 255)%Z
  /\ (0 <= cur_sw_dats_view p < cur_sw_dats_total p)%Z /\ (cur_sw_dats_total p <= 255)%Z.

(** ** populate: the list of systems shown *)

(** What [item_append] is given for a system: the text, whether
    [FLAG_INVERT] is set, and the reference. *)
Record menu_item := {
  item_text : string;
  item_inverted : bool;
  item_ref : nat
}.

(** What the systems branch of [populate] leaves behind: the menu's
    members, [m_displaylist] (references into the sorted list, as positions),
    the items appended by the loop over it and [old_item_selected]. *)
Record populated := {
  populated_menu : menu_select_game;
  m_displaylist : list nat;
  menu_items : list menu_item;
  old_item_selected : Z
}.

Inductive populate_result :=
| Favorites
| Systems (p : populated).

Section Populate.
Context `{E : Externals}.

(** The constant of selmenu.h, the two queries of [machine_filter_data] and
    the two overloads of [machine_filter::apply] are not defined in
    selgame.cpp: a filter is given by the predicate [apply(info)] and by the
    range overload [apply(first, last, dest)], here a function from the
    sorted list to the references it copies. *)
Variable MAX_VISIBLE_SEARCH : nat.
Record machine_filter := {
  apply : ui_system_info -> bool;
  apply_range : list ui_system_info -> list nat
}.
Variable is_favorite_filter : machine_filter_data -> bool.
Variable get_current_filter : machine_filter_data -> option machine_filter.
Variable reselect_last_driver : string.

(** [flt->apply(it->second)]; a reference to an element the vector no
    longer has is not given a meaning by the source and is rejected here. *)
Definition apply_ref (sorted : list ui_system_info) (flt : machine_filter) (ref : nat) : bool :=
  match sorted !! ref with
  | Some info => apply flt info
  | None => false
  end.

(** The loop of lines 781-785 over [m_searchlist] from [it]. *)
Fixpoint search_filtered (sorted : list ui_system_info) (flt : machine_filter)
    (it : list (Q * nat)) (displaylist : list nat) : list nat :=
  match it with
  | [] => displaylist
  | entry :: rest =>
      if (length displaylist <? MAX_VISIBLE_SEARCH)%nat then
        search_filtered sorted flt rest
          (if apply_ref sorted flt (snd entry) then displaylist ++ [snd entry]
           else displaylist)
      else displaylist
  end.

(** The [std::transform] of lines 789-793. *)
Definition search_unfiltered (searchlist : list (Q * nat)) : list nat :=
  map snd (take (Nat.min (length searchlist) MAX_VISIBLE_SEARCH) searchlist).

(** The body of the loop over [m_displaylist]: the state is the items
    appended so far, [old_item_selected] and [curitem].  A reference to an
    element the vector no longer has adds nothing here. *)
Definition append_system (sorted : list ui_system_info) (st : list menu_item * Z * Z)
    (ref : nat) : list menu_item * Z * Z :=
  let '(items, old, curitem) := st in
  match sorted !! ref with
  | Some elem =>
      let old :=
        if (old =? -1)%Z && String.eqb (drv.name (driver elem)) reselect_last_driver
        then curitem else old in
      (items ++ [{| item_text := description elem; item_inverted := is_clone elem;
                    item_ref := ref |}],
       old, (curitem + 1)%Z)
  | None => st
  end.

(** [populate], up to the end of the loop over [m_displaylist]; [None]
    while one of the cache's accessors is blocked.  The favourites branch
    works on the favourites manager and is left out. *)
Definition populate (pd : persistent_data) (m : menu_select_game) : option populate_result :=
  match filter_data pd with
  | None => None
  | Some data =>
      if negb (is_favorite_filter data) then
        let flt := get_current_filter data in
        let after_search :=
          if negb (str_empty (m_search m)) then
            match populate_search pd m with
            | None => None
            | Some m =>
                Some (m,
                      match flt with
                      | Some flt => search_filtered (m_sorted_list pd) flt (m_searchlist m) []
                      | None => search_unfiltered (m_searchlist m)
                      end)
            end
          else
            match sorted_list pd with
            | None => None
            | Some sorted =>
                Some (m,
                      match flt with
                      | None => seq 0 (length sorted)
                      | Some flt => apply_range flt sorted
                      end)
            end in
        match after_search with
        | None => None
        | Some (m, displaylist) =>
            let '(items, old, _) :=
              fold_left (append_system (m_sorted_list pd)) displaylist ([], (-1)%Z, 0%Z) in
            Some (Systems {| populated_menu := m; m_displaylist := displaylist;
                             menu_items := items; old_item_selected := old |})
        end
      else Some Favorites
  end.

End Populate.

(** The item of an entry of the sorted list. *)
Definition system_item (sorted : list ui_system_info) (ref : nat) : option menu_item :=
  match sorted !! ref with
  | Some elem => Some {| item_text := description elem; item_inverted := is_clone elem;
                         item_ref := ref |}
  | None => None
  end.

(** The references a filter lets through, [None] being no filter. *)
Definition accepted (sorted : list ui_system_info) (flt : option machine_filter)
    (ref : nat) : bool :=
  match flt with
  | Some flt => apply_ref sorted flt ref
  | None => true
  end.

(** [ref] points at the system named [name]. *)
Definition refers_to (sorted : list ui_system_info) (name : string) (ref : nat) : bool :=
  match sorted !! ref with
  | Some elem => String.eqb (drv.name (driver elem)) name
  | None => false
  end.

(** A filter that shows parents only, and what [populate] leaves for the
    three systems of [alpha_cache] without a search text and without a
    filter when the remembered driver is beta. *)
Definition parents_only : machine_filter :=
  {| apply := fun info => negb (is_clone info);
     apply_range := fun sorted =>
       List.filter (fun ref => match sorted !! ref with
                               | Some info => negb (is_clone info)
                               | None => false
                               end) (seq 0 (length sorted)) |}.

Definition alpha_shown : populated :=
  {| populated_menu := new_menu "";
     m_displaylist := [0; 1; 2];
     menu_items :=
       [{| item_text := "Alpha"; item_inverted := false; item_ref := 0 |};
        {| item_text := "Alpha Two"; item_inverted := true; item_ref := 1 |};
        {| item_text := "Beta"; item_inverted := false; item_ref := 2 |}];
     old_item_selected := 2 |}.

(** ** load_available_machines *)

(** A [std::unordered_set<std::string>], as the list of its elements. *)
Definition set_find (x : string) (s : list string) : bool := existsb (String.eqb x) s.
Definition set_emplace (x : string) (s : list string) : list string :=
  if set_find x s then s else x :: s.
Definition set_erase (x : string) (s : list string) : list string :=
  List.filter (fun y => negb (String.eqb x y)) s.

(** [file.gets(rbuf, MAX_CHAR_INFO)] on the lines left in the file: at the
    end of the file the buffer is left as it was. *)
Definition gets (file : list string) (rbuf : string) : list string * string :=
  match file with
  | [] => ([], rbuf)
  | line :: rest => (rest, line)
  end.

Section Available.
Context `{E : Externals}.

(** [chartrimcarriage] of corestr.h and the version string
    [UI_VERSION_TAG bare_build_version]. *)
Variable chartrimcarriage : string -> string.
Variable a_rev : string.

(** The loop that reads the names, on the lines still to be read. *)
Fixpoint read_available (file : list string) (available : list string) : list string :=
  match file with
  | [] => available
  | rbuf :: rest =>
      let readbuf := strtrimspace rbuf in
      if str_empty readbuf || (char_at readbuf 0 =? "#")%char then
        read_available rest available
      else if (char_at readbuf 0 =? "[")%char then available
      else read_available rest (set_emplace readbuf available)
  end.

(** The body of the loop over the sorted list: the state is the set and
    the elements already written. *)
Definition mark_listed (st : list string * list ui_system_info) (info : ui_system_info)
    : list string * list ui_system_info :=
  let '(available, done) := st in
  let found := set_find (drv.name (driver info)) available in
  (if found then set_erase (drv.name (driver info)) available else available,
   done ++ [set_available found info]).

(** [load_available_machines]: [file] is [None] when the file cannot be
    opened, else the lines [gets] returns; [rbuf] is what the uninitialised
    buffer holds.  The result is [None] while [sorted_list()] is blocked,
    else the value returned and the cache. *)
Definition load_available_machines (file : option (list string)) (rbuf : string)
    (pd : persistent_data) : option (bool * persistent_data) :=
  match file with
  | None => Some (false, pd)
  | Some file =>
      let '(file, rbuf) := gets file rbuf in
      let '(file, rbuf) := gets file rbuf in
      let readbuf := chartrimcarriage rbuf in
      if negb (a_rev =? readbuf)%string then Some (false, pd)
      else
        let available := read_available file [] in
        match sorted_list pd with
        | None => None
        | Some sorted =>
            let '(_, sorted) := fold_left mark_listed sorted (available, []) in
            Some (true, with_sorted_list sorted pd)
        end
  end.

(** A line that is a section heading once trimmed. *)
Definition heading (rbuf : string) : Prop := char_at (strtrimspace rbuf) 0 = "["%char.

(** [name] is listed by the lines that follow the version line: some line
    trims to it, it is not empty, not a comment and not a heading, and no
    heading comes before that line. *)
Definition listed (file : list string) (name : string) : Prop :=
  exists i rbuf,
    file !! i = Some rbuf
    /\ strtrimspace rbuf = name
    /\ str_empty name = false
    /\ char_at name 0 <> "#"%char
    /\ char_at name 0 <> "["%char
    /\ forall j rbuf', j < i -> file !! j = Some rbuf' -> ~ heading rbuf'.

End Available.

(** The line the version is read from: the second one, or what the
    buffer holds after two calls of [gets] on a shorter file. *)
Definition version_line (file : list string) (rbuf : string) : string :=
  snd (gets (fst (gets file rbuf)) (snd (gets file rbuf))).

(** An availability file for the systems of [alpha_cache]: the name after
    the section heading is not read. *)
Definition alpha_avail : list string :=
  ["#"; "1.0 0.230"; "  alpha2  "; "# a comment"; ""; "[FOLDER]"; "beta"].

(** ** build_available_list *)

Module rom.
(** Modelled from the spec: [tiny_rom_entry] is declared in romentry.h,
    outside this excerpt; these are the members selgame.cpp reads, [flags]
    through the macros [ROMENTRY_ISFILE] and [ROM_ISOPTIONAL]. *)
Record tiny_rom_entry := {
  hashdata : string;
  length : Z;
  flags : Z
}.
End rom.
Abbreviation tiny_rom_entry := rom.tiny_rom_entry.

(** [std::strchr(s, ch)] used as a condition, on a NUL-terminated string. *)
Fixpoint strchr (s : string) (ch : ascii) : bool :=
  match s with
  | EmptyString => false
  | String c rest =>
      if (c =? ch)%char then true
      else if (c =? NUL)%char then false
      else strchr rest ch
  end.

Section BuildAvailable.
Variable cat : catalog.

(** What the function takes from elsewhere: [tolower] of <cctype>, the two
    macros of romentry.h, the comparison of two [util::hash_collection]
    built from hash data, and the member [rom] of the driver at a position
    of the table, as the address of the array and its entries before the
    end marker. *)
Variable tolower : ascii -> ascii.
Variable ROMENTRY_ISFILE : tiny_rom_entry -> bool.
Variable ROM_ISOPTIONAL : tiny_rom_entry -> bool.
Variable hashes_equal : string -> string -> bool.
Variable driver_rom : nat -> Z * list tiny_rom_entry.

(** Modelled from the spec: [driver_list::clone] lives in drivenum.h,
    outside this excerpt; it is the index of the parent, [find(driver.parent)]. *)
Definition driver_list_clone (x : nat) : Z :=
  driver_list.find cat (drv.parent (driver_list.driver cat (Z.of_nat x))).

(** The loop that builds [drivername] from [dir->name], with [room] bytes
    left before [&drivername[49]]. *)
Fixpoint build_drivername (src : string) (room : nat) : string :=
  match src with
  | EmptyString => EmptyString
  | String c rest =>
      if negb (c =? NUL)%char && negb (c =? ".")%char then
        match room with
        | O => EmptyString
        | S room' => String (tolower c) (build_drivername rest room')
        end
      else EmptyString
  end.

Definition drivername (src : string) : string := build_drivername src 49.

(** The loop over the ROM directories. *)
Definition scan_entry (included : list bool) (name : string) : list bool :=
  let drivnum := driver_list.find cat (drivername name) in
  if (0 <=? drivnum)%Z then <[Z.to_nat drivnum := true]> included else included.

Definition scan_directories (entries : list string) (included : list bool) : list bool :=
  fold_left scan_entry entries included.

Definition is_required_rom (r : tiny_rom_entry) : bool :=
  ROMENTRY_ISFILE r && negb (ROM_ISOPTIONAL r) && negb (strchr (rom.hashdata r) "!").

(** The first loop over [driver.rom]: the array from the entry the loop
    breaks at, empty when it runs to the end marker ([noroms] still true). *)
Fixpoint first_required (rom : list tiny_rom_entry) : list tiny_rom_entry :=
  match rom with
  | [] => []
  | r :: rest => if is_required_rom r then rom else first_required rest
  end.

(** The loop over [parent.rom], which stops once [found] is set. *)
Fixpoint found_in_parent (r : tiny_rom_entry) (parentrom : list tiny_rom_entry) : bool :=
  match parentrom with
  | [] => false
  | p :: rest =>
      if is_required_rom p && (rom.length r =? rom.length p)%Z
         && hashes_equal (rom.hashdata r) (rom.hashdata p)
      then true
      else found_in_parent r rest
  end.

(** The loop [for ( ; noroms && !ROMENTRY_ISEND(rom); ++rom)], entered with
    [noroms] true: the final [noroms]. *)
Fixpoint clone_within_parent (rom parentrom : list tiny_rom_entry) : bool :=
  match rom with
  | [] => true
  | r :: rest =>
      let noroms := if is_required_rom r then found_in_parent r parentrom else true in
      if noroms then clone_within_parent rest parentrom else false
  end.

(** The body of the loop over [x]. *)
Definition romless_step (included : list bool) (x : nat) : list bool :=
  if negb (nth x included false) && negb (x =? empty_index cat)%nat then
    let rom := first_required (snd (driver_rom x)) in
    let noroms := vec_empty rom in
    let noroms :=
      if negb noroms then
        let cx := driver_list_clone x in
        if (0 <=? cx)%Z && nth (Z.to_nat cx) included false then
          if (fst (driver_rom x) =? fst (driver_rom (Z.to_nat cx)))%Z then true
          else clone_within_parent rom (snd (driver_rom (Z.to_nat cx)))
        else noroms
      else noroms in
    if noroms then <[x := true]> included else included
  else included.

(** The vector [included] before it is copied. *)
Definition included_systems (hide_romless : bool) (entries : list string) : list bool :=
  let total := driver_list.total cat in
  let included := replicate total false in
  let included := scan_directories entries included in
  if negb hide_romless then fold_left romless_step (seq 0 total) included
  else included.

(** [build_available_list]: [entries] are the names the enumerator of the
    media path returns; [None] while [sorted_list()] is blocked. *)
Definition build_available_list (hide_romless : bool) (entries : list string)
    (pd : persistent_data) : option persistent_data :=
  let included := included_systems hide_romless entries in
  match sorted_list pd with
  | Some sorted =>
      Some (with_sorted_list
              (map (fun info => set_available (nth (Z.to_nat (index info)) included false) info)
                 sorted) pd)
  | None => None
  end.

(** Whether the parent lets a system with required ROMs through: it is in
    the table and marked in [seen], and shares the ROM array or has every
    required ROM of the system. *)
Definition parent_allows (x : nat) (seen : list bool) : bool :=
  let cx := driver_list_clone x in
  (0 <=? cx)%Z && nth (Z.to_nat cx) seen false
  && ((fst (driver_rom x) =? fst (driver_rom (Z.to_nat cx)))%Z
      || clone_within_parent (first_required (snd (driver_rom x)))
           (snd (driver_rom (Z.to_nat cx)))).

(** The part of a directory entry's name before its first dot. *)
Fixpoint stem (src : string) : string :=
  match src with
  | EmptyString => EmptyString
  | String c rest =>
      if (c =? NUL)%char || (c =? ".")%char then EmptyString else String c (stem rest)
  end.

End BuildAvailable.

Fixpoint string_map (f : ascii -> ascii) (s : string) : string :=
  match s with
  | EmptyString => EmptyString
  | String c rest => String (f c) (string_map f rest)
  end.

Fixpoint string_take (n : nat) (s : string) : string :=
  match n, s with
  | S n', String c rest => String c (string_take n' rest)
  | _, _ => EmptyString
  end.

(** A system list all of whose entries carry their position in the table
    and the driver found there, as [populate_list] builds them. *)
Definition indexed_by (cat : catalog) (l : list ui_system_info) : Prop :=
  Forall (fun info => (0 <= index info < Z.of_nat (driver_list.total cat))%Z
                      /\ driver info = driver_list.driver cat (index info)) l.

(** ROM tables for the four drivers of [alpha_catalog]: alpha has one
    required ROM, its clone alpha2 the same ROM and an optional one, beta
    none.  Bit 0 of the flags stands for a file entry, bit 1 for an optional
    one. *)
Definition alpha_rom (x : nat) : Z * list tiny_rom_entry :=
  match x with
  | 1 => (100%Z, [{| rom.hashdata := "CRC(1)"; rom.length := 16; rom.flags := 1 |}])
  | 2 => (200%Z, [{| rom.hashdata := "CRC(2)"; rom.length := 8; rom.flags := 3 |};
                  {| rom.hashdata := "CRC(1)"; rom.length := 16; rom.flags := 1 |}])
  | _ => (Z.of_nat x, [])
  end.

Definition file_bit (r : tiny_rom_entry) : bool := Z.testbit (rom.flags r) 0.
Definition optional_bit (r : tiny_rom_entry) : bool := Z.testbit (rom.flags r) 1.

(** ** The constructor's reading of the last used filter *)

(** [tmp.find_first_of(ch)], [None] standing for [npos]. *)
Fixpoint find_first_of (s : string) (ch : ascii) : option nat :=
  match s with
  | EmptyString => None
  | String c rest =>
      if (c =? ch)%char then Some 0
      else match find_first_of rest ch with
           | Some found => Some (S found)
           | None => None
           end
  end.

(** [tmp.substr(pos)] for [pos] not past the end. *)
Fixpoint substr (s : string) (pos : nat) {struct pos} : string :=
  match pos, s with
  | S pos', String _ rest => substr rest pos'
  | _, _ => s
  end.

(** The byte order mark U+FEFF in UTF-8. *)
Definition BOM : string :=
  String "239"%char (String "187"%char (String "191"%char EmptyString)).

(** The text the constructor hands to [load_ini], from
    [moptions.last_used_filter()]. *)
Definition fake_ini (last_used_filter : string) : string :=
  let tmp := last_used_filter in
  match find_first_of tmp "," with
  | None => (BOM ++ tmp ++ " = 1" ++ String LF EmptyString)%string
  | Some found =>
      let sub_filter := substr tmp (found + 1) in
      let tmp := string_take found tmp in
      (BOM ++ tmp ++ " = " ++ sub_filter ++ String LF EmptyString)%string
  end.

(** ** The filter keys of handle *)

Inductive ui_key :=
| IPT_UI_UP
| IPT_UI_DOWN
| IPT_UI_HOME
| IPT_UI_END.

(** The four cases of the switch of [handle] that move the highlighted
    filter: [FIRST] and [LAST] are the enumerators of [machine_filter],
    [focus_left] is [get_focus() == focused_menu::LEFT]. *)
Definition filter_key (FIRST LAST : Z) (focus_left : bool) (iptkey : ui_key)
    (m_filter_highlight : Z) : Z :=
  match iptkey with
  | IPT_UI_UP =>
      if focus_left && (FIRST <? m_filter_highlight)%Z then (m_filter_highlight - 1)%Z
      else m_filter_highlight
  | IPT_UI_DOWN =>
      if focus_left && (LAST >? m_filter_highlight)%Z then (m_filter_highlight + 1)%Z
      else m_filter_highlight
  | IPT_UI_HOME => if focus_left then FIRST else m_filter_highlight
  | IPT_UI_END => if focus_left then LAST else m_filter_highlight
  end.

(** ** An overlay file without lines *)

(** Every parent named in the table is in the table. *)
Definition parents_listed (cat : catalog) : Prop :=
  forall d, In d (s_drivers_sorted cat) -> has_parent d = true ->
    exists p, In p (s_drivers_sorted cat) /\ drv.name p = drv.parent d.

(** The members a stage has besides the list. *)
Definition without_list (s : persistent_data) : persistent_data := with_sorted_list [] s.

(** The description is the driver's full name. *)
Definition untranslated (info : ui_system_info) : Prop :=
  description info = drv.fullname (driver info).

(** The services of [plain_text] with an overlay file that opens and
    holds no line. *)
Definition blank_overlay : Externals :=
  {| wstring_from_utf8 := wstring_from_utf8 (Externals := plain_text);
     ustr_from_utf8 := ustr_from_utf8 (Externals := plain_text);
     normalize_unicode := normalize_unicode (Externals := plain_text);
     strtrimspace := strtrimspace (Externals := plain_text);
     edit_distance := edit_distance (Externals := plain_text);
     coll_compare := coll_compare (Externals := plain_text);
     IS_BIOS_ROOT := IS_BIOS_ROOT (Externals := plain_text);
     open_titles := fun _ _ => Some [] |}.

(** ** Vocabulary of the clone-aware order *)






(* ================================================================== *)
(** * Properties *)
(** ** Sorting *)

Section StableSort.
Context {A : Type} (comp : A -> A -> bool).

Lemma stable_insert_perm (x : A) (l : list A) :
  Permutation (stable_insert comp x l) (x :: l).
Proof.
  induction l as [|y l IH]; simpl; [reflexivity|].
  destruct (comp y x); [|reflexivity].
  rewrite IH. apply perm_swap.
Qed.

Lemma stable_sort_perm (l : list A) : Permutation (stable_sort comp l) l.
Proof.
  induction l as [|x l IH]; simpl; [reflexivity|].
  rewrite stable_insert_perm. now constructor.
Qed.

Lemma stable_sort_length (l : list A) : length (stable_sort comp l) = length l.
Proof. apply Permutation_length, stable_sort_perm. Qed.

(** Whatever [comp] is, as long as it never orders a pair both ways, no
    element of the result is followed by one that [comp] puts before it. *)
Lemma stable_insert_adjacent (x : A) (l : list A) :
  (forall a b, comp a b = true -> comp b a = false) ->
  Sorted (fun a b => comp b a = false) l ->
  Sorted (fun a b => comp b a = false) (stable_insert comp x l).
Proof.
  intros Hasym. induction l as [|y l IH]; simpl; intros Hs.
  - repeat constructor.
  - destruct (comp y x) eqn:Hyx.
    + inversion Hs as [|? ? Hl Hhd]; subst. constructor; [now apply IH|].
      destruct l as [|z l]; simpl.
      * constructor. now apply Hasym.
      * destruct (comp z x); constructor.
        -- now inversion Hhd.
        -- now apply Hasym.
    + constructor; [assumption|]. now constructor.
Qed.

Lemma stable_sort_adjacent (l : list A) :
  (forall a b, comp a b = true -> comp b a = false) ->
  Sorted (fun a b => comp b a = false) (stable_sort comp l).
Proof.
  intros Hasym. induction l as [|x l IH]; simpl.
  - constructor.
  - now apply stable_insert_adjacent.
Qed.

Lemma Sorted_lookup (R : A -> A -> Prop) (l : list A) (i : nat) (a b : A) :
  Sorted R l -> l !! i = Some a -> l !! S i = Some b -> R a b.
Proof.
  intros Hs. revert i. induction Hs as [|x l Hs IH Hhd]; intros i Ha Hb.
  - discriminate.
  - destruct i as [|i]; simpl in *.
    + injection Ha as <-. destruct l as [|y l]; [discriminate|].
      simpl in Hb. injection Hb as <-. now inversion Hhd.
    + eapply IH; eassumption.
Qed.

End StableSort.

Lemma Sorted_weaken {A : Type} (R R' : A -> A -> Prop) (l : list A) :
  (forall a b, R a b -> R' a b) -> Sorted R l -> Sorted R' l.
Proof.
  intros Himp Hs. induction Hs as [|x l Hs IH Hhd]; constructor; [assumption|].
  destruct Hhd; constructor. now apply Himp.
Qed.

Lemma Qltb_lt (x y : Q) : Qltb x y = true <-> (x < y)%Q.
Proof.
  unfold Qltb. rewrite negb_true_iff. split.
  - intros H. apply Qnot_le_lt. intros Hle. apply Qle_bool_iff in Hle. congruence.
  - intros H. destruct (Qle_bool y x) eqn:Hle; [|reflexivity].
    apply Qle_bool_iff in Hle. exfalso. now apply (Qlt_not_le x y).
Qed.

Lemma Qltb_ge (x y : Q) : Qltb x y = false <-> (y <= x)%Q.
Proof. unfold Qltb. rewrite negb_false_iff. apply Qle_bool_iff. Qed.

(** Sorting by a rational key: the result is ascending and entries with
    equal keys keep the order they came in. *)
Section SortByKey.
Context {A : Type} (key : A -> Q).

Let key_lt (a b : A) : bool := Qltb (key a) (key b).

Lemma key_lt_asym (a b : A) : key_lt a b = true -> key_lt b a = false.
Proof.
  unfold key_lt. rewrite Qltb_lt, Qltb_ge. apply Qlt_le_weak.
Qed.

Lemma stable_sort_ascending (l : list A) :
  StronglySorted (fun a b => (key a <= key b)%Q) (stable_sort key_lt l).
Proof.
  apply Sorted_StronglySorted.
  - intros a b c Hab Hbc. eapply Qle_trans; eassumption.
  - eapply Sorted_weaken; [|apply stable_sort_adjacent, key_lt_asym].
    intros a b H. now apply Qltb_ge in H.
Qed.

Lemma stable_insert_ties (v : Q) (x : A) (l : list A) :
  filter (fun a => Qeq_bool (key a) v = true) (stable_insert key_lt x l)
  = filter (fun a => Qeq_bool (key a) v = true) (x :: l).
Proof.
  induction l as [|y l IH]; [reflexivity|]. simpl.
  destruct (key_lt y x) eqn:Hyx; [|reflexivity].
  rewrite filter_cons, IH, !filter_cons.
  destruct (decide (Qeq_bool (key y) v = true)) as [Hy|Hy];
    destruct (decide (Qeq_bool (key x) v = true)) as [Hx|Hx]; try reflexivity.
  exfalso. apply Qeq_bool_iff in Hx, Hy. apply Qltb_lt in Hyx.
  rewrite Hx, Hy in Hyx. now apply Qlt_irrefl in Hyx.
Qed.

Lemma stable_sort_ties (v : Q) (l : list A) :
  filter (fun a => Qeq_bool (key a) v = true) (stable_sort key_lt l)
  = filter (fun a => Qeq_bool (key a) v = true) l.
Proof.
  induction l as [|x l IH]; [reflexivity|]. simpl.
  rewrite stable_insert_ties, !filter_cons, IH. reflexivity.
Qed.

End SortByKey.

(** ** Binary search *)

Lemma lower_bound_loop_partition {A B} (comp : A -> B -> bool) (value : B) (l1 l2 : list A) :
  Forall (fun a => comp a value = true) l1 ->
  Forall (fun a => comp a value = false) l2 ->
  forall fuel first len : nat,
    (len <= fuel)%nat ->
    (first <= length l1)%nat ->
    (length l1 <= first + len)%nat ->
    (first + len <= length (l1 ++ l2))%nat ->
    lower_bound_loop comp (l1 ++ l2) value fuel first len = length l1.
Proof.
  intros H1 H2. induction fuel as [|fuel IH]; intros first len Hfuel Hlo Hhi Hlen; simpl.
  - lia.
  - destruct (Nat.eqb_spec len 0) as [->|Hne]; [lia|].
    pose proof (Nat.lt_div2 len ltac:(lia)) as Hhalf.
    set (half := Nat.div2 len) in *. clearbody half.
    destruct ((l1 ++ l2) !! (first + half)%nat) as [m|] eqn:Hm.
    + destruct (Nat.lt_ge_cases (first + half) (length l1)) as [Hin|Hout].
      * rewrite lookup_app_l in Hm by assumption.
        rewrite Forall_lookup in H1. rewrite (H1 _ _ Hm).
        apply IH; lia.
      * rewrite lookup_app_r in Hm by assumption.
        rewrite Forall_lookup in H2. rewrite (H2 _ _ Hm).
        apply IH; lia.
    + apply lookup_ge_None in Hm. lia.
Qed.

Lemma lower_bound_partition {A B} (comp : A -> B -> bool) (value : B) (l1 l2 : list A) :
  Forall (fun a => comp a value = true) l1 ->
  Forall (fun a => comp a value = false) l2 ->
  lower_bound comp (l1 ++ l2) value = length l1.
Proof.
  intros H1 H2. unfold lower_bound.
  apply lower_bound_loop_partition; try assumption; try lia.
  rewrite length_app. lia.
Qed.

(** ** The order of short names *)

Lemma ltb_trans (a b c : string) :
  String.ltb a b = true -> String.ltb b c = true -> String.ltb a c = true.
Proof.
  unfold String.ltb. intros Hab Hbc.
  destruct (String.compare a b) eqn:Eab; try discriminate.
  destruct (String.compare b c) eqn:Ebc; try discriminate.
  apply String_as_OT.cmp_lt in Eab, Ebc.
  pose proof (String_as_OT.lt_trans _ _ _ Eab Ebc) as Hac.
  apply String_as_OT.cmp_lt in Hac. unfold String_as_OT.cmp in Hac. now rewrite Hac.
Qed.

Lemma ltb_irrefl (a : string) : String.ltb a a = false.
Proof.
  unfold String.ltb. destruct (String.compare a a) eqn:Ea; try reflexivity.
  pose proof (String.compare_antisym a a) as H. rewrite Ea in H. discriminate.
Qed.

Lemma sorted_by_shortname_split (l : list ui_system_info) (key : string) :
  sorted_by_shortname l ->
  exists l1 l2, l = (l1 ++ l2)
    /\ Forall (fun a => name_less a key = true) l1
    /\ Forall (fun a => name_less a key = false) l2.
Proof.
  induction 1 as [|a l Hs IH Hall].
  - exists [], []. repeat split; constructor.
  - destruct (name_less a key) eqn:Ha.
    + destruct IH as (l1 & l2 & -> & H1 & H2).
      exists (a :: l1), l2. repeat split; [constructor|]; assumption.
    + exists [], (a :: l). repeat split; [constructor|].
      constructor; [assumption|].
      rewrite Forall_forall in Hall |- *. intros b Hb.
      destruct (name_less b key) eqn:Hbk; [|reflexivity].
      unfold name_less in *. rewrite (ltb_trans _ _ _ (Hall b Hb) Hbk) in Ha. discriminate.
Qed.

(** On a list sorted by short name [lower_bound] returns the number of
    entries whose name is below the key. *)
Lemma lower_bound_sorted (l : list ui_system_info) (key : string) :
  sorted_by_shortname l ->
  let k := lower_bound name_less l key in
  (k <= length l)%nat
  /\ (forall i e, l !! i = Some e -> (i < k)%nat -> name_less e key = true)
  /\ (forall i e, l !! i = Some e -> (k <= i)%nat -> name_less e key = false).
Proof.
  intros Hs. destruct (sorted_by_shortname_split l key Hs) as (l1 & l2 & -> & H1 & H2).
  cbv zeta. rewrite (lower_bound_partition _ _ _ _ H1 H2).
  split; [rewrite length_app; lia|]. split.
  - intros i e He Hi. rewrite lookup_app_l in He by assumption.
    rewrite Forall_lookup in H1. eapply H1; eassumption.
  - intros i e He Hi. rewrite lookup_app_r in He by assumption.
    rewrite Forall_lookup in H2. eapply H2; eassumption.
Qed.

Lemma sorted_by_shortname_lookup (l : list ui_system_info) (i j : nat) (a b : ui_system_info) :
  sorted_by_shortname l -> l !! i = Some a -> l !! j = Some b -> (i < j)%nat ->
  String.ltb (drv.name (driver a)) (drv.name (driver b)) = true.
Proof.
  intros Hs. revert i j. induction Hs as [|x l Hs IH Hall]; intros i j Ha Hb Hij.
  - discriminate.
  - destruct j as [|j]; [lia|]. simpl in Hb. destruct i as [|i]; simpl in Ha.
    + injection Ha as <-. rewrite Forall_forall in Hall. apply Hall.
      eapply list_elem_of_lookup_2; eassumption.
    + eapply IH; try eassumption. lia.
Qed.

(** An entry whose name is the key is the one [lower_bound] finds. *)
Lemma lower_bound_exact (l : list ui_system_info) (key : string) (j : nat) (e : ui_system_info) :
  sorted_by_shortname l -> l !! j = Some e -> drv.name (driver e) = key ->
  lower_bound name_less l key = j.
Proof.
  intros Hs He Hname.
  destruct (lower_bound_sorted l key Hs) as (Hk & Hlt & Hge).
  set (k := lower_bound name_less l key) in *.
  assert (Hej : name_less e key = false) by (unfold name_less; rewrite Hname; apply ltb_irrefl).
  destruct (Nat.lt_trichotomy k j) as [Hkj|[Heq|Hjk]]; [|assumption|].
  - destruct (lookup_lt_is_Some_2 l k) as [f Hf]; [apply lookup_lt_Some in He; lia|].
    pose proof (Hge _ _ Hf (Nat.le_refl k)) as Hfk.
    pose proof (sorted_by_shortname_lookup _ _ _ _ _ Hs Hf He Hkj) as Hfe.
    unfold name_less in Hfk. rewrite Hname in Hfe. congruence.
  - rewrite (Hlt _ _ He Hjk) in Hej. discriminate.
Qed.

(** ** populate_parents *)

Lemma lower_bound_loop_ext {A B} (comp : A -> B -> bool) (value : B) (l l' : list A) :
  (forall i, (fun a => comp a value) <$> l !! i = (fun a => comp a value) <$> l' !! i) ->
  forall fuel first len,
    lower_bound_loop comp l value fuel first len
    = lower_bound_loop comp l' value fuel first len.
Proof.
  intros Hext. induction fuel as [|fuel IH]; intros first len; simpl; [reflexivity|].
  destruct (len =? 0)%nat; [reflexivity|].
  specialize (Hext (first + Nat.div2 len)%nat).
  destruct (l !! (first + Nat.div2 len)%nat) as [m|], (l' !! (first + Nat.div2 len)%nat) as [m'|];
    simpl in Hext; try discriminate; [|reflexivity].
  injection Hext as ->. destruct (comp m' value); apply IH.
Qed.

(** The loop only writes [parent] and [reading_parent], which neither the
    search nor the copied members read: every element ends as
    [populate_parents_entry] computes it from the list the loop started on. *)
Lemma populate_parents_entry_keeps (l : list ui_system_info) (info : ui_system_info) :
  driver (populate_parents_entry l info) = driver info
  /\ description (populate_parents_entry l info) = description info
  /\ reading_description (populate_parents_entry l info) = reading_description info.
Proof.
  unfold populate_parents_entry.
  destruct (has_parent (driver info)); [|auto].
  destruct (l !! _); auto.
Qed.

Lemma populate_parents_prefix (l : list ui_system_info) (n k : nat) :
  (k + n)%nat = length l ->
  fold_left populate_parents_step (seq k n)
    (imap (fun i x => if (i <? k)%nat then populate_parents_entry l x else x) l)
  = map (populate_parents_entry l) l.
Proof.
  revert k. induction n as [|n IH]; intros k Hk; simpl.
  - apply list_eq. intros i. rewrite list_lookup_imap, list_lookup_fmap.
    destruct (l !! i) as [x|] eqn:Hx; [|reflexivity]. simpl.
    apply lookup_lt_Some in Hx.
    destruct (Nat.ltb_spec i k); [reflexivity|lia].
  - rewrite <- (IH (S k)) by lia. f_equal.
    set (st := imap _ l).
    assert (Hst : forall i, st !! i
              = (fun x => if (i <? k)%nat then populate_parents_entry l x else x) <$> l !! i)
      by (intros i; unfold st; apply list_lookup_imap).
    destruct (lookup_lt_is_Some_2 l k ltac:(lia)) as [info Hinfo].
    assert (Hlb : forall key, lower_bound name_less st key = lower_bound name_less l key).
    { intros key. unfold lower_bound.
      replace (length st) with (length l) by (unfold st; now rewrite length_imap).
      apply lower_bound_loop_ext. intros i. rewrite Hst.
      destruct (l !! i) as [x|]; [|reflexivity]. simpl. f_equal.
      destruct (i <? k)%nat; [|reflexivity].
      unfold name_less. now rewrite (proj1 (populate_parents_entry_keeps l x)). }
    unfold populate_parents_step.
    rewrite Hst, Hinfo. simpl. rewrite Nat.ltb_irrefl.
    assert (Hnew : forall v : ui_system_info,
               v = populate_parents_entry l info ->
               <[k := v]> st
               = imap (fun i x => if (i <? S k)%nat then populate_parents_entry l x else x) l).
    { intros v ->. apply list_eq. intros i. rewrite list_lookup_imap.
      destruct (decide (i = k)) as [->|Hne].
      - rewrite list_lookup_insert_eq by (unfold st; rewrite length_imap; lia).
        rewrite Hinfo. simpl. destruct (Nat.ltb_spec k (S k)); [reflexivity|lia].
      - rewrite list_lookup_insert_ne by congruence. rewrite Hst.
        destruct (l !! i) as [x|]; [|reflexivity]. simpl. f_equal.
        destruct (Nat.ltb_spec i k), (Nat.ltb_spec i (S k)); try reflexivity; lia. }
    destruct (has_parent (driver info)) eqn:Hp.
    + rewrite Hlb, Hst.
      destruct (l !! lower_bound name_less l (drv.parent (driver info))) as [f|] eqn:Hf; simpl.
      * apply Hnew. unfold populate_parents_entry at 3. rewrite Hp, Hf.
        destruct (_ <? k)%nat; [|reflexivity].
        destruct (populate_parents_entry_keeps l f) as (_ & -> & ->). reflexivity.
      * apply Hnew. unfold populate_parents_entry. now rewrite Hp, Hf.
    + rewrite <- (Hnew info).
      * symmetry. apply list_insert_id. rewrite Hst, Hinfo. simpl. now rewrite Nat.ltb_irrefl.
      * unfold populate_parents_entry. now rewrite Hp.
Qed.

Lemma populate_parents_map (l : list ui_system_info) :
  populate_parents l = map (populate_parents_entry l) l.
Proof.
  unfold populate_parents. rewrite <- (populate_parents_prefix l (length l) 0) by lia.
  f_equal. apply list_eq. intros i. rewrite list_lookup_imap.
  destruct (l !! i); reflexivity.
Qed.

(** C10.  In [populate_parents], for a record with a non-trivial parent
    field in a list sorted by short name: when an entry has exactly the
    parent's short name, the parent description and reading are copied from
    it; when no entry has it, they are copied from the first entry whose
    short name is not below the parent name, whatever that entry is, and the
    raw parent short name is used only when every short name is below it.
    The position [lower_bound] returns is used without comparing names. *)
Theorem populate_parents_no_exact_match_check
    (l : list ui_system_info) (i : nat) (info : ui_system_info) :
  sorted_by_shortname l ->
  l !! i = Some info ->
  has_parent (driver info) = true ->
  exists info', populate_parents l !! i = Some info'
    /\ (forall j e, l !! j = Some e ->
          drv.name (driver e) = drv.parent (driver info) ->
          info' = set_reading_parent (reading_description e) (set_parent (description e) info))
    /\ ((forall e, e ∈ l -> drv.name (driver e) <> drv.parent (driver info)) ->
        (forall j f, l !! j = Some f ->
           name_less f (drv.parent (driver info)) = false ->
           (forall j' f', l !! j' = Some f' -> (j' < j)%nat ->
              name_less f' (drv.parent (driver info)) = true) ->
           info' = set_reading_parent (reading_description f) (set_parent (description f) info))
        /\ ((forall e, e ∈ l -> name_less e (drv.parent (driver info)) = true) ->
            info' = set_parent (drv.parent (driver info)) info)).
Proof.
  intros Hs Hinfo Hp.
  exists (populate_parents_entry l info). split.
  { rewrite populate_parents_map, list_lookup_fmap, Hinfo. reflexivity. }
  unfold populate_parents_entry. rewrite Hp.
  destruct (lower_bound_sorted l (drv.parent (driver info)) Hs) as (Hk & Hlt & Hge).
  set (k := lower_bound name_less l (drv.parent (driver info))) in *.
  assert (Hfirst : forall j f, l !! j = Some f ->
            name_less f (drv.parent (driver info)) = false ->
            (forall j' f', l !! j' = Some f' -> (j' < j)%nat ->
               name_less f' (drv.parent (driver info)) = true) ->
            k = j).
  { intros j f Hf Hfk Hbefore.
    destruct (Nat.lt_trichotomy k j) as [Hkj|[Heq|Hjk]]; [|assumption|].
    - destruct (lookup_lt_is_Some_2 l k) as [g Hg]; [apply lookup_lt_Some in Hf; lia|].
      specialize (Hge k g Hg (Nat.le_refl k)). rewrite (Hbefore _ _ Hg Hkj) in Hge. discriminate.
    - rewrite (Hlt _ _ Hf Hjk) in Hfk. discriminate. }
  split; [|intros _; split].
  - intros j e He Hname. unfold k. rewrite (lower_bound_exact l _ j e Hs He Hname), He.
    reflexivity.
  - intros j f Hf Hfk Hbefore. rewrite (Hfirst j f Hf Hfk Hbefore), Hf. reflexivity.
  - intros Hall. destruct (l !! k) as [f|] eqn:Hf; [|reflexivity].
    specialize (Hge k f Hf (Nat.le_refl k)).
    rewrite (Hall f) in Hge; [discriminate|]. eapply list_elem_of_lookup_2; eassumption.
Qed.

Lemma orphan_unsorted_sorted : sorted_by_shortname orphan_unsorted.
Proof. repeat constructor. Qed.

Lemma populate_parents_no_exact_match_check_witness :
  sorted_by_shortname orphan_unsorted
  /\ map parent (populate_parents orphan_unsorted) = [""; ""; "Gamma"; "zeta"; "Alpha"]
  /\ exists info', populate_parents orphan_unsorted !! 2%nat = Some info'
       /\ parent info' = "Gamma".
Proof.
  split; [exact orphan_unsorted_sorted|]. split; [reflexivity|].
  destruct (populate_parents_no_exact_match_check orphan_unsorted 2
              (set_description "Gamma"
                 (emplace (plain_driver "gamma" "delta" "Gamma") 2 false))
              orphan_unsorted_sorted eq_refl eq_refl)
    as (info' & Hlookup & _ & Hnone).
  exists info'. split; [exact Hlookup|].
  destruct Hnone as [Hfirst _].
  - intros e He.
    repeat (apply elem_of_cons in He; destruct He as [->|He]; [discriminate|]).
    inversion He.
  - rewrite (Hfirst 2%nat _ eq_refl eq_refl).
    + reflexivity.
    + intros [|[|j']] f' Hf' Hlt; try lia; injection Hf' as <-; reflexivity.
Defined.

(** ** load_titles *)

Lemma find_loop_none (p : ascii -> bool) (buf : string) (count first : nat) :
  (forall i, (first <= i < first + count)%nat -> p (char_at buf i) = false) ->
  find_loop p buf first count = (first + count)%nat.
Proof.
  revert first. induction count as [|n IH]; intros first H; simpl; [lia|].
  rewrite H by lia. rewrite IH; [lia|]. intros i Hi. apply H. lia.
Qed.

Section Titles.
Context `{E : Externals}.

(** [load_titles_line] in terms of the fields of the line, once the search
    has found the record the line names. *)
Lemma load_titles_line_found (l : list ui_system_info) (w : list warning) (readbuf shortname : string)
    (j : nat) (record : ui_system_info) :
  line_shortname readbuf = Some shortname ->
  lower_bound name_less l shortname = j ->
  l !! j = Some record ->
  drv.name (driver record) = shortname ->
  load_titles_line (l, w) readbuf =
    let '(f, w) :=
      if str_empty (line_description readbuf) then
        (record, w ++ [Empty_translated_description shortname])
      else if negb (str_empty (description record)) then
        (record, w ++ [Multiple_translated_descriptions shortname (description record)
                         (line_description readbuf)])
      else (set_description (line_description readbuf) record, w) in
    match line_reading readbuf with
    | None => (<[j := f]> l, w)
    | Some reading =>
        if str_empty reading then (<[j := f]> l, w ++ [Empty_translated_reading shortname])
        else (<[j := with_reading reading f]> l, w)
    end.
Proof.
  unfold line_shortname, line_description, line_reading, load_titles_line.
  cbv zeta. intros Hshort Hfound Hrecord Hname.
  destruct (_ =? _)%nat; [discriminate|]. injection Hshort as Hshort.
  rewrite Hshort, Hfound, Hrecord, Hname, String.eqb_refl. simpl negb. cbv iota.
  destruct (str_empty (strtrimspace _)); [|destruct (negb (str_empty (description record)))];
    destruct (_ =? _)%nat; try reflexivity;
    destruct (str_empty (strtrimspace _)); reflexivity.
Qed.

Lemma load_titles_line_no_tab (st : list ui_system_info * list warning) (readbuf : string) :
  line_shortname readbuf = None -> load_titles_line st readbuf = st.
Proof.
  unfold line_shortname, load_titles_line. cbv zeta. destruct st as [l w].
  destruct (_ =? _)%nat; [reflexivity|discriminate].
Qed.

Lemma load_titles_line_no_match (l : list ui_system_info) (w : list warning)
    (readbuf shortname : string) :
  line_shortname readbuf = Some shortname ->
  (forall e, e ∈ l -> drv.name (driver e) <> shortname) ->
  load_titles_line (l, w) readbuf = (l, w).
Proof.
  unfold line_shortname, load_titles_line. cbv zeta. intros Hshort Hnone.
  destruct (_ =? _)%nat; [reflexivity|]. injection Hshort as Hshort. rewrite Hshort.
  destruct (l !! lower_bound name_less l shortname) as [f|] eqn:Hf; [|reflexivity].
  destruct (String.eqb_spec shortname (drv.name (driver f))) as [Heq|Hne]; [|reflexivity].
  exfalso. apply (Hnone f); [eapply list_elem_of_lookup_2; eassumption|congruence].
Qed.

(** A buffer with no tab before its end of line has no short name. *)
Lemma line_shortname_no_tab (readbuf : string) :
  (forall i, (i < std_find_if is_eoln readbuf 0 1024)%nat -> char_at readbuf i <> TAB) ->
  line_shortname readbuf = None.
Proof.
  intros H. unfold line_shortname. cbv zeta.
  set (eoln := std_find_if is_eoln readbuf 0 1024) in *.
  unfold std_find, std_find_if. rewrite find_loop_none.
  - replace (0 + (eoln - 0))%nat with eoln by lia. now rewrite Nat.eqb_refl.
  - intros i Hi. apply Ascii.eqb_neq. apply H. lia.
Qed.

End Titles.

Section TitlesClaims.
Context `{E : Externals}.

Lemma description_with_reading (reading : string) (f : ui_system_info) :
  description (with_reading reading f) = description f.
Proof. reflexivity. Qed.

Lemma map_description_insert (l : list ui_system_info) (j : nat) (record f : ui_system_info) :
  l !! j = Some record -> description f = description record ->
  map description (<[j := f]> l) = map description l.
Proof.
  intros Hj Hd. rewrite list_fmap_insert, Hd.
  apply list_insert_id. now rewrite list_lookup_fmap, Hj.
Qed.

(** C6, as the code has it.  When the line names a record whose description
    is already non-empty, or the description of the line is empty after
    trimming, the loader prints one warning about the description and
    leaves every description as it was; the record named is changed only by
    a non-empty reading after a second tab, which still fills its reading
    members, and an empty reading adds a second warning.  The loop then goes
    on with the next buffer. *)
Theorem load_titles_line_keeps_first_description
    (l : list ui_system_info) (w : list warning) (readbuf shortname : string)
    (j : nat) (record : ui_system_info) :
  sorted_by_shortname l ->
  line_shortname readbuf = Some shortname ->
  l !! j = Some record ->
  drv.name (driver record) = shortname ->
  str_empty (line_description readbuf) = true \/ str_empty (description record) = false ->
  let warned :=
    if str_empty (line_description readbuf) then Empty_translated_description shortname
    else Multiple_translated_descriptions shortname (description record)
           (line_description readbuf) in
  load_titles_line (l, w) readbuf =
    match line_reading readbuf with
    | None => (l, w ++ [warned])
    | Some reading =>
        if str_empty reading then (l, w ++ [warned; Empty_translated_reading shortname])
        else (<[j := with_reading reading record]> l, w ++ [warned])
    end
  /\ map description (fst (load_titles_line (l, w) readbuf)) = map description l
  /\ (forall i, i <> j -> fst (load_titles_line (l, w) readbuf) !! i = l !! i)
  /\ (forall rest, fold_left load_titles_line (readbuf :: rest) (l, w)
                   = fold_left load_titles_line rest (load_titles_line (l, w) readbuf)).
Proof.
  intros Hs Hshort Hrecord Hname Hcase warned.
  pose proof (lower_bound_exact l shortname j record Hs Hrecord Hname) as Hfound.
  assert (Heq : load_titles_line (l, w) readbuf =
    match line_reading readbuf with
    | None => (l, w ++ [warned])
    | Some reading =>
        if str_empty reading then (l, w ++ [warned; Empty_translated_reading shortname])
        else (<[j := with_reading reading record]> l, w ++ [warned])
    end).
  { rewrite (load_titles_line_found l w readbuf shortname j record Hshort Hfound Hrecord Hname).
    unfold warned.
    destruct (str_empty (line_description readbuf)) eqn:Hd.
    - rewrite (list_insert_id l j record Hrecord).
      destruct (line_reading readbuf) as [reading|]; [|reflexivity].
      destruct (str_empty reading); [|reflexivity].
      now rewrite <- app_assoc.
    - destruct Hcase as [Hc|Hc]; [discriminate|]. rewrite Hc. simpl negb. cbv iota.
      rewrite (list_insert_id l j record Hrecord).
      destruct (line_reading readbuf) as [reading|]; [|reflexivity].
      destruct (str_empty reading); [|reflexivity].
      now rewrite <- app_assoc. }
  split; [exact Heq|]. split; [|split]; [rewrite Heq|intros i Hi; rewrite Heq|reflexivity].
  - destruct (line_reading readbuf) as [reading|]; [|reflexivity].
    destruct (str_empty reading); [reflexivity|]. simpl.
    now apply (map_description_insert l j record).
  - destruct (line_reading readbuf) as [reading|]; [|reflexivity].
    destruct (str_empty reading); [reflexivity|]. simpl.
    apply list_lookup_insert_ne. congruence.
Qed.

Lemma fill_untranslated_description (info : ui_system_info) :
  drv.fullname (driver (fill_untranslated info)) <> "" ->
  description (fill_untranslated info) <> "".
Proof.
  unfold fill_untranslated. destruct (description info) eqn:Hd; simpl.
  - trivial.
  - intros _. rewrite Hd. discriminate.
Qed.

(** C7, as the code has it.  A buffer with no tab before its end of line,
    and a line whose short name no record has, change neither the list nor
    the warnings; after the last line every record whose description is
    still empty takes the full name of its driver, so a record whose driver
    has a non-empty full name ends with a non-empty description. *)
Theorem load_titles_skips_and_backfills
    (l : list ui_system_info) (w : list warning) (readbuf : string) (file : list string) :
  ((forall i, (i < std_find_if is_eoln readbuf 0 1024)%nat -> char_at readbuf i <> TAB) ->
   load_titles_line (l, w) readbuf = (l, w))
  /\ (forall shortname,
        line_shortname readbuf = Some shortname ->
        (forall e, e ∈ l -> drv.name (driver e) <> shortname) ->
        load_titles_line (l, w) readbuf = (l, w))
  /\ fst (load_titles file l)
     = map fill_untranslated (fst (fold_left load_titles_line file (l, [])))
  /\ (forall info, info ∈ fst (load_titles file l) ->
        drv.fullname (driver info) <> "" -> description info <> "").
Proof.
  assert (Hload : fst (load_titles file l)
            = map fill_untranslated (fst (fold_left load_titles_line file (l, [])))).
  { unfold load_titles. destruct (fold_left load_titles_line file (l, [])). reflexivity. }
  split; [|split; [|split]].
  - intros Hnotab. apply load_titles_line_no_tab. now apply line_shortname_no_tab.
  - intros shortname. apply load_titles_line_no_match.
  - exact Hload.
  - intros info Hin. rewrite Hload in Hin. apply list_elem_of_fmap in Hin.
    destruct Hin as (x & -> & _). apply fill_untranslated_description.
Qed.

End TitlesClaims.

Lemma alpha_unsorted_sorted : sorted_by_shortname alpha_unsorted.
Proof. repeat constructor. Qed.

Lemma load_titles_line_keeps_first_description_witness :
  load_titles_line (E := plain_text) (alpha_unsorted, []) yomi_line
  = (<[1%nat := with_reading (E := plain_text) "Yomi"
                  (emplace (plain_driver "alpha" "0" "Alpha") 1 false)]> alpha_unsorted,
     [Empty_translated_description "alpha"])
  /\ map description (fst (load_titles_line (E := plain_text) (alpha_unsorted, []) yomi_line))
     = map description alpha_unsorted.
Proof.
  destruct (load_titles_line_keeps_first_description (E := plain_text)
              alpha_unsorted [] yomi_line "alpha" 1
              (emplace (plain_driver "alpha" "0" "Alpha") 1 false)
              alpha_unsorted_sorted eq_refl eq_refl eq_refl (or_introl eq_refl))
    as (Hline & Hdesc & _).
  split; [exact Hline|exact Hdesc].
Defined.

(** C6 as it is stated fails: the description of this line is empty after
    trimming, yet the record it names does not stay as it was. *)
Lemma empty_description_line_changes_record :
  str_empty (line_description (E := plain_text) yomi_line) = true
  /\ fst (load_titles_line (E := plain_text) (alpha_unsorted, []) yomi_line) !! 1%nat
     <> alpha_unsorted !! 1%nat.
Proof. split; [reflexivity|discriminate]. Qed.

Lemma load_titles_skips_and_backfills_witness :
  load_titles_line (E := plain_text) (alpha_unsorted, []) "no tab here" = (alpha_unsorted, [])
  /\ load_titles_line (E := plain_text) (alpha_unsorted, []) (overlay_line ["zeta"; "Zeta"])
     = (alpha_unsorted, [])
  /\ map description (fst (load_titles (E := plain_text) [yomi_line] alpha_unsorted))
     = ["No Driver Loaded"; "Alpha"; "Alpha Two"; "Beta"]
  /\ Forall (fun info => description info <> "")
       (fst (load_titles (E := plain_text) [yomi_line] alpha_unsorted)).
Proof.
  destruct (load_titles_skips_and_backfills (E := plain_text)
              alpha_unsorted [] "no tab here" [yomi_line]) as (Hnotab & _ & _ & Hfill).
  destruct (load_titles_skips_and_backfills (E := plain_text)
              alpha_unsorted [] (overlay_line ["zeta"; "Zeta"]) [yomi_line])
    as (_ & Hnomatch & _ & _).
  split; [|split; [|split]].
  - apply Hnotab. intros i Hi.
    do 11 (destruct i as [|i]; [discriminate|]). vm_compute in Hi. lia.
  - apply (Hnomatch "zeta"); [reflexivity|]. intros e He.
    repeat (apply elem_of_cons in He; destruct He as [->|He]; [discriminate|]).
    inversion He.
  - reflexivity.
  - apply Forall_forall. intros info Hin. apply Hfill; [exact Hin|].
    repeat (apply elem_of_cons in Hin; destruct Hin as [->|Hin]; [discriminate|]).
    inversion Hin.
Defined.

(** C7 as it is stated fails: the driver of this record has the empty
    string as its full name, and its description is still empty when
    [load_titles] returns. *)
Lemma backfill_leaves_empty_description :
  exists info, info ∈ fst (load_titles (E := plain_text) [] nameless_unsorted)
               /\ description info = "".
Proof.
  exists (emplace (plain_driver "anon" "0" "") 1 false).
  split; [|reflexivity]. apply elem_of_cons. right. apply elem_of_cons. left. reflexivity.
Qed.

(** ** The build *)

Section BuildFacts.
Context `{E : Externals} (cat : catalog).

Lemma populate_list_step_spec (copydesc : bool) (s : persistent_data) (x : nat) :
  exists e,
    m_sorted_list (populate_list_step cat copydesc s x) = m_sorted_list s ++ [e]
    /\ index e = Z.of_nat x
    /\ m_available (populate_list_step cat copydesc s x) = m_available s
    /\ m_thread (populate_list_step cat copydesc s x) = m_thread s
    /\ m_started (populate_list_step cat copydesc s x) = m_started s.
Proof.
  unfold populate_list_step. cbv zeta.
  destruct (negb (x =? empty_index cat)%nat); [|eexists; repeat split].
  destruct (is_bios_root (driver_list.driver cat (Z.of_nat x)));
    (eexists; split; [reflexivity|]; split; [|repeat split]);
    destruct (has_parent _), copydesc; try reflexivity;
    destruct (0 <=? _)%Z; reflexivity.
Qed.

Lemma populate_list_fold (copydesc : bool) (n start : nat) (s : persistent_data) :
  let s' := fold_left (populate_list_step cat copydesc) (seq start n) s in
  exists es,
    m_sorted_list s' = m_sorted_list s ++ es
    /\ map index es = map Z.of_nat (seq start n)
    /\ m_available s' = m_available s
    /\ m_thread s' = m_thread s
    /\ m_started s' = m_started s.
Proof.
  revert start s. induction n as [|n IH]; intros start s; simpl.
  - exists []. rewrite app_nil_r. repeat split.
  - destruct (populate_list_step_spec copydesc s start) as (e & Hl & He & Ha & Ht & Hst).
    destruct (IH (S start) (populate_list_step cat copydesc s start))
      as (es & Hl' & Hes & Ha' & Ht' & Hst').
    exists (e :: es). rewrite Hl', Hl, <- app_assoc. simpl.
    rewrite He, Hes, Ha', Ha, Ht', Ht, Hst', Hst. repeat split.
Qed.

Lemma populate_list_spec (copydesc : bool) (s : persistent_data) :
  exists es,
    m_sorted_list (populate_list cat copydesc s) = m_sorted_list s ++ es
    /\ map index es = map Z.of_nat (seq 0 (driver_list.total cat))
    /\ m_available (populate_list cat copydesc s) = m_available s
    /\ m_thread (populate_list cat copydesc s) = m_thread s
    /\ m_started (populate_list cat copydesc s) = m_started s.
Proof. apply populate_list_fold. Qed.

(** Every stage ends by publishing its own flag and touches neither the
    thread nor [m_started]. *)
Lemma stage_available (datpath titles : string) (n : nat) (s : persistent_data) :
  (n < stages)%nat ->
  m_available (stage cat datpath titles n s)
  = Z.lor (m_available s) (nth n pipeline_order 0%Z)
  /\ m_thread (stage cat datpath titles n s) = m_thread s
  /\ m_started (stage cat datpath titles n s) = m_started s.
Proof.
  intros Hn. unfold stages in Hn.
  destruct n as [|[|[|[|[|[|[|[|n]]]]]]]]; try lia; unfold stage; cbv zeta.
  - destruct (populate_list_spec (negb (try_titles datpath titles)) s)
      as (es & _ & _ & Ha & Ht & Hst).
    simpl. rewrite Ha, Ht, Hst. repeat split.
  - destruct (try_titles datpath titles); repeat split.
  - repeat split.
  - repeat split.
  - repeat split.
  - repeat split.
  - destruct (try_titles datpath titles); repeat split.
  - destruct (try_titles datpath titles); repeat split.
Qed.

End BuildFacts.

Lemma find_from_NoDup (l : list game_driver) (i : Z) (k : nat) (d : game_driver) :
  NoDup (map drv.name l) -> l !! k = Some d ->
  driver_list.find_from (drv.name d) l i = (i + Z.of_nat k)%Z.
Proof.
  revert i k. induction l as [|d0 l IH]; intros i k Hnd Hk; [discriminate|].
  inversion Hnd as [|? ? Hnotin Hnd']; subst. destruct k as [|k]; simpl in *.
  - injection Hk as ->. rewrite String.eqb_refl. lia.
  - destruct (String.eqb_spec (drv.name d0) (drv.name d)) as [Heq|_].
    + exfalso. apply Hnotin. rewrite Heq. apply list_elem_of_fmap.
      exists d. split; [reflexivity|]. eapply list_elem_of_lookup_2; eassumption.
    + rewrite (IH _ k Hnd' Hk). lia.
Qed.

Lemma find_empty (cat : catalog) :
  catalog_wf cat ->
  driver_list.find cat (drv.name (GAME_NAME____empty cat)) = Z.of_nat (empty_index cat).
Proof.
  intros [Hlt Hnd]. unfold driver_list.find, GAME_NAME____empty, driver_list.driver.
  rewrite Nat2Z.id.
  destruct (lookup_lt_is_Some_2 (s_drivers_sorted cat) (empty_index cat) Hlt) as [d Hd].
  rewrite (nth_lookup_Some _ _ _ _ Hd). now rewrite (find_from_NoDup _ 0 _ d Hnd Hd).
Qed.

Section SortedList.
Context `{E : Externals}.

Lemma compare_systems_sort_key (a a' b b' : ui_system_info) :
  sort_key a = sort_key a' -> sort_key b = sort_key b' ->
  compare_systems a b = compare_systems a' b'.
Proof.
  unfold sort_key, compare_systems. intros Ha Hb.
  injection Ha as -> -> -> -> -> ->. injection Hb as -> -> -> -> -> ->. reflexivity.
Qed.

(** Without an overlay the list the cache ends with is the sorted list
    with the normalised forms filled in, and every flag is published. *)
Lemma do_cache_data_no_titles (cat : catalog) (datpath titles : string) (s : persistent_data) :
  try_titles datpath titles = false ->
  exists G,
    (forall info, same_system (G info) info)
    /\ m_sorted_list (do_cache_data cat datpath titles s)
       = map G (stable_sort compare_systems
                  (erase_at (m_sorted_list (populate_list cat true s))
                     (driver_list.find cat (drv.name (GAME_NAME____empty cat))))).
Proof.
  intros Htry.
  exists (fun info =>
    let info := set_ucs_shortname (ucs_normalize (drv.name (driver info))) info in
    let info := set_ucs_description (ucs_normalize (description info)) info in
    set_ucs_manufacturer_description
      (ucs_normalize (drv.manufacturer (driver info) ++ " " ++ description info)%string) info).
  split; [intros info; split; reflexivity|].
  unfold do_cache_data, stages. cbn [fold_left seq]. unfold stage. rewrite Htry.
  cbv zeta. cbn [negb]. unfold notify_available.
  cbn [m_sorted_list with_sorted_list with_available with_filter_data].
  rewrite !map_map. reflexivity.
Qed.

Lemma do_cache_data_available (cat : catalog) (datpath titles : string) (s : persistent_data) :
  m_available s = AVAIL_NONE ->
  m_available (do_cache_data cat datpath titles s) = 255%Z.
Proof.
  intros Hs. unfold do_cache_data, stages. cbn [fold_left seq].
  repeat match goal with
  | |- context [m_available (stage cat datpath titles ?n ?s)] =>
      rewrite (proj1 (stage_available cat datpath titles n s ltac:(unfold stages; lia)))
  end.
  rewrite Hs. reflexivity.
Qed.

(** C5.  Built without an overlay file from a table of N systems and the
    placeholder, the sorted list has exactly N entries, one for every
    position of the table but the placeholder's, and no entry is followed
    by one the comparator puts before it. *)
Theorem sorted_list_complete_and_ordered (cat : catalog) (datpath titles : string) :
  (forall wx wy, compare_names wx wy = true -> compare_names wy wx = false) ->
  catalog_wf cat ->
  try_titles datpath titles = false ->
  exists l,
    sorted_list (do_cache_data cat datpath titles persistent_data_new) = Some l
    /\ S (length l) = driver_list.total cat
    /\ Permutation (map index l)
         (map Z.of_nat (delete (empty_index cat) (seq 0 (driver_list.total cat))))
    /\ (forall i a b, l !! i = Some a -> l !! S i = Some b -> compare_systems b a = false).
Proof.
  intros Hcoll Hwf Htry.
  destruct (do_cache_data_no_titles cat datpath titles persistent_data_new Htry)
    as (G & HG & Hlist).
  destruct (populate_list_spec cat true persistent_data_new) as (es & Hes & Hidx & _).
  change (m_sorted_list persistent_data_new ++ es) with es in Hes.
  rewrite Hes, (find_empty cat Hwf) in Hlist.
  unfold erase_at in Hlist.
  destruct (Z.leb_spec 0 (Z.of_nat (empty_index cat))) as [_|Hneg]; [|lia].
  rewrite Nat2Z.id in Hlist.
  assert (Hasym : forall a b, compare_systems a b = true -> compare_systems b a = false).
  { intros a b. unfold compare_systems. cbv zeta.
    destruct (is_clone a), (is_clone b); cbn [negb andb].
    - rewrite (String.eqb_sym (drv.parent (driver b))).
      destruct (_ =? _)%string; apply Hcoll.
    - destruct (String.eqb_spec (drv.parent (driver a)) (drv.name (driver b))) as [->|Hne].
      + discriminate.
      + rewrite (proj2 (String.eqb_neq _ _)) by congruence. apply Hcoll.
    - destruct (String.eqb_spec (drv.name (driver a)) (drv.parent (driver b))) as [->|Hne].
      + now rewrite String.eqb_refl.
      + rewrite (proj2 (String.eqb_neq _ _)) by congruence. apply Hcoll.
    - apply Hcoll. }
  exists (m_sorted_list (do_cache_data cat datpath titles persistent_data_new)).
  split; [|split; [|split]].
  - unfold sorted_list, is_available.
    now rewrite (do_cache_data_available cat datpath titles persistent_data_new eq_refl).
  - rewrite Hlist, length_map, stable_sort_length.
    assert (Hlen : length es = driver_list.total cat).
    { rewrite <- (length_map index es), Hidx, length_map. apply length_seq. }
    destruct Hwf as [Hlt _].
    rewrite length_delete by (apply lookup_lt_is_Some_2; lia). lia.
  - rewrite Hlist, map_map.
    rewrite (map_ext (fun x => index (G x)) index) by (intros x; apply (HG x)).
    rewrite (Permutation_map index (stable_sort_perm compare_systems _)).
    change (map index (delete (empty_index cat) es)) with (index <$> delete (empty_index cat) es).
    rewrite list_fmap_delete.
    change (index <$> es) with (map index es). rewrite Hidx.
    change (map Z.of_nat (seq 0 (driver_list.total cat)))
      with (Z.of_nat <$> seq 0 (driver_list.total cat)).
    now rewrite <- list_fmap_delete.
  - intros i a b Ha Hb. rewrite Hlist in Ha, Hb.
    change (map G ?l) with (G <$> l) in Ha, Hb.
    rewrite list_lookup_fmap in Ha, Hb.
    destruct (stable_sort compare_systems (delete (empty_index cat) es) !! i) as [a0|] eqn:Ha0;
      [|discriminate].
    destruct (stable_sort compare_systems (delete (empty_index cat) es) !! S i) as [b0|] eqn:Hb0;
      [|discriminate].
    injection Ha as <-. injection Hb as <-.
    rewrite (compare_systems_sort_key (G b0) b0 (G a0) a0) by apply HG.
    exact (Sorted_lookup _ _ _ _ _ (stable_sort_adjacent compare_systems _ Hasym) Ha0 Hb0).
Qed.

End SortedList.

(** ** The plain-text environment *)

Lemma lexicographic_antisym (x y : list Z) : lexicographic y x = (- lexicographic x y)%Z.
Proof.
  revert y. induction x as [|a x IH]; intros [|b y]; simpl; try reflexivity.
  destruct (Z.ltb_spec a b), (Z.ltb_spec b a); try reflexivity; try lia. apply IH.
Qed.

Lemma plain_compare_names_asym (wx wy : wstring) :
  compare_names (E := plain_text) wx wy = true ->
  compare_names (E := plain_text) wy wx = false.
Proof.
  unfold compare_names. simpl. rewrite (lexicographic_antisym wx wy).
  intros H. apply Z.gtb_lt in H.
  destruct (Z.gtb_spec 0 (- lexicographic wx wy)); [lia|reflexivity].
Qed.

Lemma alpha_catalog_wf : catalog_wf alpha_catalog.
Proof.
  split; [vm_compute; lia|].
  repeat (apply NoDup_cons; split; [intros Hin;
    repeat (apply elem_of_cons in Hin; destruct Hin as [Hin|Hin]; [discriminate|]);
    inversion Hin|]).
  apply NoDup_nil. trivial.
Qed.

Lemma sorted_list_complete_and_ordered_witness :
  exists l,
    sorted_list alpha_cache = Some l
    /\ length l = 3%nat
    /\ (forall i a b, l !! i = Some a -> l !! S i = Some b ->
          compare_systems (E := plain_text) b a = false).
Proof.
  destruct (sorted_list_complete_and_ordered (E := plain_text) alpha_catalog "dats" ""
              plain_compare_names_asym alpha_catalog_wf eq_refl)
    as (l & Hl & Hlen & _ & Hadj).
  exists l. split; [exact Hl|]. split; [|exact Hadj].
  change (driver_list.total alpha_catalog) with 4%nat in Hlen. lia.
Defined.

(** ** The comparator *)


Section Comparator.
Context `{E : Externals}.


End Comparator.

(** ** The order of the built list *)

Section StrictWeak.
Context {A : Type} (comp : A -> A -> bool).






End StrictWeak.

Section BuiltOrder.
Context `{E : Externals}.





End BuiltOrder.




(** ** The cache in use *)

Lemma lor_keeps_available (m value desired : Z) :
  Z.land m desired = desired -> Z.land (Z.lor m value) desired = desired.
Proof.
  intros H. apply Z.bits_inj'. intros n Hn.
  pose proof (f_equal (fun z => Z.testbit z n) H) as Hb. cbv beta in Hb.
  rewrite Z.land_spec in Hb. rewrite Z.land_spec, Z.lor_spec.
  destruct (Z.testbit m n), (Z.testbit value n), (Z.testbit desired n);
    simpl in *; congruence.
Qed.

Section SessionFacts.
Context `{E : Externals} (cat : catalog).

Lemma thread_runs_available (s : persistent_data) (desired : Z) :
  is_available desired s = true -> is_available desired (thread_runs cat s) = true.
Proof.
  unfold thread_runs. destruct (m_thread s) as [t|]; [|trivial].
  destruct (Nat.ltb_spec (progress t) stages) as [Hlt|_]; [|trivial].
  unfold is_available. cbn [m_available with_thread].
  rewrite (proj1 (stage_available cat (datpath t) (titles t) (progress t) s Hlt)).
  rewrite !Z.eqb_eq. apply lor_keeps_available.
Qed.

Lemma step_available (s : persistent_data) (e : event) (desired : Z) :
  is_reset e = false ->
  is_available desired s = true -> is_available desired (step cat s e) = true.
Proof.
  destruct e as [options| |d|included|]; simpl; intros Hr Ha; try discriminate.
  - unfold cache_data. destruct (negb (m_started s)); exact Ha.
  - exact Ha.
  - destruct (sorted_list s); exact Ha.
  - now apply thread_runs_available.
Qed.

(** C4.  Once [is_available] has returned true for a stage it returns true
    after every further call and every further step of the thread, as long
    as [reset_cache] is not among them. *)
Theorem availability_monotone (events : list event) (s : persistent_data) (desired : Z) :
  forallb (fun e => negb (is_reset e)) events = true ->
  is_available desired s = true ->
  is_available desired (run cat events s) = true.
Proof.
  revert s. induction events as [|e events IH]; intros s Hno Ha; [exact Ha|].
  simpl in Hno. apply andb_true_iff in Hno as [He Hno]. apply negb_true_iff in He.
  apply (IH (step cat s e) Hno). now apply step_available.
Qed.

Lemma step_started (s : persistent_data) (e : event) :
  is_reset e = false -> m_started s = true -> m_started (step cat s e) = true.
Proof.
  destruct e as [options| |d|included|]; simpl; intros Hr Hs; try discriminate.
  - unfold cache_data. now rewrite Hs.
  - exact Hs.
  - destruct (sorted_list s); exact Hs.
  - unfold thread_runs. destruct (m_thread s) as [t|]; [|exact Hs].
    destruct (Nat.ltb_spec (progress t) stages) as [Hlt|_]; [|exact Hs].
    cbn [m_started with_thread].
    now rewrite (proj2 (proj2 (stage_available cat (datpath t) (titles t) (progress t) s Hlt))).
Qed.

Lemma threads_created_started (events : list event) (s : persistent_data) :
  forallb (fun e => negb (is_reset e)) events = true ->
  m_started s = true -> threads_created cat events s = 0%nat.
Proof.
  revert s. induction events as [|e events IH]; intros s Hno Hs; [reflexivity|].
  simpl in Hno. apply andb_true_iff in Hno as [He Hno]. apply negb_true_iff in He.
  cbn [threads_created]. rewrite (IH _ Hno (step_started s e He Hs)).
  unfold creates_thread. rewrite Hs. destruct e; reflexivity.
Qed.

(** C3.  Between two resets the calls of [cache_data], however they are
    interleaved with one another, with the other calls and with the steps of
    the thread (each runs with the mutex held), create at most one thread;
    and a call made once a build has been started changes nothing in the
    cache. *)
Theorem cache_data_starts_one_build
    (events : list event) (s : persistent_data) (options : ui_options) :
  (forallb (fun e => negb (is_reset e)) events = true ->
   (threads_created cat events s <= 1)%nat)
  /\ (m_started s = true -> cache_data options s = s).
Proof.
  split.
  - revert s. induction events as [|e events IH]; intros s Hno; [simpl; lia|].
    simpl in Hno. apply andb_true_iff in Hno as [He Hno]. apply negb_true_iff in He.
    cbn [threads_created].
    destruct e as [o| |d|included|]; try discriminate.
    + unfold creates_thread. destruct (m_started s) eqn:Hs; cbn [negb].
      * specialize (IH (step cat s (Call_cache_data o)) Hno). lia.
      * rewrite (threads_created_started events _ Hno); [lia|].
        simpl. unfold cache_data. rewrite Hs. reflexivity.
    + specialize (IH (step cat s (Call_is_available d)) Hno). lia.
    + specialize (IH (step cat s (Call_mark_available included)) Hno). lia.
    + specialize (IH (step cat s Thread_runs) Hno). lia.
  - intros Hs. unfold cache_data. now rewrite Hs.
Qed.

Lemma published_S (k : nat) :
  (k < stages)%nat -> published (S k) = Z.lor (published k) (nth k pipeline_order 0%Z).
Proof.
  unfold stages. intros Hk.
  destruct k as [|[|[|[|[|[|[|[|k]]]]]]]]; try lia; reflexivity.
Qed.

Lemma step_consistent (s : persistent_data) (e : event) :
  consistent s -> consistent (step cat s e).
Proof.
  unfold consistent. intros Hs.
  destruct e as [options| |d|included|]; simpl.
  - unfold cache_data. destruct (m_thread s) as [t|] eqn:Ht.
    + destruct Hs as (Hst & Hp & Ha). rewrite Hst. simpl. rewrite Ht. auto.
    + destruct Hs as (Hst & Ha). rewrite Hst. simpl. repeat split; [lia|exact Ha].
  - unfold reset_cache. destruct (joinable_now s); [simpl; auto|exact Hs].
  - exact Hs.
  - destruct (sorted_list s); exact Hs.
  - unfold thread_runs. destruct (m_thread s) as [t|] eqn:Ht; [|now rewrite Ht].
    destruct (Nat.ltb_spec (progress t) stages) as [Hlt|_]; [|now rewrite Ht].
    destruct Hs as (Hst & Hp & Ha).
    destruct (stage_available cat (datpath t) (titles t) (progress t) s Hlt) as (Ha' & _ & Hst').
    cbn [m_thread m_started m_available with_thread progress].
    rewrite Hst', Ha', Ha, (published_S _ Hlt). repeat split; [assumption|lia].
Qed.

Lemma run_consistent (events : list event) (s : persistent_data) :
  consistent s -> consistent (run cat events s).
Proof.
  revert s. induction events as [|e events IH]; intros s Hs; [exact Hs|].
  apply (IH (step cat s e)). now apply step_consistent.
Qed.

Lemma consistent_published (s : persistent_data) :
  consistent s -> exists k, (k <= stages)%nat /\ m_available s = published k.
Proof.
  unfold consistent. destruct (m_thread s) as [t|].
  - intros (_ & Hp & Ha). eauto.
  - intros (_ & Ha). exists 0%nat. split; [lia|exact Ha].
Qed.

Lemma published_prefix (k i j : nat) (earlier later : Z) :
  (k <= stages)%nat -> (i <= j)%nat ->
  pipeline_order !! i = Some earlier -> pipeline_order !! j = Some later ->
  Z.land (published k) later = later -> Z.land (published k) earlier = earlier.
Proof.
  unfold stages. intros Hk Hij Hi Hj.
  assert (Hj8 : (j < 8)%nat) by (apply lookup_lt_Some in Hj; exact Hj).
  destruct k as [|[|[|[|[|[|[|[|[|k]]]]]]]]]; try lia;
    destruct j as [|[|[|[|[|[|[|[|j]]]]]]]]; try lia;
    injection Hj as <-; try discriminate;
    destruct i as [|[|[|[|[|[|[|[|i]]]]]]]]; try lia;
    injection Hi as <-; intros _; reflexivity.
Qed.

(** C8.  The n-th notification of a build publishes the n-th stage of the
    pipeline order (BIOS count, sorted list, filter data, then the five
    normalised forms), so in every state the cache can reach the published
    flags are an initial part of that order: a later stage is never
    available while an earlier one is not. *)
Theorem stages_published_in_order (events : list event) :
  (forall datpath titles n s, (n < stages)%nat ->
     m_available (stage cat datpath titles n s)
     = Z.lor (m_available s) (nth n pipeline_order 0%Z))
  /\ (exists k, (k <= stages)%nat
        /\ m_available (run cat events persistent_data_new) = published k)
  /\ (forall i j earlier later, (i <= j)%nat ->
        pipeline_order !! i = Some earlier -> pipeline_order !! j = Some later ->
        is_available later (run cat events persistent_data_new) = true ->
        is_available earlier (run cat events persistent_data_new) = true).
Proof.
  assert (Hc : consistent (run cat events persistent_data_new)).
  { apply run_consistent. split; reflexivity. }
  destruct (consistent_published _ Hc) as (k & Hk & Hpub).
  split; [|split].
  - intros datpath titles n s Hn. apply (stage_available cat datpath titles n s Hn).
  - eauto.
  - intros i j earlier later Hij Hi Hj. unfold is_available. rewrite Hpub, !Z.eqb_eq.
    now apply (published_prefix k i j).
Qed.

End SessionFacts.

Lemma availability_monotone_witness :
  is_available AVAIL_SORTED_LIST
    (run (E := plain_text) alpha_catalog
       [Thread_runs; Call_mark_available (fun _ => true); Call_cache_data no_titles]
       (run (E := plain_text) alpha_catalog
          [Call_cache_data no_titles; Thread_runs; Thread_runs] persistent_data_new)) = true.
Proof.
  apply (availability_monotone (E := plain_text) alpha_catalog); reflexivity.
Defined.

Lemma cache_data_starts_one_build_witness :
  (threads_created (E := plain_text) alpha_catalog
     [Call_cache_data no_titles; Call_cache_data no_titles; Thread_runs;
      Call_cache_data no_titles] persistent_data_new <= 1)%nat
  /\ cache_data no_titles (cache_data no_titles persistent_data_new)
     = cache_data no_titles persistent_data_new.
Proof.
  destruct (cache_data_starts_one_build (E := plain_text) alpha_catalog
              [Call_cache_data no_titles; Call_cache_data no_titles; Thread_runs;
               Call_cache_data no_titles] persistent_data_new no_titles) as [Hone _].
  destruct (cache_data_starts_one_build (E := plain_text) alpha_catalog
              [] (cache_data no_titles persistent_data_new) no_titles) as [_ Hnoop].
  split; [apply Hone; reflexivity|apply Hnoop; reflexivity].
Defined.

Lemma stages_published_in_order_witness :
  is_available AVAIL_BIOS_COUNT
    (run (E := plain_text) alpha_catalog
       [Call_cache_data no_titles; Thread_runs; Thread_runs; Thread_runs]
       persistent_data_new) = true.
Proof.
  destruct (stages_published_in_order (E := plain_text) alpha_catalog
              [Call_cache_data no_titles; Thread_runs; Thread_runs; Thread_runs])
    as (_ & _ & Horder).
  apply (Horder 0%nat 2%nat AVAIL_BIOS_COUNT AVAIL_FILTER_DATA); try reflexivity. lia.
Defined.

Section Reset.
Context `{E : Externals} (cat : catalog).

Lemma mask_zero_unavailable (desired : Z) (s : persistent_data) :
  m_available s = AVAIL_NONE -> desired <> 0%Z -> is_available desired s = false.
Proof.
  intros Hs Hd. unfold is_available. rewrite Hs. unfold AVAIL_NONE.
  rewrite Z.land_0_l. apply Z.eqb_neq. congruence.
Qed.

(** No stage reads or writes [m_thread] or [m_started]. *)
Lemma populate_list_step_frame (copydesc : bool) (t : option thread) (b : bool)
    (s : persistent_data) (x : nat) :
  populate_list_step cat copydesc (with_thread t (with_started b s)) x
  = with_thread t (with_started b (populate_list_step cat copydesc s x)).
Proof.
  unfold populate_list_step. cbv zeta.
  destruct (negb (x =? empty_index cat)%nat); [|reflexivity].
  destruct (is_bios_root _); reflexivity.
Qed.

Lemma populate_list_frame (copydesc : bool) (t : option thread) (b : bool) (s : persistent_data) :
  populate_list cat copydesc (with_thread t (with_started b s))
  = with_thread t (with_started b (populate_list cat copydesc s)).
Proof.
  unfold populate_list. generalize (seq 0 (driver_list.total cat)). intros l. revert s.
  induction l as [|x l IH]; intros s; [reflexivity|].
  cbn [fold_left]. now rewrite populate_list_step_frame, IH.
Qed.

Lemma stage_frame (datpath titles : string) (n : nat) (t : option thread) (b : bool)
    (s : persistent_data) :
  stage cat datpath titles n (with_thread t (with_started b s))
  = with_thread t (with_started b (stage cat datpath titles n s)).
Proof.
  destruct n as [|[|[|[|[|[|[|[|n]]]]]]]]; unfold stage; cbv zeta;
    try rewrite populate_list_frame; try reflexivity;
    destruct (try_titles datpath titles); reflexivity.
Qed.

Lemma stages_frame (datpath titles : string) (l : list nat) (t : option thread) (b : bool)
    (s : persistent_data) :
  fold_left (fun s k => stage cat datpath titles k s) l (with_thread t (with_started b s))
  = with_thread t (with_started b (fold_left (fun s k => stage cat datpath titles k s) l s)).
Proof.
  revert s. induction l as [|k l IH]; intros s; [reflexivity|].
  cbn [fold_left]. now rewrite stage_frame, IH.
Qed.

Lemma with_thread_started_id (s : persistent_data) :
  with_thread (m_thread s) (with_started (m_started s) s) = s.
Proof. destruct s; reflexivity. Qed.

Lemma stages_thread_irrelevant (datpath titles : string) (l : list nat) (a b : option thread)
    (s : persistent_data) :
  with_thread a (fold_left (fun s k => stage cat datpath titles k s) l (with_thread b s))
  = with_thread a (fold_left (fun s k => stage cat datpath titles k s) l s).
Proof.
  pose proof (stages_frame datpath titles l b (m_started s) s) as H1.
  pose proof (stages_frame datpath titles l (m_thread s) (m_started s) s) as H2.
  rewrite with_thread_started_id in H2.
  change (with_thread b (with_started (m_started s) s)) with (with_thread b s) in H1.
  rewrite H1, H2. reflexivity.
Qed.

(** The steps of the thread, one after the other, are the stages of
    [do_cache_data] in order. *)
Lemma thread_runs_through (n : nat) (t : thread) (s : persistent_data) :
  m_thread s = Some t -> (progress t + n <= stages)%nat ->
  run cat (repeat Thread_runs n) s
  = with_thread
      (Some {| datpath := datpath t; titles := titles t; progress := (progress t + n)%nat |})
      (fold_left (fun s k => stage cat (datpath t) (titles t) k s) (seq (progress t) n) s).
Proof.
  revert t s. induction n as [|n IH]; intros t s Ht Hn.
  - simpl. rewrite Nat.add_0_r. destruct s, t; simpl in *. now rewrite Ht.
  - cbn [repeat run fold_left step seq]. unfold thread_runs at 1. rewrite Ht.
    destruct (Nat.ltb_spec (progress t) stages) as [Hlt|Hge]; [|lia].
    change (fold_left (step cat) (repeat Thread_runs n) ?s)
      with (run cat (repeat Thread_runs n) s).
    rewrite (IH {| datpath := datpath t; titles := titles t; progress := S (progress t) |});
      [|reflexivity|simpl; lia].
    cbn [datpath titles progress]. rewrite Nat.add_succ_r.
    apply stages_thread_irrelevant.
Qed.

(** A first build on a fresh cache leaves the list [do_cache_data] computes. *)
Lemma build_runs_do_cache_data (options : ui_options) :
  run cat (build_events options) persistent_data_new
  = with_thread
      (Some {| datpath := history_path options; titles := system_names options;
               progress := stages |})
      (with_started true
         (do_cache_data cat (history_path options) (system_names options)
            persistent_data_new)).
Proof.
  unfold build_events. cbn [run fold_left step].
  change (fold_left (step cat) ?l ?s) with (run cat l s).
  rewrite (thread_runs_through stages
             {| datpath := history_path options; titles := system_names options;
                progress := 0 |});
    [|reflexivity|simpl; lia].
  cbn [datpath titles progress Nat.add]. unfold cache_data.
  cbn [m_started persistent_data_new negb]. cbv zeta.
  rewrite stages_frame. reflexivity.
Qed.

(** C9.  When [reset_cache] returns no stage is available, the sorted list
    and the filter data are empty and the BIOS count is zero: the cache is as
    the constructor left it, so a build started then goes through the same
    states as a build on a fresh cache and ends with the same sorted list. *)
Theorem reset_then_rebuild (s s' : persistent_data) (options : ui_options) :
  reset_cache s = Some s' ->
  (forall desired, desired <> 0%Z -> is_available desired s' = false)
  /\ Forall (fun desired => is_available desired s' = false) pipeline_order
  /\ m_sorted_list s' = [] /\ m_filter_data s' = machine_filter_data_new
  /\ m_bios_count s' = 0%Z
  /\ run cat (build_events options) s' = run cat (build_events options) persistent_data_new
  /\ sorted_list (run cat (build_events options) s')
     = Some (m_sorted_list
               (do_cache_data cat (history_path options) (system_names options)
                  persistent_data_new)).
Proof.
  unfold reset_cache. destruct (joinable_now s); [|discriminate].
  intros Hs'. injection Hs' as <-.
  change (with_bios_count 0 _) with persistent_data_new.
  split; [|split; [|repeat split]].
  - intros desired Hd. now apply mask_zero_unavailable.
  - repeat constructor.
  - rewrite build_runs_do_cache_data. unfold sorted_list, is_available.
    cbn [m_available m_sorted_list with_thread with_started].
    now rewrite (do_cache_data_available cat _ _ persistent_data_new eq_refl).
Qed.

End Reset.

Lemma reset_then_rebuild_witness :
  exists s',
    reset_cache (run (E := plain_text) alpha_catalog (build_events no_titles) persistent_data_new)
    = Some s'
    /\ is_available AVAIL_SORTED_LIST s' = false
    /\ option_map (map description)
         (sorted_list (run (E := plain_text) alpha_catalog (build_events no_titles) s'))
       = Some ["Alpha"; "Alpha Two"; "Beta"].
Proof.
  exists persistent_data_new. split; [reflexivity|].
  destruct (reset_then_rebuild (E := plain_text) alpha_catalog
              (run (E := plain_text) alpha_catalog (build_events no_titles) persistent_data_new)
              persistent_data_new no_titles eq_refl) as (Hnone & _ & _ & _ & _ & _ & Hlist).
  split; [apply Hnone; discriminate|]. rewrite Hlist. reflexivity.
Defined.

(** ** The search ranker *)

Section Ranker.
Context `{E : Externals}.

Lemma std_min_lower (new cur : Q) :
  ((new < cur)%Q -> std_min new cur = new)
  /\ (~ (new < cur)%Q -> (std_min new cur == cur)%Q).
Proof.
  unfold std_min. split; intros H.
  - destruct (Qltb cur new) eqn:Hlt; [|reflexivity].
    apply Qltb_lt in Hlt. exfalso. apply (Qlt_irrefl new). now apply (Qlt_trans _ cur).
  - destruct (Qltb cur new) eqn:Hlt; [reflexivity|].
    apply Qltb_ge in Hlt. apply Qle_antisym; [exact Hlt|]. now apply Qnot_lt_le.
Qed.

Lemma chained_snoc (start mid after : Q) (trace : list compared) (f : field) :
  chained start trace mid -> chained start (trace ++ [(f, mid, after)]) after.
Proof.
  revert start. induction trace as [|[[g b] a] trace IH]; intros start; simpl.
  - intros ->. split; reflexivity.
  - intros [-> H]. split; [reflexivity|]. now apply IH.
Qed.

Lemma traced_improve (ucs_search : u32string) (sys : ui_system_info) (f : field)
    (st : Q * list compared) :
  f <> Shortname -> nonzero (fst st) = true ->
  traced ucs_search sys st -> traced ucs_search sys (improve ucs_search sys f st).
Proof.
  intros Hf Hnz [Hch Hok]. split; unfold improve; cbn [fst snd].
  - now apply chained_snoc.
  - apply Forall_app. split; [exact Hok|]. constructor; [|constructor].
    split; [exact Hnz|]. destruct f; try reflexivity. congruence.
Qed.

Lemma traced_assign (ucs_search : u32string) (sys : ui_system_info) :
  traced ucs_search sys (assign ucs_search sys Shortname (1%Q, [])).
Proof. split; cbn; [auto|]. repeat constructor. Qed.

Lemma traced_if (ucs_search : u32string) (sys : ui_system_info) (c : bool)
    (a b : Q * list compared) :
  (c = true -> traced ucs_search sys a) -> (c = false -> traced ucs_search sys b) ->
  traced ucs_search sys (if c then a else b).
Proof. destruct c; auto. Qed.

Ltac split_conditions :=
  repeat match goal with
  | H : (_ && _) = true |- _ => apply andb_true_iff in H; destruct H
  end.

Ltac traced_steps :=
  lazymatch goal with
  | |- traced _ _ (if _ then _ else _) => apply traced_if; intros ?; traced_steps
  | |- traced _ _ (improve _ _ _ _) =>
      apply traced_improve; [discriminate|split_conditions; assumption|traced_steps]
  | |- traced _ _ (assign _ _ _ _) => apply traced_assign
  | |- traced _ _ (_, _) => split; [reflexivity|constructor]
  end.

Lemma score_trace_traced (fields : Z) (ucs_search : u32string) (sys : ui_system_info) :
  traced ucs_search sys (score_trace fields ucs_search sys).
Proof. unfold score_trace. cbv zeta. traced_steps. Qed.

Lemma fst_if {A B : Type} (c : bool) (a b : A * B) :
  fst (if c then a else b) = if c then fst a else fst b.
Proof. now destruct c. Qed.

Lemma score_trace_score (fields : Z) (ucs_search : u32string) (sys : ui_system_info) :
  fst (score_trace fields ucs_search sys) = score fields ucs_search sys.
Proof.
  unfold score_trace, score, improve, assign. cbv zeta.
  repeat (rewrite !fst_if; cbn [fst snd]). reflexivity.
Qed.

(** Once a comparison has left the score 0 no other comparison is made. *)
Lemma traced_zero_last (ucs_search : u32string) (sys : ui_system_info) (start final : Q)
    (l1 l2 : list compared) (f : field) (before after : Q) :
  chained start (l1 ++ (f, before, after) :: l2) final ->
  Forall (comparison_ok ucs_search sys) (l1 ++ (f, before, after) :: l2) ->
  nonzero after = false -> l2 = [].
Proof.
  revert start. induction l1 as [|[[g b] a] l1 IH]; intros start Hch Hok Hz.
  - destruct l2 as [|[[g b] a] l2]; [reflexivity|]. exfalso.
    cbn [app chained] in Hch. destruct Hch as [_ [Hb _]]. subst b.
    cbn [app] in Hok.
    inversion Hok as [|? ? _ Hok']; subst. inversion Hok' as [|? ? Hc _]; subst.
    destruct Hc as [Hnz _]. congruence.
  - cbn [app chained] in Hch. destruct Hch as [_ Hch]. cbn [app] in Hok.
    inversion Hok; subst. eapply IH; eassumption.
Qed.

End Ranker.

Section Ranking.
Context `{E : Externals}.

Lemma searched_shortname_bit (fields : Z) :
  Z.testbit fields 2 = true -> searched fields AVAIL_UCS_SHORTNAME = true.
Proof.
  intros Hbit. unfold searched. apply negb_true_iff, Z.eqb_neq. intros Hz.
  pose proof (f_equal (fun z => Z.testbit z 2) Hz) as Hb. cbv beta in Hb.
  rewrite Z.land_spec, Hbit in Hb. discriminate.
Qed.

Lemma check_available_shortname (pd : persistent_data) (fields : Z) :
  is_available AVAIL_UCS_SHORTNAME pd = true ->
  searched (check_available pd fields) AVAIL_UCS_SHORTNAME = true.
Proof.
  intros Ha. apply searched_shortname_bit. unfold check_available. cbv zeta. rewrite Ha.
  repeat match goal with
  | |- context [if ?c then _ else _] => destruct c
  end; rewrite ?Z.lor_spec; cbn [Z.testbit AVAIL_UCS_SHORTNAME];
    rewrite ?orb_true_r; reflexivity.
Qed.

Lemma score_exact_shortname (fields : Z) (ucs_search : u32string) (sys : ui_system_info) :
  searched fields AVAIL_UCS_SHORTNAME = true ->
  ucs_shortname sys = ucs_search ->
  (edit_distance ucs_search ucs_search == 0)%Q ->
  (score fields ucs_search sys == 0)%Q.
Proof.
  intros Hs Hname Hzero. unfold score. cbv zeta. rewrite Hs, Hname.
  assert (Hnz : nonzero (edit_distance ucs_search ucs_search) = false).
  { unfold nonzero. apply negb_false_iff. now apply Qeq_bool_iff. }
  repeat (rewrite Hnz; cbn [andb]). exact Hzero.
Qed.

(** C2, as the code has it.  For every query and every entry the loop body
    makes a comparison only while the score is not 0 and keeps the lower of
    the field's distance and the score so far, so a query whose distance to
    the entry's normalised short name is 0 scores 0 once that stage is
    published; the ranked list holds the entries of the search list with
    their new scores, ascending, and entries with equal scores keep the
    order they had in the search list before the call, which is the order
    of the sorted list only when the search list was empty. *)
Theorem populate_search_ranks
    (pd : persistent_data) (m : menu_select_game) (searchlist : list (Q * nat)) :
  ensure_populated pd m = Some searchlist ->
  let fields := check_available pd (m_searched_fields m) in
  let ucs_search := ucs_normalize (m_search m) in
  exists m',
    populate_search pd m = Some m'
    /\ (forall sys,
          fst (score_trace fields ucs_search sys) = score fields ucs_search sys
          /\ traced ucs_search sys (score_trace fields ucs_search sys)
          /\ (forall l1 f before after l2,
                snd (score_trace fields ucs_search sys) = l1 ++ (f, before, after) :: l2 ->
                nonzero after = false -> l2 = []))
    /\ (forall new cur,
          ((new < cur)%Q -> std_min new cur = new)
          /\ (~ (new < cur)%Q -> (std_min new cur == cur)%Q))
    /\ (forall sys,
          is_available AVAIL_UCS_SHORTNAME pd = true ->
          ucs_shortname sys = ucs_search ->
          (edit_distance ucs_search ucs_search == 0)%Q ->
          (score fields ucs_search sys == 0)%Q)
    /\ Permutation (m_searchlist m') (rescored pd m searchlist)
    /\ StronglySorted (fun a b => (fst a <= fst b)%Q) (m_searchlist m')
    /\ (forall v,
          filter (fun e => Qeq_bool (fst e) v = true) (m_searchlist m')
          = filter (fun e => Qeq_bool (fst e) v = true) (rescored pd m searchlist))
    /\ (vec_empty (m_searchlist m) = true ->
        map snd (rescored pd m searchlist) = seq 0 (length (m_sorted_list pd))).
Proof.
  intros Hpop fields ucs_search.
  exists {| m_search := m_search m;
            m_searchlist := stable_sort by_score (rescored pd m searchlist);
            m_searched_fields := fields |}.
  split; [unfold populate_search; now rewrite Hpop|].
  split; [|split; [|split; [|split; [|split; [|split]]]]]; cbn [m_searchlist].
  - intros sys. split; [apply score_trace_score|]. split; [apply score_trace_traced|].
    intros l1 f before after l2 Htr Hz.
    destruct (score_trace_traced fields ucs_search sys) as [Hch Hok].
    rewrite Htr in Hch, Hok. eapply traced_zero_last; eassumption.
  - apply std_min_lower.
  - intros sys Ha. apply score_exact_shortname. now apply check_available_shortname.
  - apply stable_sort_perm.
  - apply (stable_sort_ascending fst).
  - intros v. apply (stable_sort_ties fst).
  - intros Hempty. unfold ensure_populated in Hpop. rewrite Hempty in Hpop.
    unfold sorted_list in Hpop. destruct (is_available AVAIL_SORTED_LIST pd); [|discriminate].
    injection Hpop as <-. unfold rescored. rewrite !map_map. cbn [snd]. apply map_id.
Qed.

End Ranking.

Lemma populate_search_ranks_witness :
  exists m',
    populate_search (E := plain_text) alpha_cache (new_menu "beta") = Some m'
    /\ map snd (m_searchlist m') = [2; 0; 1]%nat
    /\ StronglySorted (fun a b => (fst a <= fst b)%Q) (m_searchlist m').
Proof.
  destruct (populate_search_ranks (E := plain_text) alpha_cache (new_menu "beta")
              [(1%Q, 0%nat); (1%Q, 1%nat); (1%Q, 2%nat)] eq_refl)
    as (m' & Hm' & _ & _ & _ & _ & Hsorted & _).
  exists m'. split; [exact Hm'|]. split; [|exact Hsorted].
  vm_compute in Hm'. injection Hm' as <-. reflexivity.
Defined.

(** C2 as it is stated fails on a second search: the three entries score
    the same, yet the entry at position 2 of the sorted list, ranked first
    by the search before, stays ahead of the entries at positions 0 and 1. *)
Lemma second_search_keeps_previous_order :
  exists m1 m2,
    populate_search (E := plain_text) alpha_cache (new_menu "beta") = Some m1
    /\ populate_search (E := plain_text) alpha_cache (with_search "zzzzzzzzzzzzzzzzzzz" m1)
       = Some m2
    /\ Forall (fun e => (fst e == 1)%Q) (m_searchlist m2)
    /\ map snd (m_searchlist m2) = [2; 0; 1]%nat.
Proof.
  eexists. eexists. split; [vm_compute; reflexivity|].
  split; [vm_compute; reflexivity|]. split; [|reflexivity].
  repeat constructor.
Qed.

(* ================================================================== *)
(** * Further properties of the code *)

(** ** populate_list *)

Section PopulateList.
Context `{E : Externals} (cat : catalog).

Lemma populate_list_step_entry (copydesc : bool) (s : persistent_data) (x : nat) :
  m_sorted_list (populate_list_step cat copydesc s x)
  = m_sorted_list s ++ [populated_entry cat copydesc x]
  /\ m_bios_count (populate_list_step cat copydesc s x)
     = (m_bios_count s
        + if negb (x =? empty_index cat)%nat
             && is_bios_root (driver_list.driver cat (Z.of_nat x))
          then 1 else 0)%Z.
Proof.
  unfold populate_list_step, populated_entry. cbv zeta.
  destruct (negb (x =? empty_index cat)%nat); cbn [andb].
  - destruct (is_bios_root (driver_list.driver cat (Z.of_nat x)));
      (split; [|cbn; lia]);
      destruct (has_parent _), copydesc; cbn [andb]; try reflexivity;
      destruct (0 <=? _)%Z; reflexivity.
  - split; [reflexivity|cbn; lia].
Qed.

Lemma populate_list_fold_entries (copydesc : bool) (n start : nat) (s : persistent_data) :
  let s' := fold_left (populate_list_step cat copydesc) (seq start n) s in
  m_sorted_list s' = m_sorted_list s ++ map (populated_entry cat copydesc) (seq start n)
  /\ m_bios_count s'
     = (m_bios_count s
        + Z.of_nat (length (List.filter
             (fun x => negb (x =? empty_index cat)%nat
                       && is_bios_root (driver_list.driver cat (Z.of_nat x)))
             (seq start n))))%Z.
Proof.
  revert start s. induction n as [|n IH]; intros start s; cbn [seq fold_left map List.filter].
  - rewrite app_nil_r. split; [reflexivity|cbn; lia].
  - destruct (populate_list_step_entry copydesc s start) as [Hl Hb].
    destruct (IH (S start) (populate_list_step cat copydesc s start)) as [Hl' Hb'].
    cbv zeta in Hl', Hb'. rewrite Hl', Hl, Hb', Hb, <- app_assoc. split; [reflexivity|].
    destruct (negb (start =? empty_index cat)%nat && is_bios_root _); cbn [length]; lia.
Qed.

Lemma populate_list_entries (copydesc : bool) :
  m_sorted_list (populate_list cat copydesc persistent_data_new)
  = map (populated_entry cat copydesc) (seq 0 (driver_list.total cat)).
Proof.
  apply (populate_list_fold_entries copydesc (driver_list.total cat) 0 persistent_data_new).
Qed.

Lemma populate_list_shape (copydesc : bool) :
  length (m_sorted_list (populate_list cat copydesc persistent_data_new))
  = driver_list.total cat
  /\ map driver (m_sorted_list (populate_list cat copydesc persistent_data_new))
     = s_drivers_sorted cat
  /\ m_bios_count (populate_list cat copydesc persistent_data_new)
     = Z.of_nat (length (bios_roots cat))
  /\ ~ In (empty_index cat) (bios_roots cat).
Proof.
  split; [|split; [|split]].
  - rewrite populate_list_entries, length_map. apply length_seq.
  - rewrite populate_list_entries, map_map. cbn [driver populated_entry].
    unfold driver_list.driver, driver_list.total.
    apply list_eq. intros i.
    change (map ?f ?l) with (f <$> l). rewrite list_lookup_fmap.
    destruct (s_drivers_sorted cat !! i) as [d|] eqn:Hd.
    + rewrite lookup_seq_lt by (apply lookup_lt_Some in Hd; exact Hd). cbn.
      rewrite Nat2Z.id. f_equal. now apply nth_lookup_Some.
    + rewrite lookup_seq_ge by (apply lookup_ge_None in Hd; lia). reflexivity.
  - apply (populate_list_fold_entries copydesc (driver_list.total cat) 0 persistent_data_new).
  - unfold bios_roots. rewrite filter_In. intros [_ H].
    rewrite Nat.eqb_refl in H. discriminate.
Qed.

(** X1.  On a fresh cache [populate_list] leaves one entry per position of
    the table, the placeholder's included, in table order; the BIOS count is
    the number of BIOS roots other than the placeholder, so the placeholder
    is never counted even if its flags carry the bit. *)
Theorem populate_list_counts_bios_roots (copydesc : bool) :
  length (m_sorted_list (populate_list cat copydesc persistent_data_new))
  = driver_list.total cat
  /\ map driver (m_sorted_list (populate_list cat copydesc persistent_data_new))
     = s_drivers_sorted cat
  /\ m_bios_count (populate_list cat copydesc persistent_data_new)
     = Z.of_nat (length (bios_roots cat))
  /\ ~ In (empty_index cat) (bios_roots cat).
Proof. exact (populate_list_shape copydesc). Qed.

End PopulateList.

Lemma has_parent_strcmp (d : game_driver) :
  c_string (drv.parent d) -> has_parent d = negb (drv.parent d =? "0")%string.
Proof.
  unfold has_parent, char_at. destruct (drv.parent d) as [|c [|c' s]]; cbn.
  - reflexivity.
  - intros _. destruct (c =? "0")%char; reflexivity.
  - intros (_ & Hc' & _). apply Ascii.eqb_neq in Hc'. rewrite Hc'.
    destruct (c =? "0")%char; reflexivity.
Qed.

Section CloneFlag.
Context `{E : Externals} (cat : catalog).

(** X2.  Whether or not [populate_list] copies the descriptions, it gives an
    entry the same clone flag: set exactly when the driver names a parent
    other than "0" that [driver_list::find] finds and that is no BIOS root.
    The placeholder's entry is left as constructed. *)
Theorem populate_list_clone_flag (copydesc : bool) (x : nat) (e : ui_system_info) :
  m_sorted_list (populate_list cat copydesc persistent_data_new) !! x = Some e ->
  (x <> empty_index cat ->
   is_clone e
   = has_parent (driver e)
     && (0 <=? driver_list.find cat (drv.parent (driver e)))%Z
     && negb (is_bios_root
                (driver_list.driver cat (driver_list.find cat (drv.parent (driver e))))))
  /\ (x = empty_index cat -> e = emplace (GAME_NAME____empty cat) (Z.of_nat x) false)
  /\ (forall e', m_sorted_list (populate_list cat (negb copydesc) persistent_data_new) !! x
                 = Some e' -> is_clone e' = is_clone e).
Proof.
  rewrite !populate_list_entries.
  change (map ?f ?l) with (f <$> l). rewrite list_lookup_fmap.
  intros He. destruct (seq 0 (driver_list.total cat) !! x) as [y|] eqn:Hy; [|discriminate].
  apply lookup_seq in Hy as [-> Hlt]. cbn in He. injection He as <-.
  split; [|split].
  - intros Hx. cbn [is_clone driver populated_entry].
    rewrite (proj2 (Nat.eqb_neq _ _) Hx). reflexivity.
  - intros ->. unfold populated_entry, GAME_NAME____empty. cbv zeta.
    rewrite Nat.eqb_refl. reflexivity.
  - intros e'. rewrite list_lookup_fmap, (lookup_seq_lt _ _ _ Hlt).
    intros He'. injection He' as <-. reflexivity.
Qed.

(** X3.  The clone status the menu computes for icons and favourites agrees
    with the clone flag of the list whenever the parent is in the table (or
    there is none); for a parent the table does not have the icon code calls
    the system a clone and the list does not. *)
Theorem cloneof_against_list_flag (copydesc : bool) (x : nat) (e : ui_system_info) :
  m_sorted_list (populate_list cat copydesc persistent_data_new) !! x = Some e ->
  x <> empty_index cat ->
  c_string (drv.parent (driver e)) ->
  cloneof cat (driver e)
  = is_clone e
    || (has_parent (driver e) && (driver_list.find cat (drv.parent (driver e)) <? 0)%Z).
Proof.
  intros He Hx Hc.
  rewrite populate_list_entries in He.
  change (map ?f ?l) with (f <$> l) in He. rewrite list_lookup_fmap in He.
  destruct (seq 0 (driver_list.total cat) !! x) as [y|] eqn:Hy; [|discriminate].
  apply lookup_seq in Hy as [-> _]. cbn in He. injection He as <-.
  cbn [is_clone driver populated_entry] in *.
  rewrite (proj2 (Nat.eqb_neq _ _) Hx). cbn [negb andb].
  unfold cloneof. cbv zeta. rewrite <- (has_parent_strcmp _ Hc).
  destruct (has_parent _); [|reflexivity]. cbn [andb].
  rewrite Z.geb_leb.
  destruct (Z.leb_spec 0 (driver_list.find cat (drv.parent (driver_list.driver cat (Z.of_nat x)))))
    as [Hge|Hlt]; destruct (Z.ltb_spec (driver_list.find cat
        (drv.parent (driver_list.driver cat (Z.of_nat x)))) 0); try lia; cbn [andb orb negb].
  - destruct (is_bios_root _); reflexivity.
  - reflexivity.
Qed.

End CloneFlag.

Lemma populate_list_clone_flag_witness :
  map is_clone (m_sorted_list (populate_list (E := plain_text) alpha_catalog true
                                 persistent_data_new))
  = [false; false; true; false]
  /\ forall e', m_sorted_list (populate_list (E := plain_text) alpha_catalog false
                                persistent_data_new) !! 2%nat = Some e' ->
                is_clone e' = true.
Proof.
  split; [reflexivity|].
  destruct (populate_list_clone_flag (E := plain_text) alpha_catalog true 2
              (populated_entry (E := plain_text) alpha_catalog true 2) eq_refl)
    as (_ & _ & Hother).
  exact Hother.
Defined.

Lemma cloneof_against_list_flag_witness :
  cloneof (E := plain_text) orphan_catalog (plain_driver "gamma" "delta" "Gamma") = true
  /\ is_clone (populated_entry (E := plain_text) orphan_catalog true 2) = false.
Proof.
  pose proof (cloneof_against_list_flag (E := plain_text) orphan_catalog true 2
                (populated_entry (E := plain_text) orphan_catalog true 2) eq_refl
                ltac:(discriminate)
                ltac:(cbn; repeat split; discriminate)) as H.
  split; [exact H|reflexivity].
Defined.

(** ** load_titles over a whole file *)

Section TitleFile.
Context `{E : Externals}.

(** A buffer is skipped, or it names the record the search finds and that
    record becomes [titled]. *)
Lemma load_titles_line_shape (l : list ui_system_info) (w : list warning) (readbuf : string) :
  load_titles_line (l, w) readbuf = (l, w)
  \/ exists shortname k f,
       line_shortname readbuf = Some shortname
       /\ l !! k = Some f
       /\ drv.name (driver f) = shortname
       /\ fst (load_titles_line (l, w) readbuf) = <[k := titled f readbuf]> l.
Proof.
  destruct (line_shortname readbuf) as [shortname|] eqn:Hshort;
    [|left; now apply load_titles_line_no_tab].
  destruct (l !! lower_bound name_less l shortname) as [f|] eqn:Hf.
  - destruct (String.eqb_spec shortname (drv.name (driver f))) as [Heq|Hne].
    + right. exists shortname, (lower_bound name_less l shortname), f.
      repeat split; try assumption; [congruence|].
      rewrite (load_titles_line_found l w readbuf shortname _ f Hshort eq_refl Hf (eq_sym Heq)).
      unfold titled. cbv zeta.
      destruct (str_empty (line_description readbuf));
        [|destruct (negb (str_empty (description f)))];
        destruct (line_reading readbuf) as [reading|]; try reflexivity;
        destruct (str_empty reading); reflexivity.
    + left. unfold line_shortname in Hshort. unfold load_titles_line. cbv zeta in *.
      destruct (_ =? _)%nat; [reflexivity|]. injection Hshort as Hshort.
      rewrite Hshort, Hf. apply String.eqb_neq in Hne. now rewrite Hne.
  - left. unfold line_shortname in Hshort. unfold load_titles_line. cbv zeta in *.
    destruct (_ =? _)%nat; [reflexivity|]. injection Hshort as Hshort.
    now rewrite Hshort, Hf.
Qed.

Lemma title_update_refl (a : ui_system_info) : title_update a a.
Proof. repeat split. Qed.

Lemma title_update_trans (a b c : ui_system_info) :
  title_update a b -> title_update b c -> title_update a c.
Proof.
  unfold title_update.
  intros (H1 & H2 & H3 & H4 & H5 & H6 & H7 & H8 & H9 & H10 & H11 & H12)
         (G1 & G2 & G3 & G4 & G5 & G6 & G7 & G8 & G9 & G10 & G11 & G12).
  repeat split; try congruence.
  intros Ha. rewrite <- (H12 Ha). apply G12. now rewrite (H12 Ha).
Qed.

Lemma title_update_titled (f : ui_system_info) (readbuf : string) :
  title_update f (titled f readbuf).
Proof.
  unfold titled. cbv zeta.
  destruct (str_empty (line_description readbuf));
    [|destruct (str_empty (description f)) eqn:Hd; cbn [negb]];
    destruct (line_reading readbuf) as [reading|]; try apply title_update_refl;
    try destruct (str_empty reading); try apply title_update_refl;
    repeat split; cbn; congruence.
Qed.

Lemma title_update_fill (f : ui_system_info) : title_update f (fill_untranslated f).
Proof.
  unfold fill_untranslated. destruct (str_empty (description f)) eqn:Hd.
  - repeat split. cbn. congruence.
  - apply title_update_refl.
Qed.

Lemma Forall2_title_update_refl (l : list ui_system_info) : Forall2 title_update l l.
Proof. induction l; constructor; [apply title_update_refl|assumption]. Qed.

Lemma load_titles_line_update (l : list ui_system_info) (w : list warning) (readbuf : string) :
  Forall2 title_update l (fst (load_titles_line (l, w) readbuf)).
Proof.
  destruct (load_titles_line_shape l w readbuf) as [->|(s & k & f & _ & Hk & _ & ->)].
  - apply Forall2_title_update_refl.
  - rewrite <- (list_insert_id l k f Hk) at 1.
    apply Forall2_insert; [apply Forall2_title_update_refl|apply title_update_titled].
Qed.

Lemma Forall2_title_update_trans (l1 l2 l3 : list ui_system_info) :
  Forall2 title_update l1 l2 -> Forall2 title_update l2 l3 -> Forall2 title_update l1 l3.
Proof.
  intros H12. revert l3. induction H12 as [|a b l1 l2 Hab H12 IH]; intros l3 H23.
  - inversion H23. constructor.
  - inversion H23 as [|? c ? l3' Hbc H23']; subst. constructor.
    + eapply title_update_trans; eassumption.
    + now apply IH.
Qed.

Lemma load_titles_lines_update (file : list string) (l : list ui_system_info) (w : list warning) :
  Forall2 title_update l (fst (fold_left load_titles_line file (l, w))).
Proof.
  revert l w. induction file as [|readbuf file IH]; intros l w; cbn [fold_left].
  - apply Forall2_title_update_refl.
  - destruct (load_titles_line (l, w) readbuf) as [l' w'] eqn:Hline.
    apply (Forall2_title_update_trans l l').
    + pose proof (load_titles_line_update l w readbuf) as H. now rewrite Hline in H.
    + apply IH.
Qed.

Lemma StronglySorted_map {A B : Type} (f : A -> B) (R : B -> B -> Prop) (l : list A) :
  StronglySorted R (map f l) <-> StronglySorted (fun a b => R (f a) (f b)) l.
Proof.
  induction l as [|a l IH]; cbn; split; intros H; try constructor.
  - apply StronglySorted_inv in H as [H1 H2]. now apply IH.
  - apply StronglySorted_inv in H as [H1 H2].
    change (map f l) with (f <$> l) in H2. rewrite Forall_fmap in H2. exact H2.
  - apply StronglySorted_inv in H as [H1 H2]. now apply IH.
  - apply StronglySorted_inv in H as [H1 H2].
    change (map f l) with (f <$> l). rewrite Forall_fmap. exact H2.
Qed.

Lemma title_update_sorted (l l' : list ui_system_info) :
  Forall2 title_update l l' -> sorted_by_shortname l -> sorted_by_shortname l'.
Proof.
  intros H. unfold sorted_by_shortname.
  assert (Hd : map driver l' = map driver l).
  { induction H as [|a b l l' Hab _ IH]; [reflexivity|]. cbn. rewrite IH.
    now rewrite (proj1 Hab). }
  intros Hs.
  apply (StronglySorted_map driver (fun a b => String.ltb (drv.name a) (drv.name b) = true)).
  rewrite Hd.
  now apply (StronglySorted_map driver (fun a b => String.ltb (drv.name a) (drv.name b) = true)).
Qed.

Lemma load_titles_fills (file1 file2 : list string) (l : list ui_system_info) :
  Forall2 title_update
    (fst (fold_left load_titles_line file1 (l, [])))
    (fst (load_titles (file1 ++ file2) l))
  /\ (sorted_by_shortname l -> sorted_by_shortname (fst (load_titles (file1 ++ file2) l))).
Proof.
  assert (H : Forall2 title_update
                (fst (fold_left load_titles_line file1 (l, [])))
                (fst (load_titles (file1 ++ file2) l))).
  { unfold load_titles. rewrite fold_left_app.
    destruct (fold_left load_titles_line file1 (l, [])) as [l1 w1]. cbn [fst].
    pose proof (load_titles_lines_update file2 l1 w1) as H2.
    destruct (fold_left load_titles_line file2 (l1, w1)) as [l2 w2]. cbn [fst] in *.
    apply (Forall2_title_update_trans l1 l2); [exact H2|].
    clear. induction l2; constructor; [apply title_update_fill|assumption]. }
  split; [exact H|].
  intros Hs. apply (title_update_sorted (fst (fold_left load_titles_line file1 (l, [])))).
  - exact H.
  - apply (title_update_sorted l); [apply load_titles_lines_update|exact Hs].
Qed.

(** X4.  Whatever the overlay file holds, [load_titles] keeps the length
    and order of the list and every driver, index, clone flag and parent
    member; it changes only descriptions and readings, and a description
    that is not empty when a line is read is the same when [load_titles]
    returns.  The list therefore stays sorted by short name, as
    [populate_parents] needs it. *)
Theorem load_titles_only_fills (file1 file2 : list string) (l : list ui_system_info) :
  Forall2 title_update
    (fst (fold_left load_titles_line file1 (l, [])))
    (fst (load_titles (file1 ++ file2) l))
  /\ (sorted_by_shortname l -> sorted_by_shortname (fst (load_titles (file1 ++ file2) l))).
Proof. exact (load_titles_fills file1 file2 l). Qed.

End TitleFile.

Section TitleResult.
Context `{E : Externals}.

Lemma load_titles_line_titled (l : list ui_system_info) (w : list warning)
    (readbuf shortname : string) (k : nat) (f : ui_system_info) :
  line_shortname readbuf = Some shortname ->
  lower_bound name_less l shortname = k ->
  l !! k = Some f ->
  drv.name (driver f) = shortname ->
  fst (load_titles_line (l, w) readbuf) = <[k := titled f readbuf]> l.
Proof.
  intros Hshort Hfound Hk Hname.
  rewrite (load_titles_line_found l w readbuf shortname k f Hshort Hfound Hk Hname).
  unfold titled. cbv zeta.
  destruct (str_empty (line_description readbuf));
    [|destruct (negb (str_empty (description f)))];
    destruct (line_reading readbuf) as [reading|]; try reflexivity;
    destruct (str_empty reading); reflexivity.
Qed.

Lemma load_titles_line_at (l : list ui_system_info) (w : list warning) (readbuf : string)
    (j : nat) (record : ui_system_info) :
  sorted_by_shortname l -> l !! j = Some record ->
  fst (load_titles_line (l, w) readbuf) !! j
  = Some (if names (drv.name (driver record)) readbuf then titled record readbuf else record).
Proof.
  intros Hs Hj. unfold names.
  destruct (line_shortname readbuf) as [s|] eqn:Hshort.
  - destruct (String.eqb_spec s (drv.name (driver record))) as [->|Hne].
    + rewrite (load_titles_line_titled l w readbuf _ j record Hshort
                 (lower_bound_exact l _ j record Hs Hj eq_refl) Hj eq_refl).
      apply list_lookup_insert_eq. now apply lookup_lt_Some in Hj.
    + destruct (load_titles_line_shape l w readbuf)
        as [->|(s' & k & f & Hshort' & Hk & Hname & ->)]; [exact Hj|].
      rewrite Hshort in Hshort'. injection Hshort' as <-.
      rewrite list_lookup_insert_ne; [exact Hj|].
      intros ->. rewrite Hj in Hk. injection Hk as <-. congruence.
  - now rewrite load_titles_line_no_tab.
Qed.

Lemma description_titled (record : ui_system_info) (readbuf : string) :
  description (titled record readbuf)
  = if str_empty (description record) && negb (str_empty (line_description readbuf))
    then line_description readbuf else description record.
Proof.
  unfold titled. cbv zeta.
  destruct (str_empty (line_description readbuf)) eqn:Hd; cbn [negb];
    [rewrite andb_false_r|rewrite andb_true_r; destruct (str_empty (description record));
                            cbn [negb]];
    destruct (line_reading readbuf) as [reading|]; try reflexivity;
    destruct (str_empty reading); reflexivity.
Qed.

Lemma driver_titled (record : ui_system_info) (readbuf : string) :
  driver (titled record readbuf) = driver record.
Proof. apply (title_update_titled record readbuf). Qed.

Lemma load_titles_lines_description (file : list string) (l : list ui_system_info)
    (w : list warning) (j : nat) (record : ui_system_info) :
  sorted_by_shortname l -> l !! j = Some record ->
  exists r',
    fst (fold_left load_titles_line file (l, w)) !! j = Some r'
    /\ driver r' = driver record
    /\ description r'
       = if str_empty (description record) then
           match overlay_description (drv.name (driver record)) file with
           | Some d => d
           | None => ""
           end
         else description record.
Proof.
  revert l w record. induction file as [|readbuf file IH]; intros l w record Hs Hj.
  - exists record. cbn. split; [exact Hj|]. split; [reflexivity|].
    destruct (description record); reflexivity.
  - cbn [fold_left].
    pose proof (load_titles_line_at l w readbuf j record Hs Hj) as Hat.
    pose proof (title_update_sorted _ _ (load_titles_line_update l w readbuf) Hs) as Hs1.
    destruct (load_titles_line (l, w) readbuf) as [l1 w1]. cbn [fst] in *.
    destruct (IH l1 w1 _ Hs1 Hat) as (r' & Hr' & Hdrv & Hdesc).
    exists r'. split; [exact Hr'|].
    unfold overlay_description, describes, names in *. cbn [List.find].
    destruct (line_shortname readbuf) as [s|] eqn:Hshort.
    + destruct (String.eqb_spec s (drv.name (driver record))) as [->|Hne].
      * rewrite driver_titled in Hdrv, Hdesc. rewrite description_titled in Hdesc.
        split; [exact Hdrv|]. rewrite Hdesc. cbn [andb].
        destruct (str_empty (description record)) eqn:Hrec; cbn [andb].
        -- destruct (str_empty (line_description readbuf)) eqn:Hd; cbn [negb option_map].
           ++ now rewrite Hrec.
           ++ now rewrite Hd.
        -- now rewrite Hrec.
      * split; [exact Hdrv|]. cbn [andb]. exact Hdesc.
    + split; [exact Hdrv|]. exact Hdesc.
Qed.

(** X5.  For a list sorted by short name, the description a record that
    had none ends with is the trimmed description of the first line of the
    file that names it and has one, and the full name of its driver when no
    line does: later lines naming the same system do not count. *)
Theorem load_titles_first_description_wins
    (file : list string) (l : list ui_system_info) (j : nat) (record : ui_system_info) :
  sorted_by_shortname l -> l !! j = Some record ->
  str_empty (description record) = true ->
  exists r',
    fst (load_titles file l) !! j = Some r'
    /\ description r'
       = match overlay_description (drv.name (driver record)) file with
         | Some d => d
         | None => drv.fullname (driver record)
         end.
Proof.
  intros Hs Hj Hempty.
  destruct (load_titles_lines_description file l [] j record Hs Hj) as (r & Hr & Hdrv & Hdesc).
  rewrite Hempty in Hdesc.
  exists (fill_untranslated r). split.
  - unfold load_titles. destruct (fold_left load_titles_line file (l, [])) as [l' w'].
    cbn [fst] in *. change (map ?f ?l) with (f <$> l). now rewrite list_lookup_fmap, Hr.
  - unfold fill_untranslated. rewrite Hdesc.
    unfold overlay_description in *.
    destruct (List.find (describes (drv.name (driver record))) file) as [readbuf|] eqn:Hfind;
      cbn [option_map].
    + apply find_some in Hfind as [_ Hd]. unfold describes in Hd.
      destruct (line_shortname readbuf); [|discriminate].
      apply andb_true_iff in Hd as [_ Hd]. apply negb_true_iff in Hd.
      rewrite Hd. exact Hdesc.
    + cbn. now rewrite Hdrv.
Qed.

End TitleResult.

Section TitleReading.
Context `{E : Externals}.

Lemma reading_titled (record : ui_system_info) (readbuf : string) :
  reading_description (titled record readbuf)
  = match line_reading readbuf with
    | Some reading =>
        if str_empty reading then reading_description record else wstring_from_utf8 reading
    | None => reading_description record
    end
  /\ ucs_reading_description (titled record readbuf)
     = match line_reading readbuf with
       | Some reading =>
           if str_empty reading then ucs_reading_description record
           else ucs_normalize reading
       | None => ucs_reading_description record
       end.
Proof.
  unfold titled. cbv zeta.
  destruct (str_empty (line_description readbuf));
    [|destruct (negb (str_empty (description record)))];
    destruct (line_reading readbuf) as [reading|]; try (split; reflexivity);
    destruct (str_empty reading); split; reflexivity.
Qed.

Lemma load_titles_lines_reading (file : list string) (l : list ui_system_info)
    (j : nat) (record : ui_system_info) :
  sorted_by_shortname l -> l !! j = Some record ->
  exists r',
    fst (fold_left load_titles_line file (l, [])) !! j = Some r'
    /\ driver r' = driver record
    /\ reading_description r'
       = match overlay_reading (drv.name (driver record)) file with
         | Some reading => wstring_from_utf8 reading
         | None => reading_description record
         end
    /\ ucs_reading_description r'
       = match overlay_reading (drv.name (driver record)) file with
         | Some reading => ucs_normalize reading
         | None => ucs_reading_description record
         end.
Proof.
  intros Hs Hj. induction file as [|readbuf file IH] using rev_ind.
  - exists record. cbn. auto.
  - destruct IH as (r & Hr & Hdrv & Hread & Hucs).
    rewrite fold_left_app. cbn [fold_left].
    pose proof (title_update_sorted _ _ (load_titles_lines_update file l []) Hs) as Hs1.
    destruct (fold_left load_titles_line file (l, [])) as [l1 w1]. cbn [fst] in *.
    pose proof (load_titles_line_at l1 w1 readbuf j r Hs1 Hr) as Hat.
    eexists. split; [exact Hat|].
    unfold overlay_reading in *. rewrite rev_app_distr. cbn [rev app List.find].
    rewrite Hdrv.
    destruct (reads (drv.name (driver record)) readbuf) eqn:Hreads.
    + unfold reads in Hreads. unfold names.
      destruct (line_shortname readbuf) as [s|]; [|discriminate].
      destruct (line_reading readbuf) as [reading|] eqn:Hreading; [|discriminate].
      apply andb_true_iff in Hreads as [Hs' Hne]. apply negb_true_iff in Hne.
      rewrite Hs', driver_titled. split; [exact Hdrv|].
      destruct (reading_titled r readbuf) as [-> ->]. rewrite Hreading, Hne.
      split; reflexivity.
    + assert (Hkeep :
        reading_description
          (if names (drv.name (driver record)) readbuf then titled r readbuf else r)
        = reading_description r
        /\ ucs_reading_description
             (if names (drv.name (driver record)) readbuf then titled r readbuf else r)
           = ucs_reading_description r
        /\ driver (if names (drv.name (driver record)) readbuf then titled r readbuf else r)
           = driver r).
      { unfold reads in Hreads. unfold names.
        destruct (line_shortname readbuf) as [s|]; [|auto].
        destruct (s =? drv.name (driver record))%string; [|auto].
        rewrite driver_titled. destruct (reading_titled r readbuf) as [-> ->].
        destruct (line_reading readbuf) as [reading|]; [|auto].
        cbn [andb] in Hreads. apply negb_false_iff in Hreads. rewrite Hreads. auto. }
      destruct Hkeep as (-> & -> & ->). auto.
Qed.

(** X6.  For a list sorted by short name, the reading a record ends with is
    that of the last line of the file that names it and has a non-empty
    reading (so a later line replaces an earlier reading, unlike the
    description), and the reading is left alone when no line has one. *)
Theorem load_titles_last_reading_wins
    (file : list string) (l : list ui_system_info) (j : nat) (record : ui_system_info) :
  sorted_by_shortname l -> l !! j = Some record ->
  exists r',
    fst (load_titles file l) !! j = Some r'
    /\ reading_description r'
       = match overlay_reading (drv.name (driver record)) file with
         | Some reading => wstring_from_utf8 reading
         | None => reading_description record
         end
    /\ ucs_reading_description r'
       = match overlay_reading (drv.name (driver record)) file with
         | Some reading => ucs_normalize reading
         | None => ucs_reading_description record
         end.
Proof.
  intros Hs Hj.
  destruct (load_titles_lines_reading file l j record Hs Hj) as (r & Hr & _ & Hread & Hucs).
  exists (fill_untranslated r). split.
  - unfold load_titles. destruct (fold_left load_titles_line file (l, [])) as [l' w'].
    cbn [fst] in *. change (map ?f ?l) with (f <$> l). now rewrite list_lookup_fmap, Hr.
  - unfold fill_untranslated. destruct (str_empty (description r)); split; assumption.
Qed.

End TitleReading.

Lemma load_titles_only_fills_witness :
  sorted_by_shortname (fst (load_titles (E := plain_text) deluxe_file alpha_unsorted))
  /\ map description (fst (load_titles (E := plain_text) deluxe_file alpha_unsorted))
     = ["No Driver Loaded"; "Alpha Deluxe"; "Alpha Two"; "Beta"].
Proof.
  destruct (load_titles_only_fills (E := plain_text) [] deluxe_file alpha_unsorted)
    as [_ Hsorted].
  split; [exact (Hsorted alpha_unsorted_sorted)|reflexivity].
Defined.

Lemma load_titles_first_description_wins_witness :
  exists r',
    fst (load_titles (E := plain_text) deluxe_file alpha_unsorted) !! 1%nat = Some r'
    /\ description r' = "Alpha Deluxe".
Proof.
  destruct (load_titles_first_description_wins (E := plain_text) deluxe_file alpha_unsorted 1
              (emplace (plain_driver "alpha" "0" "Alpha") 1 false)
              alpha_unsorted_sorted eq_refl eq_refl) as (r' & Hr' & Hd).
  exists r'. split; [exact Hr'|exact Hd].
Defined.

Lemma load_titles_last_reading_wins_witness :
  exists r',
    fst (load_titles (E := plain_text) deluxe_file alpha_unsorted) !! 1%nat = Some r'
    /\ reading_description r' = code_points "Yomi".
Proof.
  destruct (load_titles_last_reading_wins (E := plain_text) deluxe_file alpha_unsorted 1
              (emplace (plain_driver "alpha" "0" "Alpha") 1 false)
              alpha_unsorted_sorted eq_refl) as (r' & Hr' & Hread & _).
  exists r'. split; [exact Hr'|exact Hread].
Defined.

(** ** populate_parents after load_titles *)

Lemma populate_parents_entry_only_parent (l : list ui_system_info) (e : ui_system_info) :
  populate_parents_entry l e
  = set_reading_parent (reading_parent (populate_parents_entry l e))
      (set_parent (parent (populate_parents_entry l e)) e).
Proof.
  unfold populate_parents_entry.
  destruct (has_parent (driver e)); [destruct (l !! _)|]; destruct e; reflexivity.
Qed.

Section OverlayParents.
Context `{E : Externals} (cat : catalog).

Lemma populate_list_sorted (copydesc : bool) :
  catalog_sorted cat ->
  sorted_by_shortname (m_sorted_list (populate_list cat copydesc persistent_data_new)).
Proof.
  intros Hs. unfold sorted_by_shortname.
  apply (StronglySorted_map driver (fun a b => String.ltb (drv.name a) (drv.name b) = true)).
  now rewrite (proj1 (proj2 (populate_list_shape cat copydesc))).
Qed.

(** X7.  In a build that reads an overlay from a table in ascending order
    of short names, [populate_parents] gives every system whose parent is in
    the list the description and the reading that [load_titles] left in the
    parent's entry, leaves systems with parent "0" as they are, and changes
    no member but [parent] and [reading_parent]. *)
Theorem overlay_parents_follow_titles
    (file : list string) (x : nat) (e : ui_system_info) :
  catalog_sorted cat ->
  let titled_list :=
    fst (load_titles file (m_sorted_list (populate_list cat false persistent_data_new))) in
  titled_list !! x = Some e ->
  exists e',
    populate_parents titled_list !! x = Some e'
    /\ e' = set_reading_parent (reading_parent e') (set_parent (parent e') e)
    /\ (has_parent (driver e) = false -> e' = e)
    /\ (forall p ep,
          has_parent (driver e) = true ->
          titled_list !! p = Some ep ->
          drv.name (driver ep) = drv.parent (driver e) ->
          parent e' = description ep /\ reading_parent e' = reading_description ep).
Proof.
  intros Hcat titled_list He.
  assert (Hs : sorted_by_shortname titled_list).
  { apply (proj2 (load_titles_fills [] file _)). now apply populate_list_sorted. }
  exists (populate_parents_entry titled_list e).
  split; [rewrite populate_parents_map; change (map ?f ?l) with (f <$> l);
          now rewrite list_lookup_fmap, He|].
  split; [apply populate_parents_entry_only_parent|].
  unfold populate_parents_entry.
  destruct (has_parent (driver e)) eqn:Hp.
  - split; [discriminate|].
    intros p ep _ Hep Hname.
    rewrite (lower_bound_exact titled_list _ p ep Hs Hep Hname), Hep. split; reflexivity.
  - split; [reflexivity|discriminate].
Qed.

End OverlayParents.

Lemma alpha_catalog_sorted : catalog_sorted alpha_catalog.
Proof. repeat constructor. Qed.

Lemma overlay_parents_follow_titles_witness :
  exists e',
    populate_parents (fst (load_titles (E := plain_text) deluxe_file alpha_unsorted)) !! 2%nat
    = Some e'
    /\ parent e' = "Alpha Deluxe" /\ reading_parent e' = code_points "Yomi".
Proof.
  set (child := set_description "Alpha Two"
                  (set_is_clone true
                     (emplace (plain_driver "alpha2" "alpha" "Alpha Two") 2 false))).
  set (root := with_reading (E := plain_text) "Yomi"
                 (with_reading (E := plain_text) "Arufa"
                    (set_description "Alpha Deluxe"
                       (emplace (plain_driver "alpha" "0" "Alpha") 1 false)))).
  assert (Hchild : fst (load_titles (E := plain_text) deluxe_file
                          (m_sorted_list (populate_list (E := plain_text) alpha_catalog false
                                            persistent_data_new))) !! 2%nat = Some child)
    by (vm_compute; reflexivity).
  assert (Hroot : fst (load_titles (E := plain_text) deluxe_file
                         (m_sorted_list (populate_list (E := plain_text) alpha_catalog false
                                           persistent_data_new))) !! 1%nat = Some root)
    by (vm_compute; reflexivity).
  destruct (overlay_parents_follow_titles (E := plain_text) alpha_catalog deluxe_file 2 child
              alpha_catalog_sorted Hchild) as (e' & He' & _ & _ & Hparent).
  exists e'. split; [exact He'|].
  destruct (Hparent 1%nat root eq_refl Hroot eq_refl) as [-> ->].
  split; vm_compute; reflexivity.
Defined.

(** ** The build as readers see it *)

Section Progress.
Context `{E : Externals} (cat : catalog).

Lemma stage_bios_count (datpath titles : string) (n : nat) (s : persistent_data) :
  (1 <= n)%nat -> m_bios_count (stage cat datpath titles n s) = m_bios_count s.
Proof.
  intros Hn.
  destruct n as [|[|[|[|[|[|[|[|n]]]]]]]]; try lia; unfold stage; cbv zeta;
    try destruct (try_titles datpath titles);
    cbn [m_bios_count notify_available with_available with_sorted_list with_filter_data];
    reflexivity.
Qed.

Lemma stages_bios_count (datpath titles : string) (n start : nat) (s : persistent_data) :
  (1 <= start)%nat ->
  m_bios_count (fold_left (fun s k => stage cat datpath titles k s) (seq start n) s)
  = m_bios_count s.
Proof.
  revert start s. induction n as [|n IH]; intros start s Hs; [reflexivity|].
  cbn [seq fold_left]. rewrite IH by lia. now apply stage_bios_count.
Qed.

Lemma published_flags (k : nat) :
  (k <= stages)%nat ->
  (Z.land (published k) AVAIL_BIOS_COUNT =? AVAIL_BIOS_COUNT)%Z = (1 <=? k)%nat
  /\ (Z.land (published k) AVAIL_SORTED_LIST =? AVAIL_SORTED_LIST)%Z = (2 <=? k)%nat
  /\ (Z.land (published k) AVAIL_FILTER_DATA =? AVAIL_FILTER_DATA)%Z = (3 <=? k)%nat
  /\ (Z.land (published k) AVAIL_UCS_SHORTNAME =? AVAIL_UCS_SHORTNAME)%Z = (4 <=? k)%nat.
Proof.
  unfold stages. intros Hk.
  destruct k as [|[|[|[|[|[|[|[|[|k]]]]]]]]]; try lia; repeat split.
Qed.

(** X8.  After [cache_data] on a fresh cache and [k] steps of the thread the
    mask holds the first [k] stages of the pipeline and no other: the BIOS
    count can be read after the first step, already with its final value,
    while [sorted_list()] still blocks until the second and [filter_data()]
    until the third; and [reset_cache] blocks in [join] until all eight
    notifications are made. *)
Theorem build_progress (options : ui_options) (k : nat) :
  (k <= stages)%nat ->
  let s := run cat (Call_cache_data options :: repeat Thread_runs k) persistent_data_new in
  m_available s = published k
  /\ bios_count s
     = (if (1 <=? k)%nat then Some (Z.of_nat (length (bios_roots cat))) else None)
  /\ (if (2 <=? k)%nat then sorted_list s = Some (m_sorted_list s) else sorted_list s = None)
  /\ (if (3 <=? k)%nat then filter_data s = Some (m_filter_data s) else filter_data s = None)
  /\ (if (k <? stages)%nat then reset_cache s = None
      else reset_cache s = Some persistent_data_new).
Proof.
  intros Hk s.
  assert (Hrun : s = with_thread
             (Some {| datpath := history_path options; titles := system_names options;
                      progress := k |})
             (fold_left (fun s n => stage cat (history_path options) (system_names options) n s)
                (seq 0 k) (cache_data options persistent_data_new))).
  { unfold s. cbn [run fold_left step].
    change (fold_left (step cat) ?l ?s) with (run cat l s).
    now rewrite (thread_runs_through cat k
                   {| datpath := history_path options; titles := system_names options;
                      progress := 0 |}). }
  assert (Hc : consistent s).
  { unfold s. apply run_consistent. split; reflexivity. }
  assert (Ha : m_available s = published k).
  { unfold consistent in Hc. rewrite Hrun in Hc |- *. cbn [m_thread with_thread progress] in Hc.
    apply Hc. }
  destruct (published_flags k Hk) as (Hb & Hsl & Hf & _).
  split; [exact Ha|]. split; [|split; [|split]].
  - unfold bios_count, is_available. rewrite Ha, Hb.
    destruct k as [|k]; [reflexivity|]. cbn [Nat.leb]. f_equal.
    rewrite Hrun. cbn [m_bios_count with_thread seq fold_left].
    rewrite stages_bios_count by lia.
    unfold stage, cache_data. cbn [m_started persistent_data_new negb]. cbv zeta.
    rewrite populate_list_frame. cbn [m_bios_count notify_available with_available
                                        with_thread with_started].
    apply (populate_list_shape cat).
  - unfold sorted_list, is_available. rewrite Ha, Hsl. destruct (2 <=? k)%nat; reflexivity.
  - unfold filter_data, is_available. rewrite Ha, Hf. destruct (3 <=? k)%nat; reflexivity.
  - unfold reset_cache, joinable_now. rewrite Hrun. cbn [m_thread with_thread progress].
    destruct (Nat.ltb_spec k stages) as [Hlt|Hge].
    + destruct (Nat.leb_spec stages k); [lia|reflexivity].
    + destruct (Nat.leb_spec stages k); [reflexivity|lia].
Qed.

End Progress.

Lemma build_progress_witness :
  bios_count (run (E := plain_text) alpha_catalog
                [Call_cache_data no_titles; Thread_runs] persistent_data_new) = Some 0%Z
  /\ sorted_list (run (E := plain_text) alpha_catalog
                    [Call_cache_data no_titles; Thread_runs] persistent_data_new) = None
  /\ reset_cache (run (E := plain_text) alpha_catalog
                    [Call_cache_data no_titles; Thread_runs] persistent_data_new) = None.
Proof.
  destruct (build_progress (E := plain_text) alpha_catalog no_titles 1 ltac:(vm_compute; lia))
    as (_ & Hb & Hs & _ & Hr).
  split; [exact Hb|]. split; [exact Hs|exact Hr].
Defined.

Section Stable.
Context `{E : Externals} (cat : catalog).

Lemma Forall2_same_system_map (f : ui_system_info -> ui_system_info) (l : list ui_system_info) :
  (forall x, same_system (f x) x) -> Forall2 same_system (map f l) l.
Proof. intros Hf. induction l; constructor; auto. Qed.

Lemma Forall2_same_system_refl (l : list ui_system_info) : Forall2 same_system l l.
Proof. induction l; constructor; [split; reflexivity|assumption]. Qed.

Lemma Forall2_same_system_trans (l1 l2 l3 : list ui_system_info) :
  Forall2 same_system l1 l2 -> Forall2 same_system l2 l3 -> Forall2 same_system l1 l3.
Proof.
  intros H12. revert l3. induction H12 as [|a b l1 l2 [Hk Hi] H12 IH]; intros l3 H23.
  - inversion H23. constructor.
  - inversion H23 as [|? c ? l3' [Hk' Hi'] H23']; subst. constructor.
    + split; congruence.
    + now apply IH.
Qed.

Lemma stage_keeps_published_list (datpath titles : string) (n : nat) (s : persistent_data) :
  (2 <= n)%nat ->
  Forall2 same_system (m_sorted_list (stage cat datpath titles n s)) (m_sorted_list s)
  /\ m_bios_count (stage cat datpath titles n s) = m_bios_count s.
Proof.
  intros Hn. split; [|apply stage_bios_count; lia].
  destruct n as [|[|[|[|[|[|[|[|n]]]]]]]]; try lia; unfold stage; cbv zeta;
    try destruct (try_titles datpath titles);
    cbn [m_sorted_list notify_available with_available with_sorted_list with_filter_data];
    try apply Forall2_same_system_refl;
    apply Forall2_same_system_map; intros x; try (split; reflexivity);
    destruct (default_description_differs x); split; reflexivity.
Qed.

Lemma sorted_list_available_progress (s : persistent_data) :
  consistent s -> is_available AVAIL_SORTED_LIST s = true ->
  exists t, m_thread s = Some t /\ (2 <= progress t <= stages)%nat.
Proof.
  unfold consistent, is_available. destruct (m_thread s) as [t|].
  - intros (_ & Hp & Ha) Hav. exists t. split; [reflexivity|].
    rewrite Ha, (proj1 (proj2 (published_flags _ Hp))) in Hav.
    apply Nat.leb_le in Hav. lia.
  - intros (_ & Ha) Hav. rewrite Ha in Hav. discriminate.
Qed.

Lemma step_keeps_published_list (s : persistent_data) (e : event) :
  consistent s -> is_available AVAIL_SORTED_LIST s = true -> is_reset e = false ->
  Forall2 same_system (m_sorted_list (step cat s e)) (m_sorted_list s)
  /\ m_bios_count (step cat s e) = m_bios_count s.
Proof.
  intros Hc Ha Hr.
  destruct (sorted_list_available_progress s Hc Ha) as (t & Ht & Hp).
  destruct e as [options| |d|included|]; try discriminate; cbn [step].
  - unfold cache_data. unfold consistent in Hc. rewrite Ht in Hc. destruct Hc as (-> & _).
    cbn [negb]. split; [apply Forall2_same_system_refl|reflexivity].
  - split; [apply Forall2_same_system_refl|reflexivity].
  - unfold sorted_list. rewrite Ha. cbn [m_sorted_list with_sorted_list m_bios_count].
    split; [|reflexivity]. apply Forall2_same_system_map. intros x. split; reflexivity.
  - unfold thread_runs. rewrite Ht.
    destruct (Nat.ltb_spec (progress t) stages) as [Hlt|_];
      [|split; [apply Forall2_same_system_refl|reflexivity]].
    cbn [m_sorted_list m_bios_count with_thread].
    apply stage_keeps_published_list. lia.
Qed.

(** X9.  Once the sorted list is published nothing short of [reset_cache]
    adds, removes or reorders its entries or changes a member the
    comparator reads, and the BIOS count keeps its value: the later stages
    of the thread and the menu's availability marks only fill other
    members, so the references and positions readers hold stay good. *)
Theorem published_list_is_stable (events : list event) (s : persistent_data) :
  consistent s ->
  is_available AVAIL_SORTED_LIST s = true ->
  forallb (fun e => negb (is_reset e)) events = true ->
  Forall2 same_system (m_sorted_list (run cat events s)) (m_sorted_list s)
  /\ m_bios_count (run cat events s) = m_bios_count s.
Proof.
  revert s. induction events as [|e events IH]; intros s Hc Ha Hno.
  - split; [apply Forall2_same_system_refl|reflexivity].
  - cbn [forallb] in Hno. apply andb_true_iff in Hno as [He Hno]. apply negb_true_iff in He.
    destruct (step_keeps_published_list s e Hc Ha He) as [Hl Hb].
    destruct (IH (step cat s e) (step_consistent cat s e Hc)
                (step_available cat s e _ He Ha) Hno) as [Hl' Hb'].
    cbn [run fold_left]. change (fold_left (step cat) events ?x) with (run cat events x).
    split; [|congruence].
    eapply Forall2_same_system_trans; eassumption.
Qed.

End Stable.

Lemma published_list_is_stable_witness :
  map description
    (m_sorted_list
       (run (E := plain_text) alpha_catalog
          [Thread_runs; Call_mark_available (fun _ => true); Thread_runs]
          (run (E := plain_text) alpha_catalog
             [Call_cache_data no_titles; Thread_runs; Thread_runs] persistent_data_new)))
  = ["Alpha"; "Alpha Two"; "Beta"].
Proof.
  destruct (published_list_is_stable (E := plain_text) alpha_catalog
              [Thread_runs; Call_mark_available (fun _ => true); Thread_runs]
              (run (E := plain_text) alpha_catalog
                 [Call_cache_data no_titles; Thread_runs; Thread_runs] persistent_data_new))
    as [Hl _].
  - apply run_consistent. split; reflexivity.
  - vm_compute. reflexivity.
  - reflexivity.
  - clear Hl. vm_compute. reflexivity.
Defined.

(** ** What the ranker compares *)

Section RankerFields.
Context `{E : Externals}.

Lemma allowed_if (fields : Z) (sys : ui_system_info) (c : bool) (a b : Q * list compared) :
  (c = true -> Forall (comparison_allowed fields sys) (snd a)) ->
  (c = false -> Forall (comparison_allowed fields sys) (snd b)) ->
  Forall (comparison_allowed fields sys) (snd (if c then a else b)).
Proof. destruct c; auto. Qed.

Lemma allowed_improve (fields : Z) (ucs_search : u32string) (sys : ui_system_info)
    (f : field) (st : Q * list compared) :
  comparison_allowed fields sys (f, fst st, fst (improve ucs_search sys f st)) ->
  Forall (comparison_allowed fields sys) (snd st) ->
  Forall (comparison_allowed fields sys) (snd (improve ucs_search sys f st)).
Proof.
  intros Hf Hst. unfold improve. cbn [snd fst] in *. apply Forall_app. split; [exact Hst|].
  constructor; [exact Hf|constructor].
Qed.

Ltac use_conditions :=
  repeat match goal with
  | H : (_ && _) = true |- _ => apply andb_true_iff in H; destruct H
  | H : negb _ = true |- _ => apply negb_true_iff in H
  end.

Ltac allowed_steps :=
  lazymatch goal with
  | |- Forall _ (snd (if _ then _ else _)) => apply allowed_if; intros ?; allowed_steps
  | |- Forall _ (snd (improve _ _ _ _)) =>
      apply allowed_improve;
      [unfold comparison_allowed; cbn [fst]; use_conditions; repeat split; assumption
      |allowed_steps]
  | |- Forall _ (snd (assign _ _ _ _)) =>
      unfold assign; cbn [snd app]; constructor; [assumption|constructor]
  | |- Forall _ (snd (_, _)) => constructor
  end.

Lemma score_trace_allowed (fields : Z) (ucs_search : u32string) (sys : ui_system_info) :
  Forall (comparison_allowed fields sys) (snd (score_trace fields ucs_search sys)).
Proof.
  unfold score_trace. cbv zeta. allowed_steps.
Qed.

Lemma check_available_searched (pd : persistent_data) (old : Z) :
  Forall (fun flag =>
            searched (check_available pd old) flag
            = searched old flag || is_available flag pd)
    [AVAIL_UCS_SHORTNAME; AVAIL_UCS_DESCRIPTION; AVAIL_UCS_MANUF_DESC;
     AVAIL_UCS_DFLT_DESC; AVAIL_UCS_MANUF_DFLT_DESC].
Proof.
  assert (Hbit : forall x k, (0 <= k)%Z ->
            searched x (Z.shiftl 1 k) = Z.testbit x k).
  { intros x k Hk. unfold searched. rewrite Z.shiftl_1_l.
    destruct (Z.testbit x k) eqn:Hx.
    - apply negb_true_iff, Z.eqb_neq. intros Hz.
      pose proof (f_equal (fun z => Z.testbit z k) Hz) as Hb. cbv beta in Hb.
      rewrite Z.land_spec, Hx, Z.pow2_bits_true, Z.bits_0 in Hb by lia. discriminate.
    - apply negb_false_iff, Z.eqb_eq. apply Z.bits_inj'. intros n Hn.
      rewrite Z.land_spec, Z.pow2_bits_eqb, Z.bits_0 by lia.
      destruct (Z.eqb_spec k n) as [<-|Hne]; [now rewrite Hx|apply andb_false_r]. }
  assert (Hav : forall k, (0 <= k)%Z ->
            is_available (Z.shiftl 1 k) pd = Z.testbit (m_available pd) k).
  { intros k Hk. unfold is_available. rewrite Z.shiftl_1_l.
    destruct (Z.testbit (m_available pd) k) eqn:Hx.
    - apply Z.eqb_eq. apply Z.bits_inj'. intros n Hn.
      rewrite Z.land_spec, Z.pow2_bits_eqb by lia.
      destruct (Z.eqb_spec k n) as [<-|_]; [now rewrite Hx|apply andb_false_r].
    - apply Z.eqb_neq. intros Hz.
      pose proof (f_equal (fun z => Z.testbit z k) Hz) as Hb. cbv beta in Hb.
      rewrite Z.land_spec, Hx, Z.pow2_bits_true in Hb by lia. discriminate. }
  unfold check_available. cbv zeta.
  unfold AVAIL_UCS_SHORTNAME, AVAIL_UCS_DESCRIPTION, AVAIL_UCS_MANUF_DESC,
    AVAIL_UCS_DFLT_DESC, AVAIL_UCS_MANUF_DFLT_DESC in *.
  rewrite !Forall_cons. repeat split; try (apply Forall_nil_2);
    rewrite !Hbit, !Hav by lia;
    repeat match goal with
    | |- context [if Z.testbit (m_available pd) ?k then _ else _] =>
        destruct (Z.testbit (m_available pd) k)
    end; rewrite ?Z.lor_spec, ?Z.shiftl_spec by lia; cbn;
    rewrite ?orb_false_r, ?orb_true_r; reflexivity.
Qed.

(** X10.  [populate_search] keeps in [m_searched_fields] the stages that
    were published when it ran, added to those the menu already had, and
    scores every entry with that mask: it compares a field only if its stage
    is in the mask (for the default description and its manufacturer form,
    both their stages), and the reading, the default description and their
    manufacturer forms only for an entry that has the text; the reading
    needs no stage at all.  So at a later call on the same menu a stage is
    searched exactly when it is published then, was published at the earlier
    call, or was searched before it. *)
Theorem ranker_compares_only_searched_fields
    (pd : persistent_data) (m m' : menu_select_game) :
  populate_search pd m = Some m' ->
  m_searched_fields m' = check_available pd (m_searched_fields m)
  /\ Forall (fun flag =>
               searched (m_searched_fields m') flag
               = searched (m_searched_fields m) flag || is_available flag pd)
       [AVAIL_UCS_SHORTNAME; AVAIL_UCS_DESCRIPTION; AVAIL_UCS_MANUF_DESC;
        AVAIL_UCS_DFLT_DESC; AVAIL_UCS_MANUF_DFLT_DESC]
  /\ (forall entry sys,
        In entry (m_searchlist m') ->
        m_sorted_list pd !! snd entry = Some sys ->
        fst entry
        = fst (score_trace (m_searched_fields m') (ucs_normalize (m_search m)) sys)
        /\ Forall (comparison_allowed (m_searched_fields m') sys)
             (snd (score_trace (m_searched_fields m') (ucs_normalize (m_search m)) sys)))
  /\ (forall pd2 later m2,
        m_searched_fields later = m_searched_fields m' ->
        populate_search pd2 later = Some m2 ->
        Forall (fun flag =>
                  searched (m_searched_fields m2) flag
                  = searched (m_searched_fields m) flag || is_available flag pd
                    || is_available flag pd2)
          [AVAIL_UCS_SHORTNAME; AVAIL_UCS_DESCRIPTION; AVAIL_UCS_MANUF_DESC;
           AVAIL_UCS_DFLT_DESC; AVAIL_UCS_MANUF_DFLT_DESC]).
Proof.
  intros Hsearch.
  assert (Hfields : forall pd0 m0 m1, populate_search pd0 m0 = Some m1 ->
            m_searched_fields m1 = check_available pd0 (m_searched_fields m0)).
  { intros pd0 m0 m1 H0. unfold populate_search in H0.
    destruct (ensure_populated pd0 m0); [|discriminate].
    injection H0 as <-. reflexivity. }
  pose proof (Hfields pd m m' Hsearch) as Hmask.
  split; [exact Hmask|]. split; [|split].
  - rewrite Hmask. apply check_available_searched.
  - intros entry sys Hin Hsys. split; [|apply score_trace_allowed].
    rewrite score_trace_score, Hmask.
    unfold populate_search in Hsearch.
    destruct (ensure_populated pd m) as [searchlist|]; [|discriminate].
    injection Hsearch as <-. cbn [m_searchlist] in Hin.
    eapply Permutation_in in Hin; [|apply stable_sort_perm].
    apply in_map_iff in Hin. destruct Hin as (info & <- & _).
    cbn [fst snd] in *. unfold score_ref. rewrite Hsys. reflexivity.
  - intros pd2 later m2 Hlater Hsearch2.
    pose proof (Hfields pd2 later m2 Hsearch2) as Hmask2.
    rewrite Hmask2, Hlater.
    pose proof (check_available_searched pd2 (m_searched_fields m')) as H2.
    pose proof (check_available_searched pd (m_searched_fields m)) as H1.
    rewrite <- Hmask in H1.
    rewrite Forall_forall in H1, H2 |- *. intros flag Hflag.
    rewrite (H2 flag Hflag), (H1 flag Hflag). reflexivity.
Qed.

End RankerFields.

Lemma ranker_compares_only_searched_fields_witness :
  exists m',
    populate_search (E := plain_text) alpha_cache (new_menu "beta") = Some m'
    /\ m_searched_fields m' = check_available alpha_cache (m_searched_fields (new_menu "beta"))
    /\ Forall (fun flag =>
                 searched (m_searched_fields m') flag
                 = searched (m_searched_fields (new_menu "beta")) flag
                   || is_available flag alpha_cache)
         [AVAIL_UCS_SHORTNAME; AVAIL_UCS_DESCRIPTION; AVAIL_UCS_MANUF_DESC;
          AVAIL_UCS_DFLT_DESC; AVAIL_UCS_MANUF_DFLT_DESC]
    /\ (forall entry sys,
          In entry (m_searchlist m') ->
          m_sorted_list alpha_cache !! snd entry = Some sys ->
          fst entry
          = fst (score_trace (E := plain_text) (m_searched_fields m')
                   (ucs_normalize (E := plain_text) (m_search (new_menu "beta"))) sys)
          /\ Forall (comparison_allowed (m_searched_fields m') sys)
               (snd (score_trace (E := plain_text) (m_searched_fields m')
                       (ucs_normalize (E := plain_text) (m_search (new_menu "beta"))) sys)))
    /\ (forall pd2 later m2,
          m_searched_fields later = m_searched_fields m' ->
          populate_search (E := plain_text) pd2 later = Some m2 ->
          Forall (fun flag =>
                    searched (m_searched_fields m2) flag
                    = searched (m_searched_fields (new_menu "beta")) flag
                      || is_available flag alpha_cache || is_available flag pd2)
            [AVAIL_UCS_SHORTNAME; AVAIL_UCS_DESCRIPTION; AVAIL_UCS_MANUF_DESC;
             AVAIL_UCS_DFLT_DESC; AVAIL_UCS_MANUF_DFLT_DESC]).
Proof.
  destruct (populate_search (E := plain_text) alpha_cache (new_menu "beta")) as [m'|] eqn:Hsearch;
    [|vm_compute in Hsearch; discriminate].
  exists m'. split; [reflexivity|].
  exact (ranker_compares_only_searched_fields (E := plain_text) alpha_cache
           (new_menu "beta") m' Hsearch).
Defined.

Section RankerMinimum.
Context `{E : Externals}.

Lemma std_min_bounds (new cur : Q) :
  (std_min new cur <= new)%Q /\ (std_min new cur <= cur)%Q
  /\ ((std_min new cur == new)%Q \/ (std_min new cur == cur)%Q).
Proof.
  unfold std_min. destruct (Qltb cur new) eqn:Hlt.
  - apply Qltb_lt in Hlt. repeat split; [now apply Qlt_le_weak|apply Qle_refl|].
    right. reflexivity.
  - apply Qltb_ge in Hlt. repeat split; [apply Qle_refl|exact Hlt|]. left. reflexivity.
Qed.

Lemma least_if (fields : Z) (ucs_search : u32string) (sys : ui_system_info) (c : bool)
    (a b : Q * list compared) :
  (c = true -> least_distance fields ucs_search sys a) ->
  (c = false -> least_distance fields ucs_search sys b) ->
  least_distance fields ucs_search sys (if c then a else b).
Proof. destruct c; auto. Qed.

Lemma least_improve (fields : Z) (ucs_search : u32string) (sys : ui_system_info)
    (f : field) (st : Q * list compared) :
  least_distance fields ucs_search sys st ->
  least_distance fields ucs_search sys (improve ucs_search sys f st).
Proof.
  intros (Hall & Hsome & Hone). unfold least_distance, improve. cbn [fst snd].
  destruct (std_min_bounds (edit_distance ucs_search (field_text f sys)) (fst st))
    as (Hd & Hcur & Heq).
  split; [|split].
  - apply Forall_app. split.
    + eapply Forall_impl; [exact Hall|]. intros c Hc. cbv beta in *.
      eapply Qle_trans; [exact Hcur|exact Hc].
    + constructor; [exact Hd|constructor].
  - destruct Heq as [Heq|Heq].
    + right. apply Exists_app. right. constructor. exact Heq.
    + destruct Hsome as [H1|Hex].
      * left. now rewrite Heq.
      * right. apply Exists_app. left. eapply Exists_impl; [exact Hex|].
        intros c Hc. cbv beta in *. now rewrite Heq.
  - intros Hs. eapply Qle_trans; [exact Hcur|auto].
Qed.

Lemma least_assign (fields : Z) (ucs_search : u32string) (sys : ui_system_info) :
  searched fields AVAIL_UCS_SHORTNAME = true ->
  least_distance fields ucs_search sys (assign ucs_search sys Shortname (1%Q, [])).
Proof.
  intros Hs. unfold least_distance, assign. cbn [fst snd app]. split; [|split].
  - constructor; [apply Qle_refl|constructor].
  - right. constructor. reflexivity.
  - congruence.
Qed.

Ltac least_steps :=
  lazymatch goal with
  | |- least_distance _ _ _ (if _ then _ else _) => apply least_if; intros ?; least_steps
  | |- least_distance _ _ _ (improve _ _ _ _) => apply least_improve; least_steps
  | |- least_distance _ _ _ (assign _ _ _ _) => apply least_assign; assumption
  | |- least_distance _ _ _ (_, _) =>
      split; [constructor|split; [left; reflexivity|intros _; apply Qle_refl]]
  end.

(** X11.  The score the loop body leaves is the least of the distances it
    compared: not above the distance to any compared field, equal to one of
    them unless it is still the initial 1.0, and never above 1.0 while the
    short names are not searched. *)
Theorem score_is_least_distance (fields : Z) (ucs_search : u32string) (sys : ui_system_info) :
  fst (score_trace fields ucs_search sys) = score fields ucs_search sys
  /\ least_distance fields ucs_search sys (score_trace fields ucs_search sys).
Proof.
  split; [apply score_trace_score|].
  unfold score_trace. cbv zeta. least_steps.
Qed.

End RankerMinimum.

Lemma stable_sort_unordered {A : Type} (comp : A -> A -> bool) (l : list A) :
  (forall a b, In a l -> In b l -> comp a b = false) -> stable_sort comp l = l.
Proof.
  induction l as [|x l IH]; intros H; [reflexivity|].
  cbn [stable_sort fold_right]. change (fold_right (stable_insert comp) [] l)
    with (stable_sort comp l).
  rewrite IH by (intros a b Ha Hb; apply H; now right).
  destruct l as [|y l]; [reflexivity|]. cbn [stable_insert].
  rewrite H; [reflexivity|right; now left|now left].
Qed.

Section RankerList.
Context `{E : Externals}.

Lemma check_available_keeps (pd : persistent_data) (old : Z) :
  Z.land (check_available pd old) old = old.
Proof.
  unfold check_available. cbv zeta.
  repeat match goal with
  | |- context [if ?c then _ else _] => destruct c
  end;
  repeat (apply lor_keeps_available); apply Z.land_diag.
Qed.

(** X12.  [populate_search] blocks only when its list is empty and the
    sorted list is not published.  When it returns, the search text is as it
    was, no searched stage has been dropped, and the list holds the same
    references as before, or one per entry of the sorted list if it was
    empty; while nothing is published and no entry has a reading every
    score is 1.0 and the order of the list is not changed. *)
Theorem populate_search_keeps_entries (pd : persistent_data) (m : menu_select_game) :
  (populate_search pd m = None
   <-> vec_empty (m_searchlist m) = true /\ is_available AVAIL_SORTED_LIST pd = false)
  /\ (forall m' searchlist,
        populate_search pd m = Some m' -> ensure_populated pd m = Some searchlist ->
        m_search m' = m_search m
        /\ Z.land (m_searched_fields m') (m_searched_fields m) = m_searched_fields m
        /\ Permutation (map snd (m_searchlist m')) (map snd searchlist)
        /\ (vec_empty (m_searchlist m) = true ->
            map snd searchlist = seq 0 (length (m_sorted_list pd)))
        /\ (vec_empty (m_searchlist m) = false -> searchlist = m_searchlist m)
        /\ (check_available pd (m_searched_fields m) = AVAIL_NONE ->
            Forall (fun sys => vec_empty (ucs_reading_description sys) = true)
              (m_sorted_list pd) ->
            m_searchlist m' = map (fun info => (1%Q, snd info)) searchlist)).
Proof.
  split.
  - unfold populate_search, ensure_populated, sorted_list.
    destruct (vec_empty (m_searchlist m)); [|split; [discriminate|intros [? _]; discriminate]].
    destruct (is_available AVAIL_SORTED_LIST pd); split; try discriminate; auto.
    intros [_ ?]. discriminate.
  - intros m' searchlist Hm' Hpop. unfold populate_search in Hm'. rewrite Hpop in Hm'.
    injection Hm' as <-. cbn [m_search m_searched_fields m_searchlist].
    split; [reflexivity|]. split; [apply check_available_keeps|].
    split; [|split; [|split]].
    + rewrite (Permutation_map snd (stable_sort_perm by_score _)), map_map. cbn [snd].
      reflexivity.
    + intros Hempty. unfold ensure_populated, sorted_list in Hpop. rewrite Hempty in Hpop.
      destruct (is_available AVAIL_SORTED_LIST pd); [|discriminate].
      injection Hpop as <-. rewrite map_map. cbn [snd]. apply map_id.
    + intros Hfull. unfold ensure_populated in Hpop. rewrite Hfull in Hpop. congruence.
    + intros Hnone Hread. rewrite Hnone.
      assert (Hone : forall ref, score_ref pd AVAIL_NONE (ucs_normalize (m_search m)) ref = 1%Q).
      { intros ref. unfold score_ref.
        destruct (m_sorted_list pd !! ref) as [sys|] eqn:Hsys; [|reflexivity].
        rewrite Forall_forall in Hread.
        unfold score. cbv zeta.
        rewrite (Hread sys) by (eapply list_elem_of_lookup_2; eassumption).
        reflexivity. }
      rewrite (map_ext _ (fun info => (1%Q, snd info))) by (intros a; now rewrite Hone).
      apply stable_sort_unordered. intros a b Ha Hb.
      apply in_map_iff in Ha as (a0 & <- & _). apply in_map_iff in Hb as (b0 & <- & _).
      reflexivity.
Qed.

End RankerList.

Lemma populate_search_keeps_entries_witness :
  exists m',
    populate_search (E := plain_text) alpha_cache (new_menu "beta") = Some m'
    /\ m_search m' = "beta"
    /\ Permutation (map snd (m_searchlist m')) [0; 1; 2]%nat.
Proof.
  destruct (populate_search (E := plain_text) alpha_cache (new_menu "beta")) as [m'|] eqn:Hm';
    [|vm_compute in Hm'; discriminate].
  destruct (populate_search_keeps_entries (E := plain_text) alpha_cache (new_menu "beta"))
    as [_ Hkeep].
  destruct (Hkeep m' [(1%Q, 0%nat); (1%Q, 1%nat); (1%Q, 2%nat)] Hm' eq_refl)
    as (Hsearch & _ & Hperm & _).
  exists m'. split; [reflexivity|]. split; [exact Hsearch|exact Hperm].
Defined.

(** ** change_info_pane *)

Lemma to_int_to_unsigned (x : Z) :
  (- 2 ^ 31 <= x < 2 ^ 31)%Z -> to_int (to_unsigned x) = x.
Proof.
  intros Hx. unfold to_int, to_unsigned.
  destruct (Z.ltb_spec (x mod 2 ^ 32) (2 ^ 31)) as [Hlt|Hge].
  - destruct (Z.le_gt_cases 0 x) as [Hpos|Hneg].
    + apply Z.mod_small. lia.
    + rewrite <- (Z.mod_add x 1) in Hlt by lia.
      rewrite Z.mod_small in Hlt by lia. lia.
  - destruct (Z.le_gt_cases 0 x) as [Hpos|Hneg].
    + rewrite Z.mod_small in Hge by lia. lia.
    + rewrite <- (Z.mod_add x 1) by lia. rewrite Z.mod_small by lia. lia.
Qed.

Lemma cap_delta_view (delta current total topline : Z) :
  (- 2 ^ 31 < delta < 2 ^ 31)%Z ->
  (0 <= current <= 255)%Z -> (0 <= total <= 255)%Z ->
  ((current < total)%Z ->
   snd (fst (cap_delta delta current total topline))
   = Z.max 0 (Z.min (total - 1) (current + delta))
   /\ snd (cap_delta delta current total topline)
      = (if (snd (fst (cap_delta delta current total topline)) =? current)%Z
         then topline else 0)%Z)
  /\ ((total <= current)%Z -> (0 < delta)%Z ->
      snd (fst (cap_delta delta current total topline)) = ((total - 1) mod 2 ^ 8)%Z).
Proof.
  intros Hd Hc Ht. unfold cap_delta. cbv zeta.
  rewrite (to_int_to_unsigned current) by lia.
  rewrite (to_int_to_unsigned (total - current - 1)) by lia.
  assert (Hu : forall x, (0 <= x < 2 ^ 32)%Z -> to_unsigned x = x)
    by (intros x Hx; apply Z.mod_small; exact Hx).
  split.
  - intros Hlt.
    destruct (Z.gtb_spec 0 delta) as [Hneg|Hnn]; cbn [andb].
    + destruct (Z.gtb_spec (- delta) current) as [Hfar|Hnear].
      * destruct (Z.eqb_spec (- current) 0) as [Hz|Hnz]; cbn [negb fst snd].
        -- assert (current = 0)%Z by lia. subst current.
           rewrite Z.eqb_refl. split; [lia|reflexivity].
        -- unfold to_uint8. rewrite Z.add_opp_diag_r, Z.mod_0_l by lia.
           destruct (Z.eqb_spec 0 current); [lia|]. split; [lia|reflexivity].
      * destruct (Z.ltb_spec 0 delta); [lia|]. cbn [andb].
        destruct (Z.eqb_spec delta 0); [lia|]. cbn [negb fst snd].
        unfold to_uint8. rewrite Z.mod_small by lia.
        destruct (Z.eqb_spec (current + delta) current); [lia|]. split; [lia|reflexivity].
    + destruct (Z.ltb_spec 0 delta) as [Hpos|Hz]; cbn [andb].
      * rewrite (Hu current), (Hu delta), (Hu total), (Hu (current + delta)%Z) by lia.
        destruct (Z.geb_spec (current + delta) total) as [Hfar|Hnear].
        -- destruct (Z.eqb_spec (total - current - 1) 0) as [Hz|Hnz]; cbn [negb fst snd].
           ++ rewrite Z.eqb_refl. split; [lia|reflexivity].
           ++ unfold to_uint8. rewrite Z.mod_small by lia.
              destruct (Z.eqb_spec (current + (total - current - 1)) current); [lia|].
              split; [lia|reflexivity].
        -- destruct (Z.eqb_spec delta 0); [lia|]. cbn [negb fst snd].
           unfold to_uint8. rewrite Z.mod_small by lia.
           destruct (Z.eqb_spec (current + delta) current); [lia|]. split; [lia|reflexivity].
      * assert (delta = 0)%Z by lia. subst delta. cbn [Z.eqb negb fst snd].
        rewrite Z.eqb_refl. split; [lia|reflexivity].
  - intros Hge Hpos.
    destruct (Z.gtb_spec 0 delta); [lia|]. cbn [andb].
    destruct (Z.ltb_spec 0 delta); [|lia]. cbn [andb].
    rewrite (Hu current), (Hu delta), (Hu total), (Hu (current + delta)%Z) by lia.
    destruct (Z.geb_spec (current + delta) total); [|lia].
    destruct (Z.eqb_spec (total - current - 1) 0); [lia|]. cbn [negb fst snd].
    unfold to_uint8. f_equal. lia.
Qed.

(** X13.  [cap_delta] clamps: for a view inside its range and a [delta]
    that is an [int] other than [INT_MIN], the new view is
    [current + delta] cut to [0, total - 1], and the top line of the text is
    reset exactly when the view moved.  With a view at or past [total] (a
    total of 0, say) a positive [delta] moves the view to [total - 1] as a
    [uint8_t], which for a total of 0 is 255. *)
Theorem cap_delta_clamps (delta current total topline : Z) :
  (- 2 ^ 31 < delta < 2 ^ 31)%Z ->
  (0 <= current <= 255)%Z -> (0 <= total <= 255)%Z ->
  ((current < total)%Z ->
   snd (fst (cap_delta delta current total topline))
   = Z.max 0 (Z.min (total - 1) (current + delta))
   /\ snd (cap_delta delta current total topline)
      = (if (snd (fst (cap_delta delta current total topline)) =? current)%Z
         then topline else 0)%Z)
  /\ ((total <= current)%Z -> (0 < delta)%Z ->
      snd (fst (cap_delta delta current total topline)) = ((total - 1) mod 2 ^ 8)%Z).
Proof. exact (cap_delta_view delta current total topline). Qed.

Lemma cap_delta_clamps_witness :
  snd (fst (cap_delta 1 2 3 7)) = 2%Z /\ snd (cap_delta 1 2 3 7) = 7%Z
  /\ snd (fst (cap_delta (-1) 2 3 7)) = 1%Z /\ snd (cap_delta (-1) 2 3 7) = 0%Z
  /\ snd (fst (cap_delta 1 0 0 7)) = 255%Z.
Proof.
  destruct (cap_delta_clamps 1 2 3 7 ltac:(lia) ltac:(lia) ltac:(lia)) as [Hin _].
  destruct (Hin ltac:(lia)) as [Hview Htop].
  destruct (cap_delta_clamps (-1) 2 3 7 ltac:(lia) ltac:(lia) ltac:(lia)) as [Hin' _].
  destruct (Hin' ltac:(lia)) as [Hview' Htop'].
  destruct (cap_delta_clamps 1 0 0 7 ltac:(lia) ltac:(lia) ltac:(lia)) as [_ Hout].
  split; [exact Hview|]. split; [rewrite Htop; reflexivity|].
  split; [exact Hview'|]. split; [rewrite Htop'; reflexivity|].
  exact (Hout ltac:(lia) ltac:(lia)).
Defined.

(** X14.  [change_info_pane] keeps both info views inside their ranges
    whatever [delta] it is given (short of [INT_MIN]), never changes a total,
    and changes nothing at all when the selected item is one of the special
    items at or below [skip_main_items]. *)
Theorem change_info_pane_keeps_views_in_range (delta : Z) (favorites : bool)
    (selected skip_main_items startempty : Z) (p : info_pane) :
  (- 2 ^ 31 < delta < 2 ^ 31)%Z ->
  views_in_range p ->
  let p' := change_info_pane delta favorites selected skip_main_items startempty p in
  views_in_range p'
  /\ curdats_total p' = curdats_total p
  /\ cur_sw_dats_total p' = cur_sw_dats_total p
  /\ ((selected <= skip_main_items)%Z -> p' = p).
Proof.
  intros Hdelta (Hview & Htotal & Hswview & Hswtotal). cbv zeta.
  assert (Hsys := cap_delta_view delta (curdats_view p) (curdats_total p)
                    (m_topline_datsview p) Hdelta ltac:(lia) ltac:(lia)).
  assert (Hsw := cap_delta_view delta (cur_sw_dats_view p) (cur_sw_dats_total p)
                   (m_topline_datsview p) Hdelta ltac:(lia) ltac:(lia)).
  destruct Hsys as [Hsys _]. destruct (Hsys ltac:(lia)) as [Hsys' _]. clear Hsys.
  destruct Hsw as [Hsw _]. destruct (Hsw ltac:(lia)) as [Hsw' _]. clear Hsw.
  unfold change_info_pane, views_in_range.
  destruct (cap_delta delta (curdats_view p) (curdats_total p) (m_topline_datsview p))
    as [[d1 c1] t1].
  destruct (cap_delta delta (cur_sw_dats_view p) (cur_sw_dats_total p) (m_topline_datsview p))
    as [[d2 c2] t2].
  cbn [fst snd] in Hsys', Hsw'.
  destruct (Z.gtb_spec selected skip_main_items) as [Hgt|Hle];
    destruct favorites; cbn [negb];
    try destruct (negb (startempty =? 0)%Z);
    cbn [curdats_view curdats_total cur_sw_dats_view cur_sw_dats_total];
    repeat split; try lia; try reflexivity.
Qed.

Lemma change_info_pane_keeps_views_in_range_witness :
  let p := {| curdats_view := 2; curdats_total := 3; cur_sw_dats_view := 0;
              cur_sw_dats_total := 1; m_topline_datsview := 7 |} in
  let p' := change_info_pane 5 false 4096 3 0 p in
  views_in_range p'
  /\ curdats_total p' = curdats_total p
  /\ cur_sw_dats_total p' = cur_sw_dats_total p
  /\ ((4096 <= 3)%Z -> p' = p).
Proof.
  intros p.
  apply (change_info_pane_keeps_views_in_range 5 false 4096 3 0 p).
  - lia.
  - unfold views_in_range, p. cbn. lia.
Defined.

(** ** populate: the list of systems shown *)

Section PopulateFacts.
Context `{E : Externals}.
Variable MAX_VISIBLE_SEARCH : nat.
Variable is_favorite_filter : machine_filter_data -> bool.
Variable get_current_filter : machine_filter_data -> option machine_filter.
Variable reselect_last_driver : string.

Lemma search_filtered_spec sorted flt it displaylist :
  length displaylist <= MAX_VISIBLE_SEARCH ->
  search_filtered MAX_VISIBLE_SEARCH sorted flt it displaylist
  = displaylist
    ++ take (MAX_VISIBLE_SEARCH - length displaylist)
         (List.filter (apply_ref sorted flt) (map snd it)).
Proof.
  revert displaylist. induction it as [|entry rest IH]; intros displaylist Hlen.
  - cbn. rewrite take_nil, app_nil_r. reflexivity.
  - cbn [search_filtered map List.filter].
    destruct (Nat.ltb_spec (length displaylist) MAX_VISIBLE_SEARCH) as [Hlt|Hge].
    + destruct (apply_ref sorted flt (snd entry)).
      * rewrite IH by (rewrite length_app; cbn; lia).
        rewrite length_app. cbn [length].
        replace (MAX_VISIBLE_SEARCH - length displaylist)
          with (S (MAX_VISIBLE_SEARCH - (length displaylist + 1))) by lia.
        cbn [take]. rewrite <- app_assoc. reflexivity.
      * apply IH. exact Hlen.
    + replace (MAX_VISIBLE_SEARCH - length displaylist) with 0 by lia.
      rewrite take_0, app_nil_r. reflexivity.
Qed.

Lemma search_unfiltered_spec searchlist :
  search_unfiltered MAX_VISIBLE_SEARCH searchlist
  = take MAX_VISIBLE_SEARCH (map snd searchlist).
Proof.
  unfold search_unfiltered. rewrite <- fmap_take. f_equal.
  destruct (Nat.le_ge_cases (length searchlist) MAX_VISIBLE_SEARCH) as [Hle|Hge].
  - rewrite Nat.min_l by exact Hle. rewrite !take_ge by lia. reflexivity.
  - rewrite Nat.min_r by exact Hge. reflexivity.
Qed.

Lemma filter_all {A} (l : list A) : List.filter (fun _ => true) l = l.
Proof. induction l as [|x l IH]; cbn; [reflexivity | rewrite IH; reflexivity]. Qed.

(** X15.  With a search text and the system list shown, [populate] runs
    the ranker and shows the first [MAX_VISIBLE_SEARCH] entries of the
    ranking that the current filter lets through, in ranking order: the
    entries cut off are the worst ranked ones, and a filter is applied before
    the cut, not after it. *)
Theorem search_display_is_ranked_prefix (pd : persistent_data) (m : menu_select_game)
    (data : machine_filter_data) :
  filter_data pd = Some data ->
  is_available AVAIL_SORTED_LIST pd = true ->
  is_favorite_filter data = false ->
  str_empty (m_search m) = false ->
  exists ranked p,
    populate_search pd m = Some ranked
    /\ populate MAX_VISIBLE_SEARCH is_favorite_filter get_current_filter
         reselect_last_driver pd m = Some (Systems p)
    /\ populated_menu p = ranked
    /\ m_displaylist p
       = take MAX_VISIBLE_SEARCH
           (List.filter (accepted (m_sorted_list pd) (get_current_filter data))
              (map snd (m_searchlist ranked)))
    /\ length (m_displaylist p) <= MAX_VISIBLE_SEARCH.
Proof.
  intros Hdata Hsorted Hfav Hsearch.
  assert (Hranked : exists ranked, populate_search pd m = Some ranked).
  { unfold populate_search, ensure_populated, sorted_list. rewrite Hsorted.
    destruct (vec_empty (m_searchlist m)); eexists; reflexivity. }
  destruct Hranked as [ranked Hranked].
  unfold populate. rewrite Hdata, Hfav, Hsearch, Hranked. cbn [negb].
  set (displaylist := match get_current_filter data with
                      | Some flt => search_filtered _ _ flt _ []
                      | None => search_unfiltered _ _
                      end).
  destruct (fold_left _ displaylist _) as [[items old] curitem].
  exists ranked. eexists. split; [reflexivity|]. split; [reflexivity|].
  cbn [populated_menu m_displaylist]. split; [reflexivity|].
  assert (Hdisplay : displaylist
          = take MAX_VISIBLE_SEARCH
              (List.filter (accepted (m_sorted_list pd) (get_current_filter data))
                 (map snd (m_searchlist ranked)))).
  { unfold displaylist, accepted. destruct (get_current_filter data) as [flt|].
    - rewrite search_filtered_spec by (cbn; lia). cbn [length app].
      rewrite Nat.sub_0_r. reflexivity.
    - rewrite search_unfiltered_spec, filter_all. reflexivity. }
  split; [exact Hdisplay|]. rewrite Hdisplay, length_take. lia.
Qed.

Lemma append_system_fold sorted refs items old :
  exists old',
    fold_left (append_system reselect_last_driver sorted) refs
      (items, old, Z.of_nat (length items))
    = (items ++ omap (system_item sorted) refs, old',
       Z.of_nat (length (items ++ omap (system_item sorted) refs)))
    /\ (old <> (-1)%Z -> old' = old)
    /\ (old = (-1)%Z ->
        (old' = (-1)%Z
         /\ Forall (fun it => refers_to sorted reselect_last_driver (item_ref it) = false)
              (omap (system_item sorted) refs))
        \/ (exists i it,
              old' = Z.of_nat (length items + i)
              /\ omap (system_item sorted) refs !! i = Some it
              /\ refers_to sorted reselect_last_driver (item_ref it) = true
              /\ Forall (fun it => refers_to sorted reselect_last_driver (item_ref it) = false)
                   (take i (omap (system_item sorted) refs)))).
Proof.
  revert items old. induction refs as [|ref refs IH]; intros items old.
  - cbn. rewrite app_nil_r. exists old. split; [reflexivity|]. split; [reflexivity|].
    intros Hold. left. split; [exact Hold | constructor].
  - cbn [fold_left]. unfold append_system at 2.
    assert (Homap : omap (system_item sorted) (ref :: refs)
                    = match system_item sorted ref with
                      | Some it => it :: omap (system_item sorted) refs
                      | None => omap (system_item sorted) refs
                      end) by reflexivity.
    destruct (sorted !! ref) as [elem|] eqn:Hlookup.
    + set (it := {| item_text := description elem; item_inverted := is_clone elem;
                    item_ref := ref |}).
      assert (Hitem : system_item sorted ref = Some it)
        by (unfold system_item; rewrite Hlookup; reflexivity).
      rewrite Homap, Hitem. clear Homap.
      set (old1 := if (old =? -1)%Z && String.eqb (drv.name (driver elem)) reselect_last_driver
                   then Z.of_nat (length items) else old).
      destruct (IH (items ++ [it]) old1) as (old' & Hfold & Hkeep & Hfirst).
      replace (Z.of_nat (length items) + 1)%Z with (Z.of_nat (length (items ++ [it])))
        by (rewrite length_app; cbn [length]; lia).
      exists old'. rewrite <- !app_assoc in Hfold. cbn [app] in Hfold.
      split; [exact Hfold|]. split.
      * intros Hold. rewrite Hkeep.
        -- unfold old1. destruct (Z.eqb_spec old (-1)); [contradiction | reflexivity].
        -- unfold old1. destruct (Z.eqb_spec old (-1)); [contradiction | exact Hold].
      * intros Hold. subst old.
        assert (Hit : refers_to sorted reselect_last_driver (item_ref it)
                      = String.eqb (drv.name (driver elem)) reselect_last_driver)
          by (unfold refers_to; cbn [item_ref it]; rewrite Hlookup; reflexivity).
        unfold old1 in *. cbn [Z.eqb Pos.eqb andb] in *.
        destruct (String.eqb (drv.name (driver elem)) reselect_last_driver) eqn:Hname.
        -- right. exists 0, it. rewrite Hkeep by lia. rewrite Nat.add_0_r.
           split; [reflexivity|]. split; [reflexivity|]. split; [exact Hit|].
           cbn [take]. constructor.
        -- destruct (Hfirst eq_refl) as [[Hnone Hall]|(i & it' & Hold' & Hi & Hrefers & Hbefore)].
           ++ left. split; [exact Hnone|]. constructor; [exact Hit | exact Hall].
           ++ right. exists (S i), it'. rewrite length_app in Hold'. cbn [length] in Hold'.
              split; [rewrite Hold'; f_equal; lia|]. split; [exact Hi|].
              split; [exact Hrefers|]. cbn [take]. constructor; [exact Hit | exact Hbefore].
    + assert (Hitem : system_item sorted ref = None)
        by (unfold system_item; rewrite Hlookup; reflexivity).
      rewrite Homap, Hitem. apply IH.
Qed.

(** X16.  The loop over the display list appends one item per system, in
    display order, with the entry's description as text and inverted exactly
    for the entries flagged as clones; the item selected again is the first
    one whose short name is the remembered driver, and none (-1) when no item
    has that name. *)
Theorem populate_items (pd : persistent_data) (m : menu_select_game) (p : populated) :
  populate MAX_VISIBLE_SEARCH is_favorite_filter get_current_filter
    reselect_last_driver pd m = Some (Systems p) ->
  menu_items p = omap (system_item (m_sorted_list pd)) (m_displaylist p)
  /\ ((old_item_selected p = (-1)%Z
       /\ Forall (fun it => refers_to (m_sorted_list pd) reselect_last_driver (item_ref it) = false)
            (menu_items p))
      \/ (exists i it,
            old_item_selected p = Z.of_nat i
            /\ menu_items p !! i = Some it
            /\ refers_to (m_sorted_list pd) reselect_last_driver (item_ref it) = true
            /\ Forall (fun it => refers_to (m_sorted_list pd) reselect_last_driver (item_ref it) = false)
                 (take i (menu_items p)))).
Proof.
  unfold populate. intros Hpopulate.
  destruct (filter_data pd) as [data|]; [|discriminate].
  destruct (negb (is_favorite_filter data)); [|discriminate].
  match type of Hpopulate with
  | match ?after with _ => _ end = _ => destruct after as [[m' displaylist]|]; [|discriminate]
  end.
  destruct (append_system_fold (m_sorted_list pd) displaylist [] (-1)%Z)
    as (old' & Hfold & _ & Hfirst).
  cbn [length app] in Hfold. change (Z.of_nat 0) with 0%Z in Hfold.
  rewrite Hfold in Hpopulate.
  injection Hpopulate as <-. cbn [menu_items m_displaylist old_item_selected].
  split; [reflexivity|]. exact (Hfirst eq_refl).
Qed.

End PopulateFacts.

Lemma search_display_is_ranked_prefix_witness :
  exists ranked p,
    populate_search (E := plain_text) alpha_cache (new_menu "beta") = Some ranked
    /\ populate (E := plain_text) 2 (fun _ => false) (fun _ => Some parents_only) "beta"
         alpha_cache (new_menu "beta") = Some (Systems p)
    /\ populated_menu p = ranked
    /\ m_displaylist p
       = take 2 (List.filter (accepted (m_sorted_list alpha_cache) (Some parents_only))
                   (map snd (m_searchlist ranked)))
    /\ length (m_displaylist p) <= 2.
Proof.
  apply (search_display_is_ranked_prefix (E := plain_text) 2 (fun _ => false)
           (fun _ => Some parents_only) "beta" alpha_cache (new_menu "beta")
           (m_filter_data alpha_cache)); vm_compute; reflexivity.
Defined.

Lemma populate_items_witness :
  populate (E := plain_text) 2 (fun _ => false) (fun _ => None) "beta"
    alpha_cache (new_menu "") = Some (Systems alpha_shown)
  /\ menu_items alpha_shown
     = omap (system_item (m_sorted_list alpha_cache)) (m_displaylist alpha_shown)
  /\ ((old_item_selected alpha_shown = (-1)%Z
       /\ Forall (fun it => refers_to (m_sorted_list alpha_cache) "beta" (item_ref it) = false)
            (menu_items alpha_shown))
      \/ (exists i it,
            old_item_selected alpha_shown = Z.of_nat i
            /\ menu_items alpha_shown !! i = Some it
            /\ refers_to (m_sorted_list alpha_cache) "beta" (item_ref it) = true
            /\ Forall (fun it => refers_to (m_sorted_list alpha_cache) "beta" (item_ref it) = false)
                 (take i (menu_items alpha_shown)))).
Proof.
  assert (Hpopulate : populate (E := plain_text) 2 (fun _ => false) (fun _ => None) "beta"
                        alpha_cache (new_menu "") = Some (Systems alpha_shown))
    by (vm_compute; reflexivity).
  split; [exact Hpopulate|].
  exact (populate_items (E := plain_text) 2 (fun _ => false) (fun _ => None) "beta"
           alpha_cache (new_menu "") alpha_shown Hpopulate).
Defined.

(** ** load_available_machines *)

Lemma set_find_In x s : set_find x s = true <-> In x s.
Proof.
  unfold set_find. rewrite existsb_exists. split.
  - intros (y & Hin & Heq). apply String.eqb_eq in Heq. subst y. exact Hin.
  - intros Hin. exists x. split; [exact Hin | apply String.eqb_refl].
Qed.

Lemma set_emplace_In x y s : In x (set_emplace y s) <-> x = y \/ In x s.
Proof.
  unfold set_emplace. destruct (set_find y s) eqn:Hfind.
  - apply set_find_In in Hfind. split; [tauto|]. intros [->|Hin]; assumption.
  - cbn. split; intros [H|H]; auto.
Qed.

Lemma set_erase_In x y s : In x (set_erase y s) <-> In x s /\ x <> y.
Proof.
  unfold set_erase. rewrite filter_In, negb_true_iff, String.eqb_neq.
  split; intros [H1 H2]; split; auto.
Qed.

Section AvailableFacts.
Context `{E : Externals}.
Variable chartrimcarriage : string -> string.
Variable a_rev : string.

Lemma listed_cons_skip rbuf file name :
  ~ heading rbuf ->
  (str_empty (strtrimspace rbuf) = true \/ char_at (strtrimspace rbuf) 0 = "#"%char) ->
  listed (rbuf :: file) name <-> listed file name.
Proof.
  intros Hhead Hskip. split.
  - intros (i & rbuf' & Hi & Htrim & Hne & Hc & Hh & Hbefore).
    destruct i as [|i].
    + cbn in Hi. injection Hi as <-. subst name. destruct Hskip; congruence.
    + exists i, rbuf'. repeat split; try assumption.
      intros j rbuf'' Hj Hlook. apply (Hbefore (S j) rbuf''); [lia | exact Hlook].
  - intros (i & rbuf' & Hi & Htrim & Hne & Hc & Hh & Hbefore).
    exists (S i), rbuf'. repeat split; try assumption.
    intros [|j] rbuf'' Hj Hlook.
    + cbn in Hlook. injection Hlook as <-. exact Hhead.
    + apply (Hbefore j rbuf''); [lia | exact Hlook].
Qed.

Lemma read_available_In file available name :
  In name (read_available file available) <-> In name available \/ listed file name.
Proof.
  revert available. induction file as [|rbuf file IH]; intros available.
  - cbn. split; [auto|]. intros [H|(i & rbuf & Hi & _)]; [exact H | discriminate].
  - cbn [read_available]. cbv zeta.
    destruct (str_empty (strtrimspace rbuf)) eqn:Hempty; cbn [orb].
    + rewrite IH, listed_cons_skip; [reflexivity | | left; exact Hempty].
      unfold heading. destruct (strtrimspace rbuf); [cbn; discriminate | discriminate].
    + destruct (Ascii.eqb_spec (char_at (strtrimspace rbuf) 0) "#") as [Hhash|Hhash].
      * rewrite IH, listed_cons_skip; [reflexivity | | right; exact Hhash].
        unfold heading. rewrite Hhash. discriminate.
      * destruct (Ascii.eqb_spec (char_at (strtrimspace rbuf) 0) "[") as [Hhead|Hhead].
        -- split; [auto|]. intros [H|(i & rbuf' & Hi & Htrim & Hne & Hc & Hh & Hbefore)];
             [exact H|]. exfalso. destruct i as [|i].
           ++ cbn in Hi. injection Hi as <-. subst name. contradiction.
           ++ apply (Hbefore 0 rbuf); [lia | reflexivity | exact Hhead].
        -- rewrite IH, set_emplace_In. split.
           ++ intros [[->|Hin]|Hlisted]; [right | left; exact Hin | right].
              ** exists 0, rbuf. repeat split; try assumption. intros j ? Hj. lia.
              ** destruct Hlisted as (i & rbuf' & Hi & Htrim & Hne & Hc & Hh & Hbefore).
                 exists (S i), rbuf'. repeat split; try assumption.
                 intros [|j] rbuf'' Hj Hlook.
                 --- cbn in Hlook. injection Hlook as <-. exact Hhead.
                 --- apply (Hbefore j rbuf''); [lia | exact Hlook].
           ++ intros [Hin|(i & rbuf' & Hi & Htrim & Hne & Hc & Hh & Hbefore)];
                [left; right; exact Hin|].
              destruct i as [|i].
              ** cbn in Hi. injection Hi as <-. left. left. symmetry. exact Htrim.
              ** right. exists i, rbuf'. repeat split; try assumption.
                 intros j rbuf'' Hj Hlook. apply (Hbefore (S j) rbuf''); [lia | exact Hlook].
Qed.

Lemma mark_listed_fold sorted available done :
  exists available' marked,
    fold_left mark_listed sorted (available, done) = (available', done ++ marked)
    /\ length marked = length sorted
    /\ forall i info, sorted !! i = Some info ->
         exists v, marked !! i = Some (set_available v info)
           /\ (v = true <->
               In (drv.name (driver info)) available
               /\ forall j other, j < i -> sorted !! j = Some other ->
                    drv.name (driver other) <> drv.name (driver info)).
Proof.
  revert available done. induction sorted as [|info sorted IH]; intros available done.
  - exists available, []. cbn. rewrite app_nil_r. split; [reflexivity|].
    split; [reflexivity|]. intros i info Hi. discriminate.
  - cbn [fold_left]. unfold mark_listed at 2.
    set (found := set_find (drv.name (driver info)) available).
    set (available1 := if found then set_erase (drv.name (driver info)) available
                       else available).
    destruct (IH available1 (done ++ [set_available found info]))
      as (available' & marked & Hfold & Hlen & Hmarked).
    exists available', (set_available found info :: marked).
    rewrite Hfold, <- app_assoc. split; [reflexivity|].
    split; [cbn; rewrite Hlen; reflexivity|].
    intros [|i] info' Hi.
    + cbn in Hi. injection Hi as <-. exists found. split; [reflexivity|].
      unfold found. rewrite set_find_In. split.
      * intros Hin. split; [exact Hin|]. intros j other Hj. lia.
      * intros [Hin _]. exact Hin.
    + cbn in Hi. destruct (Hmarked i info' Hi) as (v & Hlook & Hv).
      exists v. split; [exact Hlook|]. rewrite Hv. clear Hv.
      assert (Hin1 : In (drv.name (driver info')) available1
                     <-> In (drv.name (driver info')) available
                         /\ drv.name (driver info) <> drv.name (driver info')).
      { unfold available1. destruct found eqn:Hfound.
        - rewrite set_erase_In. split; intros [H1 H2]; split; auto.
        - split; [|tauto]. intros Hin. split; [exact Hin|].
          intros Heq. unfold found in Hfound. rewrite Heq in Hfound.
          apply set_find_In in Hin. congruence. }
      rewrite Hin1. split.
      * intros [[Hin Hne] Hbefore]. split; [exact Hin|].
        intros [|j] other Hj Hlookj.
        -- cbn in Hlookj. injection Hlookj as <-. exact Hne.
        -- apply (Hbefore j other); [lia | exact Hlookj].
      * intros [Hin Hbefore]. split; [split; [exact Hin|]|].
        -- apply (Hbefore 0 info); [lia | reflexivity].
        -- intros j other Hj Hlookj. apply (Hbefore (S j) other); [lia | exact Hlookj].
Qed.

(** X17.  When the availability file opens, its version line matches and
    the sorted list is published, [load_available_machines] returns true and
    changes nothing but the availability flags: a system is marked available
    exactly when its short name is listed after the version line (a trimmed
    line that is not empty, not a [#] comment, and comes before the first
    section heading) and no earlier entry of the list carries the same
    name. *)
Theorem load_available_machines_marks_listed (file : list string) (rbuf : string)
    (pd : persistent_data) :
  (a_rev =? chartrimcarriage (version_line file rbuf))%string = true ->
  is_available AVAIL_SORTED_LIST pd = true ->
  exists marked,
    load_available_machines chartrimcarriage a_rev (Some file) rbuf pd
    = Some (true, with_sorted_list marked pd)
    /\ length marked = length (m_sorted_list pd)
    /\ forall i info, m_sorted_list pd !! i = Some info ->
         exists v, marked !! i = Some (set_available v info)
           /\ (v = true <->
               listed (drop 2 file) (drv.name (driver info))
               /\ forall j other, j < i -> m_sorted_list pd !! j = Some other ->
                    drv.name (driver other) <> drv.name (driver info)).
Proof.
  intros Hversion Hpublished.
  unfold load_available_machines, version_line, sorted_list in *.
  rewrite Hpublished.
  assert (Hrest : fst (gets (fst (gets file rbuf)) (snd (gets file rbuf))) = drop 2 file)
    by (destruct file as [|l1 [|l2 rest]]; reflexivity).
  destruct (gets file rbuf) as [file1 rbuf1]. cbn [fst snd] in *.
  destruct (gets file1 rbuf1) as [file2 rbuf2]. cbn [fst snd] in *. subst file2.
  rewrite Hversion. cbn [negb].
  destruct (mark_listed_fold (m_sorted_list pd) (read_available (drop 2 file) []) [])
    as (available' & marked & Hfold & Hlen & Hmarked).
  rewrite Hfold. cbn [app]. exists marked. split; [reflexivity|]. split; [exact Hlen|].
  intros i info Hi. destruct (Hmarked i info Hi) as (v & Hlook & Hv).
  exists v. split; [exact Hlook|]. rewrite Hv, read_available_In. cbn [In]. tauto.
Qed.

(** X18.  [load_available_machines] returns false exactly when the file
    cannot be opened or the line read as the version differs from the
    running version, and it then leaves the cache as it is; no other line of
    the file makes it fail. *)
Theorem load_available_machines_rejects (file : option (list string)) (rbuf : string)
    (pd : persistent_data) :
  is_available AVAIL_SORTED_LIST pd = true ->
  exists result pd',
    load_available_machines chartrimcarriage a_rev file rbuf pd = Some (result, pd')
    /\ (result = false <->
        match file with
        | None => True
        | Some file => a_rev <> chartrimcarriage (version_line file rbuf)
        end)
    /\ (result = false -> pd' = pd).
Proof.
  intros Hpublished. destruct file as [file|].
  - destruct (String.eqb_spec a_rev (chartrimcarriage (version_line file rbuf))) as [Heq|Hne].
    + assert (Hversion : (a_rev =? chartrimcarriage (version_line file rbuf))%string = true)
        by (apply String.eqb_eq; exact Heq).
      unfold load_available_machines, version_line, sorted_list in *.
      rewrite Hpublished.
      destruct (gets file rbuf) as [file1 rbuf1]. cbn [fst snd] in *.
      destruct (gets file1 rbuf1) as [file2 rbuf2]. cbn [fst snd] in *.
      rewrite Hversion. cbn [negb].
      destruct (fold_left mark_listed (m_sorted_list pd) (read_available file2 [], []))
        as [available' marked].
      eexists _, _. split; [reflexivity|]. split; [|discriminate].
      split; [discriminate | contradiction].
    + assert (Hversion : (a_rev =? chartrimcarriage (version_line file rbuf))%string = false)
        by (apply String.eqb_neq; exact Hne).
      unfold load_available_machines, version_line in *.
      destruct (gets file rbuf) as [file1 rbuf1]. cbn [fst snd] in *.
      destruct (gets file1 rbuf1) as [file2 rbuf2]. cbn [fst snd] in *.
      rewrite Hversion. cbn [negb].
      eexists _, _. split; [reflexivity|]. split; [|reflexivity]. tauto.
  - cbn. eexists _, _. split; [reflexivity|]. split; [tauto | reflexivity].
Qed.

End AvailableFacts.

Lemma load_available_machines_marks_listed_witness :
  exists marked,
    load_available_machines (E := plain_text) trim_right "1.0 0.230" (Some alpha_avail) ""
      alpha_cache
    = Some (true, with_sorted_list marked alpha_cache)
    /\ length marked = length (m_sorted_list alpha_cache)
    /\ forall i info, m_sorted_list alpha_cache !! i = Some info ->
         exists v, marked !! i = Some (set_available v info)
           /\ (v = true <->
               listed (E := plain_text) (drop 2 alpha_avail) (drv.name (driver info))
               /\ forall j other, j < i -> m_sorted_list alpha_cache !! j = Some other ->
                    drv.name (driver other) <> drv.name (driver info)).
Proof.
  apply (load_available_machines_marks_listed (E := plain_text) trim_right "1.0 0.230"
           alpha_avail "" alpha_cache); vm_compute; reflexivity.
Defined.

Lemma load_available_machines_rejects_witness :
  exists result pd',
    load_available_machines (E := plain_text) trim_right "1.0 0.231" (Some alpha_avail) ""
      alpha_cache = Some (result, pd')
    /\ (result = false <-> "1.0 0.231" <> trim_right (version_line alpha_avail ""))
    /\ (result = false -> pd' = alpha_cache).
Proof.
  apply (load_available_machines_rejects (E := plain_text) trim_right "1.0 0.231"
           (Some alpha_avail) "" alpha_cache); vm_compute; reflexivity.
Defined.

(** ** build_available_list *)

Section BuildAvailableFacts.
Variable cat : catalog.
Variable tolower : ascii -> ascii.
Variable ROMENTRY_ISFILE : tiny_rom_entry -> bool.
Variable ROM_ISOPTIONAL : tiny_rom_entry -> bool.
Variable hashes_equal : string -> string -> bool.
Variable driver_rom : nat -> Z * list tiny_rom_entry.

Lemma build_drivername_spec src room :
  build_drivername tolower src room = string_map tolower (string_take room (stem src)).
Proof.
  revert room. induction src as [|c rest IH]; intros room.
  - destruct room; reflexivity.
  - cbn [build_drivername stem].
    destruct (c =? NUL)%char, (c =? ".")%char; cbn [negb andb orb];
      try (destruct room; reflexivity).
    destruct room as [|room]; [reflexivity|].
    cbn [string_take string_map]. rewrite IH. reflexivity.
Qed.

Lemma string_take_length n s : String.length (string_take n s) <= n.
Proof.
  revert s. induction n as [|n IH]; intros s; [cbn; lia|].
  destruct s as [|c rest]; cbn; [lia|]. specialize (IH rest). lia.
Qed.

Lemma string_map_length f s : String.length (string_map f s) = String.length s.
Proof. induction s as [|c rest IH]; cbn; [reflexivity | rewrite IH; reflexivity]. Qed.


Lemma nth_true (l : list bool) (x : nat) : nth x l false = true <-> l !! x = Some true.
Proof.
  rewrite nth_lookup. destruct (l !! x) as [[|]|]; cbn; split; congruence.
Qed.

Lemma find_from_cases (name : string) (l : list game_driver) (i : Z) :
  (driver_list.find_from name l i = (-1)%Z
   /\ Forall (fun d => drv.name d <> name) l)
  \/ (exists k d, driver_list.find_from name l i = (i + Z.of_nat k)%Z
                  /\ l !! k = Some d /\ drv.name d = name).
Proof.
  revert i. induction l as [|d0 l IH]; intros i.
  - left. split; [reflexivity | constructor].
  - cbn [driver_list.find_from].
    destruct (String.eqb_spec (drv.name d0) name) as [Heq|Hne].
    + right. exists 0, d0. split; [lia|]. split; [reflexivity | exact Heq].
    + destruct (IH (i + 1)%Z) as [[Hnone Hall]|(k & d & Hfind & Hk & Hname)].
      * left. split; [exact Hnone | constructor; assumption].
      * right. exists (S k), d. split; [lia|]. split; [exact Hk | exact Hname].
Qed.

Lemma find_named (name : string) (n : nat) :
  NoDup (map drv.name (s_drivers_sorted cat)) ->
  driver_list.find cat name = Z.of_nat n
  <-> exists d, s_drivers_sorted cat !! n = Some d /\ drv.name d = name.
Proof.
  intros Hnd. unfold driver_list.find. split.
  - intros Hfind.
    destruct (find_from_cases name (s_drivers_sorted cat) 0)
      as [[Hnone _]|(k & d & Hk & Hlook & Hname)]; [lia|].
    exists d. replace n with k by lia. split; assumption.
  - intros (d & Hlook & <-). rewrite (find_from_NoDup _ 0 n d Hnd Hlook). lia.
Qed.

Lemma find_range (name : string) :
  (driver_list.find cat name < Z.of_nat (driver_list.total cat))%Z.
Proof.
  unfold driver_list.find, driver_list.total.
  destruct (find_from_cases name (s_drivers_sorted cat) 0)
    as [[Hnone _]|(k & d & Hk & Hlook & _)]; [lia|].
  apply lookup_lt_Some in Hlook. lia.
Qed.

Lemma scan_directories_spec (entries : list string) (included : list bool) :
  length (scan_directories cat tolower entries included) = length included
  /\ forall n,
       scan_directories cat tolower entries included !! n = Some true
       <-> included !! n = Some true
           \/ (n < length included
               /\ exists e, In e entries
                    /\ driver_list.find cat (drivername tolower e) = Z.of_nat n).
Proof.
  unfold scan_directories. revert included.
  induction entries as [|e entries IH]; intros included.
  - cbn. split; [reflexivity|]. intros n. split; [auto|].
    intros [H|(_ & e & [] & _)]. exact H.
  - cbn [fold_left]. destruct (IH (scan_entry cat tolower included e)) as [Hlen Hmarks].
    assert (Hlen1 : length (scan_entry cat tolower included e) = length included).
    { unfold scan_entry. cbv zeta.
      destruct (0 <=? _)%Z; [apply length_insert | reflexivity]. }
    split; [rewrite Hlen; exact Hlen1|].
    intros n. rewrite Hmarks, Hlen1. clear Hmarks IH.
    assert (Hone : scan_entry cat tolower included e !! n = Some true
                   <-> included !! n = Some true
                       \/ (n < length included
                           /\ driver_list.find cat (drivername tolower e) = Z.of_nat n)).
    { unfold scan_entry. cbv zeta.
      destruct (Z.leb_spec 0 (driver_list.find cat (drivername tolower e))) as [Hge|Hlt].
      - rewrite list_lookup_insert_Some. split.
        + intros [(Heq & _ & Hn)|[_ H]]; [right | left; exact H].
          split; [exact Hn | lia].
        + intros [H|[Hn Hfind]].
          * destruct (Nat.eq_dec (Z.to_nat (driver_list.find cat (drivername tolower e))) n)
              as [Heq|Hne]; [left | right; split; assumption].
            split; [exact Heq|]. split; [reflexivity|].
            apply lookup_lt_Some in H. exact H.
          * left. split; [lia|]. split; [reflexivity | exact Hn].
      - split; [auto|]. intros [H|[_ Hfind]]; [exact H | lia]. }
    rewrite Hone. cbn [In]. split.
    + intros [[H|[Hn Hfind]]|(Hn & e' & Hin & Hfind)].
      * left. exact H.
      * right. split; [exact Hn|]. exists e. split; [left; reflexivity | exact Hfind].
      * right. split; [exact Hn|]. exists e'. split; [right; exact Hin | exact Hfind].
    + intros [H|(Hn & e' & [<-|Hin] & Hfind)].
      * left. left. exact H.
      * left. right. split; assumption.
      * right. split; [exact Hn|]. exists e'. split; assumption.
Qed.

Lemma romless_step_length (included : list bool) (x : nat) :
  length (romless_step cat ROMENTRY_ISFILE ROM_ISOPTIONAL hashes_equal driver_rom included x) = length included.
Proof.
  unfold romless_step. cbv zeta.
  repeat match goal with
         | |- context [if ?c then _ else _] => destruct c
         end; try apply length_insert; reflexivity.
Qed.

Lemma romless_step_other (included : list bool) (x y : nat) :
  x <> y -> romless_step cat ROMENTRY_ISFILE ROM_ISOPTIONAL hashes_equal driver_rom included x !! y = included !! y.
Proof.
  intros Hne. unfold romless_step. cbv zeta.
  repeat match goal with
         | |- context [if ?c then _ else _] => destruct c
         end; try (apply list_lookup_insert_ne; exact Hne); reflexivity.
Qed.

Lemma nth_insert_true (included : list bool) (x : nat) :
  x < length included -> nth x (<[x := true]> included) false = true.
Proof. intros Hx. apply nth_true. apply list_lookup_insert_eq. exact Hx. Qed.

Lemma romless_step_at (included : list bool) (x : nat) :
  x < length included ->
  nth x (romless_step cat ROMENTRY_ISFILE ROM_ISOPTIONAL hashes_equal driver_rom included x) false
  = nth x included false
    || (negb (x =? empty_index cat)%nat
        && (vec_empty (first_required ROMENTRY_ISFILE ROM_ISOPTIONAL (snd (driver_rom x)))
            || parent_allows cat ROMENTRY_ISFILE ROM_ISOPTIONAL hashes_equal driver_rom x included)).
Proof.
  intros Hx. unfold romless_step, parent_allows. cbv zeta.
  destruct (nth x included false) eqn:Hold; cbn [negb andb orb]; [exact Hold|].
  destruct (x =? empty_index cat)%nat; cbn [negb andb orb]; [exact Hold|].
  destruct (vec_empty (first_required ROMENTRY_ISFILE ROM_ISOPTIONAL (snd (driver_rom x)))); cbn [negb orb].
  - apply nth_insert_true. exact Hx.
  - destruct ((0 <=? driver_list_clone cat x)%Z
              && nth (Z.to_nat (driver_list_clone cat x)) included false);
      cbn [andb]; [|exact Hold].
    destruct (fst (driver_rom x) =? fst (driver_rom (Z.to_nat (driver_list_clone cat x))))%Z;
      cbn [orb]; [apply nth_insert_true; exact Hx|].
    destruct (clone_within_parent _ _ _ _ _); [apply nth_insert_true; exact Hx | exact Hold].
Qed.

Lemma romless_pass_prefix (scanned : list bool) (k : nat) :
  let pass := fun k => fold_left (romless_step cat ROMENTRY_ISFILE ROM_ISOPTIONAL hashes_equal driver_rom) (seq 0 k) scanned in
  length (pass k) = length scanned
  /\ (forall y, k <= y -> pass k !! y = scanned !! y)
  /\ (forall k' y, y < k -> k <= k' -> pass k' !! y = pass k !! y).
Proof.
  intros pass.
  assert (Hstep : forall k, pass (S k) = (romless_step cat ROMENTRY_ISFILE ROM_ISOPTIONAL hashes_equal driver_rom) (pass k) k).
  { intros n. unfold pass. rewrite seq_S, fold_left_app. reflexivity. }
  assert (Hlen : forall k, length (pass k) = length scanned).
  { intros n. induction n as [|n IH]; [reflexivity|].
    rewrite Hstep, romless_step_length. exact IH. }
  split; [apply Hlen|]. split.
  - induction k as [|k IH]; intros y Hy; [reflexivity|].
    rewrite Hstep, romless_step_other by lia. apply IH. lia.
  - intros k' y Hy Hk'. induction Hk' as [|k' Hk' IH]; [reflexivity|].
    rewrite Hstep, romless_step_other by lia. exact IH.
Qed.

Lemma romless_pass_spec (scanned : list bool) (x : nat) :
  x < length scanned ->
  let final := fold_left (romless_step cat ROMENTRY_ISFILE ROM_ISOPTIONAL hashes_equal driver_rom) (seq 0 (length scanned)) scanned in
  length final = length scanned
  /\ nth x final false
     = nth x scanned false
       || (negb (x =? empty_index cat)%nat
           && (vec_empty (first_required ROMENTRY_ISFILE ROM_ISOPTIONAL (snd (driver_rom x)))
               || parent_allows cat ROMENTRY_ISFILE ROM_ISOPTIONAL hashes_equal driver_rom x (take x final ++ drop x scanned))).
Proof.
  intros Hx final.
  destruct (romless_pass_prefix scanned (length scanned)) as (Hlen & _ & _).
  destruct (romless_pass_prefix scanned x) as (Hlenx & Hlater & Hearlier).
  destruct (romless_pass_prefix scanned (S x)) as (_ & _ & Hfixed).
  cbv zeta in *. split; [exact Hlen|].
  set (seen := fold_left (romless_step cat ROMENTRY_ISFILE ROM_ISOPTIONAL hashes_equal driver_rom) (seq 0 x) scanned) in *.
  assert (Hseen : take x final ++ drop x scanned = seen).
  { apply list_eq. intros y. destruct (Nat.lt_ge_cases y x) as [Hlt|Hge].
    - rewrite lookup_app_l by (rewrite length_take; unfold final; lia).
      rewrite lookup_take_lt by exact Hlt. unfold final.
      apply (Hearlier (length scanned) y Hlt). lia.
    - rewrite lookup_app_r by (rewrite length_take; unfold final; lia).
      rewrite length_take, lookup_drop. unfold final at 1. rewrite Hlen.
      replace (x + (y - x `min` length scanned)) with y by lia.
      symmetry. apply Hlater. exact Hge. }
  rewrite Hseen.
  assert (Hfinal : nth x final false = nth x ((romless_step cat ROMENTRY_ISFILE ROM_ISOPTIONAL hashes_equal driver_rom) seen x) false).
  { rewrite !nth_lookup. unfold final.
    assert (Hx1 : x < S x) by lia. assert (Hx2 : S x <= length scanned) by lia.
    rewrite (Hfixed (length scanned) x Hx1 Hx2).
    rewrite seq_S, fold_left_app. reflexivity. }
  rewrite Hfinal, romless_step_at by (rewrite Hlenx; exact Hx).
  rewrite (nth_lookup seen), (Hlater x) by lia. rewrite <- nth_lookup. reflexivity.
Qed.


(** X19.  The name a directory entry stands for is the part of its name
    before the first dot, cut to 49 characters and passed through [tolower]:
    it never has more than 49 characters, so a longer stem names the system
    whose short name is its first 49 characters, if any. *)
Theorem drivername_is_lowered_stem (src : string) :
  drivername tolower src = string_map tolower (string_take 49 (stem src))
  /\ String.length (drivername tolower src) <= 49.
Proof.
  unfold drivername. rewrite build_drivername_spec. split; [reflexivity|].
  rewrite string_map_length. apply string_take_length.
Qed.

Lemma scanned_named (entries : list string) (info : ui_system_info) :
  catalog_wf cat ->
  (0 <= index info < Z.of_nat (driver_list.total cat))%Z ->
  driver info = driver_list.driver cat (index info) ->
  nth (Z.to_nat (index info))
    (scan_directories cat tolower entries (replicate (driver_list.total cat) false)) false
  = existsb (fun e => (drivername tolower e =? drv.name (driver info))%string) entries.
Proof.
  intros [_ Hnd] Hrange Hdriver. apply Bool.eq_true_iff_eq.
  destruct (scan_directories_spec entries (replicate (driver_list.total cat) false))
    as [_ Hmarks].
  rewrite nth_true, Hmarks, existsb_exists, length_replicate. clear Hmarks.
  assert (Hlook : s_drivers_sorted cat !! Z.to_nat (index info) = Some (driver info)).
  { rewrite Hdriver. unfold driver_list.driver.
    destruct (nth_lookup_or_length (s_drivers_sorted cat) (Z.to_nat (index info)) null_driver)
      as [H|H]; [exact H|]. unfold driver_list.total in Hrange. lia. }
  split.
  - intros [Hinit|(_ & e & Hin & Hfind)].
    + apply lookup_replicate in Hinit. destruct Hinit as [Hinit _]. discriminate.
    + exists e. split; [exact Hin|]. apply String.eqb_eq.
      apply (find_named _ _ Hnd) in Hfind. destruct Hfind as (d & Hd & Hname).
      rewrite Hlook in Hd. injection Hd as <-. symmetry. exact Hname.
  - intros (e & Hin & Heq). apply String.eqb_eq in Heq. right. split; [lia|].
    exists e. split; [exact Hin|]. apply (find_named _ _ Hnd).
    exists (driver info). split; [exact Hlook | symmetry; exact Heq].
Qed.

(** X20.  With ROM-less systems hidden, [build_available_list] changes
    nothing but the availability flags, and marks a system available exactly
    when some entry of the ROM directories stands for its short name; the
    ROM tables are not looked at. *)
Theorem hide_romless_marks_named_systems (entries : list string) (pd : persistent_data) :
  catalog_wf cat ->
  is_available AVAIL_SORTED_LIST pd = true ->
  indexed_by cat (m_sorted_list pd) ->
  build_available_list cat tolower ROMENTRY_ISFILE ROM_ISOPTIONAL hashes_equal driver_rom
    true entries pd
  = Some (with_sorted_list
            (map (fun info =>
                    set_available
                      (existsb (fun e => (drivername tolower e =? drv.name (driver info))%string)
                         entries) info)
               (m_sorted_list pd)) pd).
Proof.
  intros Hwf Hpublished Hindexed. unfold build_available_list, sorted_list.
  rewrite Hpublished. cbv zeta. f_equal. f_equal.
  unfold included_systems. cbn [negb]. cbv zeta.
  unfold indexed_by in Hindexed. induction Hindexed as [|info l [Hrange Hdriver] _ IH].
  - reflexivity.
  - cbn [map]. rewrite IH. f_equal. f_equal.
    apply scanned_named; assumption.
Qed.

(** X21.  The pass over the table that lets ROM-less systems in never
    removes a mark and never marks the placeholder.  It marks a system with
    no required ROM, and a system with required ROMs whose parent is marked
    when it is reached and either shares its ROM array or has all its required
    ROMs; "when it is reached" means: a parent earlier in the table counts
    with the mark the pass gave it, a parent later in the table only with the
    mark of the directory scan. *)
Theorem romless_pass_order (entries : list string) (x : nat) :
  x < driver_list.total cat ->
  let scanned :=
    included_systems cat tolower ROMENTRY_ISFILE ROM_ISOPTIONAL hashes_equal driver_rom
      true entries in
  let final :=
    included_systems cat tolower ROMENTRY_ISFILE ROM_ISOPTIONAL hashes_equal driver_rom
      false entries in
  nth x final false
  = nth x scanned false
    || (negb (x =? empty_index cat)%nat
        && (vec_empty (first_required ROMENTRY_ISFILE ROM_ISOPTIONAL (snd (driver_rom x)))
            || parent_allows cat ROMENTRY_ISFILE ROM_ISOPTIONAL hashes_equal driver_rom x
                 (take x final ++ drop x scanned))).
Proof.
  intros Hx. unfold included_systems. cbn [negb]. cbv zeta.
  set (scanned := scan_directories cat tolower entries
                    (replicate (driver_list.total cat) false)).
  assert (Hlen : length scanned = driver_list.total cat).
  { unfold scanned.
    destruct (scan_directories_spec entries (replicate (driver_list.total cat) false))
      as [Hlen _]. rewrite Hlen. apply length_replicate. }
  rewrite <- Hlen. apply romless_pass_spec. lia.
Qed.

Lemma first_required_none (roms : list tiny_rom_entry) :
  Forall (fun r => is_required_rom ROMENTRY_ISFILE ROM_ISOPTIONAL r = false) roms ->
  first_required ROMENTRY_ISFILE ROM_ISOPTIONAL roms = [].
Proof.
  induction 1 as [|r roms Hr _ IH]; [reflexivity|].
  cbn [first_required]. rewrite Hr. exact IH.
Qed.

(** X22.  Unless ROM-less systems are hidden, every system of the table
    other than the placeholder none of whose ROM entries is required (a file
    that is not optional and whose hash data has no [!]) is marked available,
    whatever the ROM directories hold. *)
Theorem romless_systems_are_available (entries : list string) (x : nat) (pd : persistent_data)
    (info : ui_system_info) (i : nat) :
  x < driver_list.total cat ->
  x <> empty_index cat ->
  Forall (fun r => is_required_rom ROMENTRY_ISFILE ROM_ISOPTIONAL r = false)
    (snd (driver_rom x)) ->
  is_available AVAIL_SORTED_LIST pd = true ->
  m_sorted_list pd !! i = Some info ->
  index info = Z.of_nat x ->
  exists pd',
    build_available_list cat tolower ROMENTRY_ISFILE ROM_ISOPTIONAL hashes_equal driver_rom
      false entries pd = Some pd'
    /\ m_sorted_list pd' !! i = Some (set_available true info).
Proof.
  intros Hx Hlisted Hroms Hpublished Hi Hindex.
  unfold build_available_list, sorted_list. rewrite Hpublished. cbv zeta.
  eexists. split; [reflexivity|]. cbn [m_sorted_list with_sorted_list].
  rewrite list_lookup_fmap, Hi. cbn. f_equal. f_equal.
  rewrite Hindex, Nat2Z.id.
  unfold included_systems. cbn [negb]. cbv zeta.
  set (scanned := scan_directories cat tolower entries
                    (replicate (driver_list.total cat) false)).
  assert (Hlen : length scanned = driver_list.total cat).
  { unfold scanned.
    destruct (scan_directories_spec entries (replicate (driver_list.total cat) false))
      as [Hlen _]. rewrite Hlen. apply length_replicate. }
  rewrite <- Hlen.
  destruct (romless_pass_spec scanned x ltac:(lia)) as [_ Hfinal].
  cbv zeta in Hfinal. rewrite Hfinal, (first_required_none _ Hroms).
  apply Nat.eqb_neq in Hlisted. rewrite Hlisted. cbn. apply orb_true_r.
Qed.

End BuildAvailableFacts.

Lemma alpha_cache_indexed : indexed_by alpha_catalog (m_sorted_list alpha_cache).
Proof.
  unfold indexed_by.
  assert (Hl : m_sorted_list alpha_cache
               = [ (nth 0 (m_sorted_list alpha_cache) (emplace null_driver 0 false));
                   (nth 1 (m_sorted_list alpha_cache) (emplace null_driver 0 false));
                   (nth 2 (m_sorted_list alpha_cache) (emplace null_driver 0 false)) ])
    by (vm_compute; reflexivity).
  rewrite Hl. repeat constructor; vm_compute; congruence.
Qed.

Lemma hide_romless_marks_named_systems_witness :
  build_available_list alpha_catalog lower_case file_bit optional_bit String.eqb alpha_rom
    true ["Alpha.zip"; "notes.txt"] alpha_cache
  = Some (with_sorted_list
            (map (fun info =>
                    set_available
                      (existsb (fun e => (drivername lower_case e =? drv.name (driver info))%string)
                         ["Alpha.zip"; "notes.txt"]) info)
               (m_sorted_list alpha_cache)) alpha_cache).
Proof.
  apply (hide_romless_marks_named_systems alpha_catalog lower_case file_bit optional_bit
           String.eqb alpha_rom ["Alpha.zip"; "notes.txt"] alpha_cache alpha_catalog_wf).
  - vm_compute. reflexivity.
  - exact alpha_cache_indexed.
Defined.

Lemma romless_pass_order_witness :
  nth 2 (included_systems alpha_catalog lower_case file_bit optional_bit String.eqb alpha_rom
           false ["Alpha.zip"]) false
  = nth 2 (included_systems alpha_catalog lower_case file_bit optional_bit String.eqb alpha_rom
             true ["Alpha.zip"]) false
    || (negb (2 =? empty_index alpha_catalog)%nat
        && (vec_empty (first_required file_bit optional_bit (snd (alpha_rom 2)))
            || parent_allows alpha_catalog file_bit optional_bit String.eqb alpha_rom 2
                 (take 2 (included_systems alpha_catalog lower_case file_bit optional_bit
                            String.eqb alpha_rom false ["Alpha.zip"])
                  ++ drop 2 (included_systems alpha_catalog lower_case file_bit optional_bit
                               String.eqb alpha_rom true ["Alpha.zip"])))).
Proof.
  apply (romless_pass_order alpha_catalog lower_case file_bit optional_bit String.eqb
           alpha_rom ["Alpha.zip"] 2).
  vm_compute. lia.
Defined.

Lemma romless_systems_are_available_witness :
  exists pd',
    build_available_list alpha_catalog lower_case file_bit optional_bit String.eqb alpha_rom
      false [] alpha_cache = Some pd'
    /\ m_sorted_list pd' !! 2
       = Some (set_available true
                 (nth 2 (m_sorted_list alpha_cache) (emplace null_driver 0 false))).
Proof.
  apply (romless_systems_are_available alpha_catalog lower_case file_bit optional_bit
           String.eqb alpha_rom [] 3 alpha_cache
           (nth 2 (m_sorted_list alpha_cache) (emplace null_driver 0 false)) 2).
  - vm_compute. lia.
  - vm_compute. lia.
  - vm_compute. constructor.
  - vm_compute. reflexivity.
  - vm_compute. reflexivity.
  - vm_compute. reflexivity.
Defined.

(** ** The constructor's reading of the last used filter *)

Lemma find_first_of_split (s : string) (ch : ascii) :
  match find_first_of s ch with
  | None => forall i, String.get i s <> Some ch
  | Some found =>
      s = (string_take found s ++ String ch (substr s (found + 1)))%string
      /\ find_first_of (string_take found s) ch = None
  end.
Proof.
  induction s as [|c rest IH].
  - cbn. intros i. destruct i; discriminate.
  - cbn [find_first_of]. destruct (Ascii.eqb_spec c ch) as [->|Hne].
    + cbn. split; reflexivity.
    + destruct (find_first_of rest ch) as [found|].
      * destruct IH as [Hsplit Hnone]. cbn [string_take Nat.add substr String.append].
        split; [f_equal; exact Hsplit|].
        cbn [find_first_of]. destruct (Ascii.eqb_spec c ch); [contradiction|].
        rewrite Hnone. reflexivity.
      * intros [|i]; cbn; [congruence | apply IH].
Qed.

(** X23.  The constructor splits the last used filter at its first comma:
    without a comma the whole setting is the filter name and its value is 1;
    otherwise the name is the text before the first comma (so it holds no
    comma) and the value is everything after it, further commas included. *)
Theorem fake_ini_splits_at_first_comma (last_used_filter : string) :
  (find_first_of last_used_filter "," = None
   /\ fake_ini last_used_filter
      = (BOM ++ last_used_filter ++ " = 1" ++ String LF EmptyString)%string)
  \/ (exists name value,
        last_used_filter = (name ++ String "," value)%string
        /\ find_first_of name "," = None
        /\ fake_ini last_used_filter
           = (BOM ++ name ++ " = " ++ value ++ String LF EmptyString)%string).
Proof.
  unfold fake_ini. cbv zeta.
  pose proof (find_first_of_split last_used_filter ",") as Hsplit.
  destruct (find_first_of last_used_filter ",") as [found|].
  - right. destruct Hsplit as [Hsplit Hnone].
    exists (string_take found last_used_filter), (substr last_used_filter (found + 1)).
    split; [exact Hsplit|]. split; [exact Hnone | reflexivity].
  - left. split; reflexivity.
Qed.

(** ** The filter keys of handle *)

(** X24.  Whatever keys are pressed, the highlighted filter stays between
    the first and the last filter, and it does not move unless the focus is
    on the left panel. *)
Theorem filter_highlight_stays_in_range (FIRST LAST : Z) (keys : list (bool * ui_key))
    (m_filter_highlight : Z) :
  (FIRST <= m_filter_highlight <= LAST)%Z ->
  let after :=
    fold_left (fun highlight key => filter_key FIRST LAST (fst key) (snd key) highlight)
      keys m_filter_highlight in
  (FIRST <= after <= LAST)%Z
  /\ (Forall (fun key => fst key = false) keys -> after = m_filter_highlight).
Proof.
  revert m_filter_highlight. induction keys as [|[focus key] keys IH];
    intros highlight Hrange; cbv zeta.
  - cbn. split; [exact Hrange | reflexivity].
  - cbn [fold_left fst snd].
    assert (Hstep : (FIRST <= filter_key FIRST LAST focus key highlight <= LAST)%Z).
    { unfold filter_key. destruct key, focus; cbn [andb];
        try destruct (Z.ltb_spec FIRST highlight);
        try destruct (Z.gtb_spec LAST highlight); lia. }
    destruct (IH _ Hstep) as [Hafter Hstill]. split; [exact Hafter|].
    intros Hfocus. inversion Hfocus as [|? ? Hhere Hrest]; subst.
    cbn [fst] in Hhere. subst focus. rewrite (Hstill Hrest).
    destruct key; reflexivity.
Qed.

Lemma filter_highlight_stays_in_range_witness :
  let after :=
    fold_left (fun highlight key => filter_key 0 15 (fst key) (snd key) highlight)
      [(true, IPT_UI_END); (true, IPT_UI_DOWN); (false, IPT_UI_HOME); (true, IPT_UI_UP)]
      3%Z in
  (0 <= after <= 15)%Z
  /\ (Forall (fun key => fst key = false)
        [(true, IPT_UI_END); (true, IPT_UI_DOWN); (false, IPT_UI_HOME); (true, IPT_UI_UP)]
      -> after = 3%Z).
Proof.
  apply (filter_highlight_stays_in_range 0 15
           [(true, IPT_UI_END); (true, IPT_UI_DOWN); (false, IPT_UI_HOME); (true, IPT_UI_UP)]
           3%Z).
  lia.
Defined.


(** ** An overlay file without lines *)

Lemma with_sorted_list_eta (s : persistent_data) :
  s = with_sorted_list (m_sorted_list s) (without_list s).
Proof. destruct s. reflexivity. Qed.

Lemma without_list_eq (s s' : persistent_data) :
  without_list s = without_list s' -> m_sorted_list s = m_sorted_list s' -> s = s'.
Proof.
  intros Hrest Hlist. rewrite (with_sorted_list_eta s), (with_sorted_list_eta s').
  rewrite Hrest, Hlist. reflexivity.
Qed.

Section EmptyOverlay.
Context `{E : Externals} (cat : catalog).

Lemma populate_list_step_without_list (c c' : bool) (s s' : persistent_data) (x : nat) :
  without_list s = without_list s' ->
  without_list (populate_list_step cat c s x) = without_list (populate_list_step cat c' s' x).
Proof.
  intros Hrest. destruct s, s'. unfold without_list, with_sorted_list in Hrest.
  cbn in Hrest. injection Hrest as -> -> -> -> ->.
  unfold populate_list_step. cbv zeta.
  destruct (negb (x =? empty_index cat)%nat); [|reflexivity].
  destruct (is_bios_root (driver_list.driver cat (Z.of_nat x))); reflexivity.
Qed.

Lemma populate_list_without_list (c c' : bool) (s : persistent_data) :
  without_list (populate_list cat c s) = without_list (populate_list cat c' s).
Proof.
  unfold populate_list.
  assert (Hgen : forall l s s', without_list s = without_list s' ->
            without_list (fold_left (populate_list_step cat c) l s)
            = without_list (fold_left (populate_list_step cat c') l s')).
  { induction l as [|x l IH]; intros s1 s2 Hrest; [exact Hrest|].
    cbn [fold_left]. apply IH. apply populate_list_step_without_list. exact Hrest. }
  apply Hgen. reflexivity.
Qed.

Lemma delete_map_seq {A : Type} (f g : nat -> A) (k n : nat) :
  (forall x, x < n -> x <> k -> f x = g x) ->
  delete k (map f (seq 0 n)) = delete k (map g (seq 0 n)).
Proof.
  intros Hfg. apply list_eq. intros j. rewrite !list_lookup_delete.
  change (map f (seq 0 n)) with (f <$> seq 0 n). change (map g (seq 0 n)) with (g <$> seq 0 n).
  rewrite !list_lookup_fmap.
  destruct (decide (j < k)) as [Hlt|Hge].
  - destruct (seq 0 n !! j) as [x|] eqn:Hx; [|reflexivity].
    apply lookup_seq in Hx. cbn. f_equal. apply Hfg; lia.
  - destruct (seq 0 n !! S j) as [x|] eqn:Hx; [|reflexivity].
    apply lookup_seq in Hx. cbn. f_equal. apply Hfg; lia.
Qed.

Lemma untitled_list_sorted :
  catalog_sorted cat ->
  sorted_by_shortname
    (map fill_untranslated (map (populated_entry cat false) (seq 0 (driver_list.total cat)))).
Proof.
  intros Hs. unfold sorted_by_shortname.
  apply (StronglySorted_map driver (fun a b => String.ltb (drv.name a) (drv.name b) = true)).
  rewrite map_map.
  assert (Hdrv : forall e, driver (fill_untranslated e) = driver e)
    by (intros e; unfold fill_untranslated; destruct (str_empty _); reflexivity).
  rewrite (map_ext _ driver Hdrv), <- populate_list_entries.
  rewrite (proj1 (proj2 (populate_list_shape cat false))). exact Hs.
Qed.

Lemma untitled_lookup (p : nat) (d : game_driver) :
  s_drivers_sorted cat !! p = Some d ->
  map fill_untranslated (map (populated_entry cat false) (seq 0 (driver_list.total cat))) !! p
  = Some (fill_untranslated (populated_entry cat false p))
  /\ driver_list.driver cat (Z.of_nat p) = d.
Proof.
  intros Hp. split.
  - change (map ?f ?l) with (f <$> l). rewrite !list_lookup_fmap.
    rewrite lookup_seq_lt by (apply lookup_lt_Some in Hp; exact Hp). reflexivity.
  - unfold driver_list.driver. rewrite Nat2Z.id. apply nth_lookup_Some. exact Hp.
Qed.

Lemma untitled_entry (x : nat) :
  catalog_sorted cat -> catalog_wf cat -> parents_listed cat ->
  x < driver_list.total cat -> x <> empty_index cat ->
  populate_parents_entry
    (map fill_untranslated (map (populated_entry cat false) (seq 0 (driver_list.total cat))))
    (fill_untranslated (populated_entry cat false x))
  = populated_entry cat true x.
Proof.
  intros Hsorted [_ Hnd] Hparents Hx Hlisted.
  destruct (lookup_lt_is_Some_2 (s_drivers_sorted cat) x Hx) as [d Hd].
  destruct (untitled_lookup x d Hd) as [_ Hdriver].
  apply Nat.eqb_neq in Hlisted.
  assert (Hfill : forall y, fill_untranslated (populated_entry cat false y)
                   = set_description (drv.fullname (driver_list.driver cat (Z.of_nat y)))
                       (populated_entry cat false y)).
  { intros y. unfold fill_untranslated, populated_entry. cbv zeta. cbn [description driver].
    rewrite andb_false_r. reflexivity. }
  unfold populate_parents_entry. rewrite Hfill.
  cbn [driver set_description].
  assert (Hdrv : forall c y, driver (populated_entry cat c y)
                             = driver_list.driver cat (Z.of_nat y)) by reflexivity.
  rewrite !Hdrv, Hdriver.
  destruct (has_parent d) eqn:Hparent.
  - assert (Hind : In d (s_drivers_sorted cat))
      by (apply list_elem_of_In; eapply list_elem_of_lookup_2; exact Hd).
    destruct (Hparents d Hind Hparent) as (pd & Hin & Hname).
    apply list_elem_of_In, list_elem_of_lookup_1 in Hin. destruct Hin as [p Hp].
    destruct (untitled_lookup p pd Hp) as [Hlook Hpdriver].
    rewrite (lower_bound_exact _ (drv.parent d) p _ (untitled_list_sorted Hsorted) Hlook).
    2:{ rewrite Hfill. cbn [driver set_description]. rewrite Hdrv, Hpdriver. exact Hname. }
    rewrite Hlook, Hfill.
    assert (Hfind : driver_list.find cat (drv.parent d) = Z.of_nat p).
    { rewrite <- Hname. unfold driver_list.find.
      rewrite (find_from_NoDup _ 0 p pd Hnd Hp). lia. }
    unfold populated_entry. cbv zeta. rewrite Hdriver, Hpdriver, Hparent, Hfind, Hlisted.
    cbn [negb andb description reading_description set_description set_parent
         set_reading_parent driver index is_clone available parent reading_parent
         ucs_shortname ucs_description ucs_reading_description ucs_manufacturer_description
         ucs_manufacturer_reading_description ucs_default_description
         ucs_manufacturer_default_description].
    rewrite (proj2 (Z.leb_le 0 (Z.of_nat p)) ltac:(lia)), Hpdriver.
    reflexivity.
  - unfold populated_entry. cbv zeta. rewrite Hdriver, Hparent, Hlisted.
    cbn [negb andb description set_description driver index is_clone available parent
         reading_description reading_parent
         ucs_shortname ucs_description ucs_reading_description ucs_manufacturer_description
         ucs_manufacturer_reading_description ucs_default_description
         ucs_manufacturer_default_description].
    reflexivity.
Qed.


Lemma untranslated_entry (x : nat) :
  x <> empty_index cat -> untranslated (populated_entry cat true x).
Proof.
  intros Hlisted. apply Nat.eqb_neq in Hlisted.
  unfold untranslated, populated_entry. cbv zeta. cbn [description driver].
  rewrite Hlisted. reflexivity.
Qed.

Lemma stage_1_without_lines (datpath titles : string) :
  catalog_sorted cat -> catalog_wf cat -> parents_listed cat ->
  str_empty titles = false -> open_titles datpath titles = Some [] ->
  stage cat datpath titles 1 (stage cat datpath titles 0 persistent_data_new)
  = stage cat datpath "" 1 (stage cat datpath "" 0 persistent_data_new)
  /\ Forall untranslated
       (m_sorted_list (stage cat datpath "" 1 (stage cat datpath "" 0 persistent_data_new))).
Proof.
  intros Hsorted Hwf Hparents Htitles Hopen.
  assert (Htry : try_titles datpath titles = true)
    by (unfold try_titles; rewrite Htitles, Hopen; reflexivity).
  assert (Hfile : titles_file datpath titles = [])
    by (unfold titles_file; rewrite Hopen; reflexivity).
  pose proof (populate_list_without_list false true persistent_data_new) as Hrest.
  pose proof (populate_list_entries cat false) as Hfalse.
  pose proof (populate_list_entries cat true) as Htrue.
  set (A := populate_list cat false persistent_data_new) in *.
  set (B := populate_list cat true persistent_data_new) in *.
  assert (Hlist : erase_at
            (populate_parents (fst (load_titles [] (m_sorted_list A))))
            (driver_list.find cat (drv.name (GAME_NAME____empty cat)))
          = erase_at (m_sorted_list B)
              (driver_list.find cat (drv.name (GAME_NAME____empty cat)))).
  { rewrite (find_empty cat Hwf). unfold erase_at.
    rewrite (proj2 (Z.leb_le 0 (Z.of_nat (empty_index cat))) ltac:(lia)), Nat2Z.id.
    rewrite Hfalse, Htrue.
    change (fst (load_titles [] ?l)) with (map fill_untranslated l).
    rewrite populate_parents_map.
    set (l1 := map fill_untranslated
                 (map (populated_entry cat false) (seq 0 (driver_list.total cat)))).
    unfold l1 at 2. rewrite !map_map.
    apply delete_map_seq. intros x Hx Hne.
    apply (untitled_entry x Hsorted Hwf Hparents Hx Hne). }
  split.
  - unfold stage. rewrite Htry, Hfile.
    change (try_titles datpath "") with false. cbv zeta. cbn [negb].
    fold A. fold B.
    apply without_list_eq.
    + unfold notify_available, with_available, with_sorted_list, without_list in *.
      cbn [m_thread m_started m_available m_sorted_list m_filter_data m_bios_count] in *.
      injection Hrest as -> -> -> -> ->. reflexivity.
    + unfold notify_available, with_available, with_sorted_list.
      cbn [m_thread m_started m_available m_sorted_list m_filter_data m_bios_count].
      rewrite Hlist. reflexivity.
  - unfold stage. change (try_titles datpath "") with false. cbv zeta. cbn [negb].
    fold B. unfold notify_available, with_available, with_sorted_list.
    cbn [m_thread m_started m_available m_sorted_list m_filter_data m_bios_count].
    eapply Permutation_Forall; [symmetry; apply stable_sort_perm|].
    rewrite (find_empty cat Hwf). unfold erase_at.
    rewrite (proj2 (Z.leb_le 0 (Z.of_nat (empty_index cat))) ltac:(lia)), Nat2Z.id, Htrue.
    apply Forall_lookup. intros j e. rewrite list_lookup_delete.
    change (map ?f ?l) with (f <$> l). rewrite list_lookup_fmap.
    intros He. destruct (seq 0 (driver_list.total cat) !! _) as [x|] eqn:Hx; [|discriminate].
    cbn in He. injection He as <-. apply lookup_seq in Hx.
    apply untranslated_entry. destruct (decide (j < empty_index cat)); lia.
Qed.

Lemma stage_keeps_untranslated (datpath : string) (n : nat) (s : persistent_data) :
  2 <= n ->
  Forall untranslated (m_sorted_list s) ->
  Forall untranslated (m_sorted_list (stage cat datpath "" n s)).
Proof.
  intros Hn Hall.
  destruct n as [|[|[|[|[|[|[|[|n]]]]]]]]; try lia; [| | | | | |exact Hall];
    unfold stage; try change (try_titles datpath "") with false; cbv zeta;
    unfold notify_available, with_available, with_sorted_list, with_filter_data;
    cbn [m_thread m_started m_available m_sorted_list m_filter_data m_bios_count];
    try exact Hall;
    (rewrite Forall_fmap || rewrite Forall_map);
    (eapply Forall_impl; [exact Hall|]); intros info Hinfo; exact Hinfo.
Qed.

Lemma stage_default_description (datpath titles : string) (n : nat) (s : persistent_data) :
  6 <= n ->
  Forall untranslated (m_sorted_list s) ->
  stage cat datpath titles n s = stage cat datpath "" n s.
Proof.
  intros Hn Hall.
  assert (Hid : forall f : ui_system_info -> ui_system_info,
            map (fun info => if default_description_differs info then f info else info)
              (m_sorted_list s) = m_sorted_list s).
  { intros f. rewrite <- (map_id (m_sorted_list s)) at 2.
    apply map_ext_Forall. eapply Forall_impl; [exact Hall|].
    intros info Hinfo. unfold default_description_differs.
    unfold untranslated in Hinfo. rewrite Hinfo, String.eqb_refl. reflexivity. }
  destruct n as [|[|[|[|[|[|[|[|n]]]]]]]]; try lia; [| |reflexivity];
    unfold stage; change (try_titles datpath "") with false;
    destruct (try_titles datpath titles); try reflexivity;
    rewrite Hid; destruct s; reflexivity.
Qed.

(** X26.  For a table in ascending order of short names in which every
    parent named is present, an overlay file that opens but holds no line
    makes [do_cache_data] build exactly the cache it builds without an
    overlay: the descriptions, parents, clone flags, order, searchable forms,
    filter data and BIOS count are the same. *)
Theorem overlay_without_lines_changes_nothing (datpath titles : string) :
  catalog_sorted cat -> catalog_wf cat -> parents_listed cat ->
  str_empty titles = false -> open_titles datpath titles = Some [] ->
  do_cache_data cat datpath titles persistent_data_new
  = do_cache_data cat datpath "" persistent_data_new.
Proof.
  intros Hsorted Hwf Hparents Htitles Hopen.
  destruct (stage_1_without_lines datpath titles Hsorted Hwf Hparents Htitles Hopen)
    as [Hsame Hall].
  unfold do_cache_data, stages. cbn [fold_left seq].
  rewrite Hsame.
  set (s1 := stage cat datpath "" 1 (stage cat datpath "" 0 persistent_data_new)) in *.
  change (stage cat datpath titles 2 s1) with (stage cat datpath "" 2 s1).
  set (s2 := stage cat datpath "" 2 s1).
  change (stage cat datpath titles 3 s2) with (stage cat datpath "" 3 s2).
  set (s3 := stage cat datpath "" 3 s2).
  change (stage cat datpath titles 4 s3) with (stage cat datpath "" 4 s3).
  set (s4 := stage cat datpath "" 4 s3).
  change (stage cat datpath titles 5 s4) with (stage cat datpath "" 5 s4).
  set (s5 := stage cat datpath "" 5 s4).
  assert (H2 : Forall untranslated (m_sorted_list s2))
    by (apply stage_keeps_untranslated; [lia | exact Hall]).
  assert (H3 : Forall untranslated (m_sorted_list s3))
    by (apply stage_keeps_untranslated; [lia | exact H2]).
  assert (H4 : Forall untranslated (m_sorted_list s4))
    by (apply stage_keeps_untranslated; [lia | exact H3]).
  assert (H5 : Forall untranslated (m_sorted_list s5))
    by (apply stage_keeps_untranslated; [lia | exact H4]).
  rewrite (stage_default_description datpath titles 6 s5 ltac:(lia) H5).
  apply stage_default_description; [lia|].
  apply stage_keeps_untranslated; [lia | exact H5].
Qed.

End EmptyOverlay.

Lemma alpha_parents_listed : parents_listed alpha_catalog.
Proof.
  intros d Hin Hparent. cbn in Hin.
  destruct Hin as [<-|[<-|[<-|[<-|[]]]]]; try discriminate.
  exists (plain_driver "alpha" "0" "Alpha"). split; [cbn; auto | reflexivity].
Qed.

Lemma overlay_without_lines_changes_nothing_witness :
  do_cache_data (E := blank_overlay) alpha_catalog "dats" "titles.txt" persistent_data_new
  = do_cache_data (E := blank_overlay) alpha_catalog "dats" "" persistent_data_new.
Proof.
  apply (overlay_without_lines_changes_nothing (E := blank_overlay) alpha_catalog
           "dats" "titles.txt" alpha_catalog_sorted alpha_catalog_wf alpha_parents_listed);
    reflexivity.
Defined.
